(** * Places Alarm (Orbits): a shallow embedding of the controller and services

    The development follows the TypeScript sources:
    - [locationService.ts]: [calculateDistance], [searchPlaces];
    - [geminiService.ts]: [suggestCategoryAndNotes];
    - [App.tsx]: the state of the [App] component, its handlers and the
      proximity-check effect.

    Conventions.
    - A JavaScript string is the list of its UTF-16 code units ([list N]).
    - [Date.now()] is an integer ([Z]); every handler that reads the clock
      takes the values it reads as arguments.
    - Coordinates, distances and radii are IEEE doubles in the source; they
      are real numbers here, and [Math.sin], [Math.cos], [Math.sqrt],
      [Math.atan2] are their exact counterparts.  Rounding and NaN are
      outside the model.
    - A React state setter [setX(prev => f prev)] is the update [f] applied
      to the pending state; a handler is one atomic transition. *)

From Stdlib Require Import Reals Lra Machin.
From Stdlib Require Import DecimalString.
From stdpp Require Import gmap strings list.

(* ================================================================== *)
(** * JavaScript strings *)
(* ================================================================== *)

Module Js.

(** A string is its sequence of UTF-16 code units. *)
Abbreviation jsstring := (list N).

(** An ASCII literal as a JavaScript string. *)
Definition str (s : string) : jsstring :=
  map Ascii.N_of_ascii (String.list_ascii_of_string s).

(** Truthiness of a string: the empty string is the only falsy one. *)
Definition truthy (s : jsstring) : bool :=
  match s with [] => false | _ :: _ => true end.

(** [a || b] on strings. *)
Definition or_else (a b : jsstring) : jsstring :=
  if truthy a then a else b.

(** ECMAScript WhiteSpace and LineTerminator code points: the set that
    [String.prototype.trim] strips and that [\s] matches. *)
Definition isWhiteSpace (c : N) : bool :=
  (   (c =? 9) || (c =? 10) || (c =? 11) || (c =? 12) || (c =? 13)
   || (c =? 32) || (c =? 160) || (c =? 5760)
   || ((8192 <=? c) && (c <=? 8202))
   || (c =? 8232) || (c =? 8233) || (c =? 8239) || (c =? 8287)
   || (c =? 12288) || (c =? 65279))%N.

Fixpoint trimStart (s : jsstring) : jsstring :=
  match s with
  | c :: s' => if isWhiteSpace c then trimStart s' else s
  | [] => []
  end.

Definition trimEnd (s : jsstring) : jsstring :=
  rev (trimStart (rev s)).

(** [String.prototype.trim]. *)
Definition trim (s : jsstring) : jsstring := trimEnd (trimStart s).

(** A string is tight when it neither starts nor ends with white space. *)
Definition tight (s : jsstring) : Prop :=
  (∀ c s', s = c :: s' → isWhiteSpace c = false) ∧
  (∀ c s', s = s' ++ [c] → isWhiteSpace c = false).

(** An optional string used as a condition: [undefined] and the empty
    string are falsy. *)
Definition present (o : option jsstring) : option jsstring :=
  match o with
  | Some s => if truthy s then Some s else None
  | None => None
  end.

(** [a || b] where [a] may be [undefined] and [b] is a string. *)
Definition prop_or (o : option jsstring) (d : jsstring) : jsstring :=
  match present o with Some s => s | None => d end.

(** Canonicalisation of a code unit under the [i] flag (no [u] flag).
    A code unit outside ASCII never canonicalises to an ASCII one, so
    against the ASCII pattern of this program it is enough to fold
    [a]-[z] to [A]-[Z] and to leave every other unit alone. *)
Definition canonicalize (c : N) : N :=
  if ((97 <=? c) && (c <=? 122))%N then (c - 32)%N else c.

(** [Number.prototype.toString] on an integer: its decimal digits. *)
Definition numberToString (z : Z) : jsstring :=
  str (NilZero.string_of_int (Z.to_int z)).

(** [s.split(',')[0]]: the part before the first comma. *)
Fixpoint firstCommaSegment (s : jsstring) : jsstring :=
  match s with
  | c :: s' => if (c =? 44)%N then [] else c :: firstCommaSegment s'
  | [] => []
  end.

End Js.

(* ================================================================== *)
(** * A backtracking matcher for the regular expressions of the program *)
(* ================================================================== *)

Module Regex.
Import Js.

(** The fragment of the regular-expression syntax that
    [/(\s+|^)(near me|nearby|closest|near)(\s+|$)/gi] uses. *)
Inductive regex : Type :=
| RStart                       (* ^   (no m flag: start of input) *)
| REnd                         (* $   (no m flag: end of input)   *)
| RSpaces                      (* \s+ (greedy)                    *)
| RLit (w : jsstring)          (* a literal, under the i flag     *)
| RAlt (r1 r2 : regex)         (* r1|r2                           *)
| RSeq (r1 r2 : regex).        (* r1r2                            *)

(** [\s+] at the position [pos], where [s] is what is left of the input:
    take as many white-space units as there are, and give one back at a
    time for as long as the continuation [k] fails. *)
Fixpoint spaces {X} (pos : nat) (s : jsstring)
    (k : nat → jsstring → option X) : option X :=
  match s with
  | c :: s' =>
      if isWhiteSpace c then
        match spaces (S pos) s' k with
        | Some x => Some x
        | None => k (S pos) s'
        end
      else None
  | [] => None
  end.

(** The literal [w] as a prefix of [s], compared unit by unit after
    canonicalisation; the result is what follows it. *)
Fixpoint literal (w s : jsstring) : option jsstring :=
  match w, s with
  | [], _ => Some s
  | a :: w', c :: s' =>
      if (canonicalize a =? canonicalize c)%N then literal w' s' else None
  | _ :: _, [] => None
  end.

(** The matcher, in continuation-passing style as in the ECMAScript
    semantics: alternatives are tried left to right, and an alternative
    is abandoned when the rest of the pattern fails after it. *)
Fixpoint rmatch {X} (r : regex) (pos : nat) (s : jsstring)
    (k : nat → jsstring → option X) : option X :=
  match r with
  | RStart => if Nat.eqb pos 0 then k pos s else None
  | REnd => match s with [] => k pos s | _ :: _ => None end
  | RSpaces => spaces pos s k
  | RLit w =>
      match literal w s with
      | Some s' => k (pos + length w) s'
      | None => None
      end
  | RAlt r1 r2 =>
      match rmatch r1 pos s k with
      | Some x => Some x
      | None => rmatch r2 pos s k
      end
  | RSeq r1 r2 => rmatch r1 pos s (λ p s', rmatch r2 p s' k)
  end.

(** A match that starts at [pos]: the position after it and the rest of
    the input. *)
Definition matchAt (r : regex) (pos : nat) (s : jsstring)
    : option (nat * jsstring) :=
  rmatch r pos s (λ p s', Some (p, s')).

(** [String.prototype.replace] with a global regular expression and a
    constant replacement: the input is scanned from left to right; a
    match is replaced and the scan resumes after it (one unit further
    when the match is empty), an unmatched unit is copied. *)
Fixpoint replaceFrom (fuel : nat) (r : regex) (by_ : jsstring)
    (pos : nat) (s : jsstring) : jsstring :=
  match fuel with
  | O => s
  | S fuel' =>
      match matchAt r pos s with
      | Some (p, rest) =>
          if Nat.eqb p pos then
            match s with
            | [] => by_
            | c :: s' => by_ ++ c :: replaceFrom fuel' r by_ (S pos) s'
            end
          else by_ ++ replaceFrom fuel' r by_ p rest
      | None =>
          match s with
          | [] => []
          | c :: s' => c :: replaceFrom fuel' r by_ (S pos) s'
          end
      end
  end.

(** Every round of the scan consumes a unit, so [S (length s)] rounds
    reach the end of the input. *)
Definition replaceAll (r : regex) (by_ s : jsstring) : jsstring :=
  replaceFrom (S (length s)) r by_ 0 s.

End Regex.

(* ================================================================== *)
(** * types.ts *)
(* ================================================================== *)

Module Types.
Import Js.

Record Coordinate : Type := { lat : R; lng : R }.

Inductive PlaceCategory : Type :=
| Generic | Work | Home | Shop | Food | Health | Travel.

(** [notes?] and [listId?] are optional fields. *)
Record Place : Type := {
  id : jsstring;
  name : jsstring;
  location : Coordinate;
  category : PlaceCategory;
  radius : R;
  notes : option jsstring;
  isCompleted : bool;
  createdAt : Z;
  listId : option jsstring
}.

(** The fields [lat] and [lon] of a search result are strings. *)
Record SearchResult : Type := {
  place_id : R;
  result_lat : jsstring;
  result_lon : jsstring;
  display_name : jsstring;
  type_ : jsstring
}.

Record Alert : Type := {
  placeId : jsstring;
  message : jsstring;
  timestamp : Z
}.

End Types.

(* ================================================================== *)
(** * The platform *)
(* ================================================================== *)

(** Built-ins whose values the program only passes along. *)
Class Platform : Type := {
  (** [encodeURIComponent]; [None] when it throws a URIError. *)
  encodeURIComponent : list N → option (list N);
  (** [Number.prototype.toString] on a double. *)
  doubleToString : R → list N;
  (** [String.prototype.toUpperCase]. *)
  toUpperCase : list N → list N;
  (** [parseFloat]. *)
  parseFloat : list N → R;
  (** [Math.random()], one value for each feature of a response. *)
  mathRandom : nat → R;
  (** [process.env.API_KEY]. *)
  API_KEY : option (list N)
}.

(** A thrown value: an error object with its [name]. *)
Record JsError : Type := { err_name : list N; err_message : list N }.

(** How a promise settles. *)
Inductive Settled (A : Type) : Type :=
| Fulfilled (a : A)
| Rejected (e : JsError).
Arguments Fulfilled {A} a.
Arguments Rejected {A} e.

(** What the console receives. *)
Inductive LogEntry : Type :=
| ConsoleLog (msg : list N)
| ConsoleError (msg : list N) (e : JsError).

(* ================================================================== *)
(** * services/locationService.ts *)
(* ================================================================== *)

Module LocationService.
Import Js Regex Types.

Section Distance.
Local Open Scope R_scope.

(** [Math.atan2 y x]. *)
Definition atan2 (y x : R) : R :=
  if Rlt_dec 0 x then atan (y / x)
  else if Rlt_dec x 0 then
    (if Rle_dec 0 y then atan (y / x) + PI else atan (y / x) - PI)
  else if Rlt_dec 0 y then PI / 2
  else if Rlt_dec y 0 then - (PI / 2)
  else 0.

Definition calculateDistance (coord1 coord2 : Coordinate) : R :=
  let R_ := 6371000 in
  let lat1 := (lat coord1 * PI) / 180 in
  let lat2 := (lat coord2 * PI) / 180 in
  let dLat := ((lat coord2 - lat coord1) * PI) / 180 in
  let dLng := ((lng coord2 - lng coord1) * PI) / 180 in
  let a :=
    sin (dLat / 2) * sin (dLat / 2) +
    cos lat1 * cos lat2 * sin (dLng / 2) * sin (dLng / 2) in
  let c := 2 * atan2 (sqrt a) (sqrt (1 - a)) in
  R_ * c.
End Distance.

(** ** The primary search *)

(** [/(\s+|^)(near me|nearby|closest|near)(\s+|$)/gi] *)
Definition fillerPattern : regex :=
  RSeq (RAlt RSpaces RStart)
    (RSeq (RAlt (RLit (str "near me"))
            (RAlt (RLit (str "nearby"))
               (RAlt (RLit (str "closest")) (RLit (str "near")))))
       (RAlt RSpaces REnd)).

(** [query.replace(/.../gi, ' ').trim()] *)
Definition cleanQuery (query : jsstring) : jsstring :=
  trim (replaceAll fillerPattern (str " ") query).

(** A feature of the GeoJSON answer of the search provider. *)
Record Properties : Type := {
  prop_name : option jsstring;
  street : option jsstring;
  city : option jsstring;
  state : option jsstring;
  country : option jsstring;
  osm_key : option jsstring;
  osm_value : option jsstring;
  osm_id : option R
}.

Record Feature : Type := {
  properties : Properties;
  coordinates : list R
}.

(** [response.json()]: it throws on a malformed body; a body may lack
    the [features] array.  When the signal is aborted while the body is
    read, the promise rejects with the reason of the abort, which is
    [null] when the caller gave [null] ([JsonThrowsNull], which also
    stands for [undefined]). *)
Inductive JsonOutcome : Type :=
| JsonThrows (e : JsError)
| JsonThrowsNull
| JsonValue (features : option (list Feature)).

Record Response : Type := { ok : bool; json : JsonOutcome }.

(** [await fetch(url, { signal })]: the promise rejects on a network
    failure and on an abort of the signal, and resolves to a response
    otherwise.  An abort rejects with the reason that the caller gave
    to [abort]: an [AbortError] by default, any value otherwise;
    [FetchRejectsNull] is a rejection with [null] or [undefined], the
    values that have no property to read. *)
Inductive FetchOutcome : Type :=
| FetchRejects (e : JsError)
| FetchRejectsNull
| FetchResolves (r : Response).


Definition TypeError : JsError :=
  {| err_name := str "TypeError"; err_message := [] |}.
Definition URIError : JsError :=
  {| err_name := str "URIError"; err_message := [] |}.
Definition SearchFailed : JsError :=
  {| err_name := str "Error"; err_message := str "Search failed" |}.

(** [xs.join(', ')] *)
Fixpoint join (xs : list jsstring) : jsstring :=
  match xs with
  | [] => []
  | [x] => x
  | x :: xs' => x ++ str ", " ++ join xs'
  end.

Section Search.
Context `{Platform}.

(** The callback of [data.features.map]; [inl] is a thrown error. *)
Definition mapFeature (rnd : R) (feature : Feature)
    : JsError + SearchResult :=
  let props := properties feature in
  let name := prop_or (prop_name props) (prop_or (street props) (str "Unknown Place")) in
  let details :=
    join (filter (λ d, d ≠ name)
            (omap present [street props; city props; state props; country props])) in
  let type := prop_or (osm_value props) (prop_or (osm_key props) (str "place")) in
  match coordinates feature !! 1%nat, coordinates feature !! 0%nat with
  | Some c1, Some c0 =>
      inr {| place_id :=
               match osm_id props with
               | Some n => if Req_dec_T n 0 then rnd else n
               | None => rnd
               end;
             result_lat := doubleToString c1;
             result_lon := doubleToString c0;
             display_name :=
               if truthy details then name ++ str ", " ++ details else name;
             type_ := toUpperCase (take 1 type) ++ drop 1 type |}
  | _, _ => inl TypeError
  end.

Fixpoint mapFeatures (i : nat) (fs : list Feature)
    : JsError + list SearchResult :=
  match fs with
  | [] => inr []
  | f :: fs' =>
      match mapFeature (mathRandom i) f with
      | inl e => inl e
      | inr r =>
          match mapFeatures (S i) fs' with
          | inl e => inl e
          | inr rs => inr (r :: rs)
          end
      end
  end.

(** What one call of [searchPlaces] does: the requests it issues, what
    it logs, and how its promise settles. *)
Record SearchRun : Type := {
  requests : list jsstring;
  console : list LogEntry;
  outcome : Settled (list SearchResult)
}.

(** The [catch] clause. *)
Definition searchCatch (reqs : list jsstring) (error : JsError) : SearchRun :=
  {| requests := reqs;
     console :=
       if bool_decide (err_name error = str "AbortError")
       then [ConsoleLog (str "Search aborted")]
       else [ConsoleError (str "Error searching places:") error];
     outcome := Fulfilled [] |}.

(** The [catch] clause when the value caught is [null] or
    [undefined]: [error.name] throws a TypeError before anything is
    logged, and the promise of the function rejects with it. *)
Definition searchCatchNull (reqs : list jsstring) : SearchRun :=
  {| requests := reqs; console := []; outcome := Rejected TypeError |}.

(** [searchPlaces(query, userLocation, signal)], against a network
    that answers the request for [url] with [net url]. *)
Definition searchPlaces (net : jsstring → FetchOutcome)
    (query : jsstring) (userLocation : option Coordinate) : SearchRun :=
  let cleanedQuery := cleanQuery query in
  if negb (truthy cleanedQuery) then
    {| requests := []; console := []; outcome := Fulfilled [] |}
  else
    match encodeURIComponent cleanedQuery with
    | None => searchCatch [] URIError
    | Some q =>
        let url :=
          str "https://photon.komoot.io/api/?q=" ++ q ++ str "&limit=10&lang=en" in
        let url :=
          match userLocation with
          | Some u =>
              url ++ str "&lat=" ++ doubleToString (lat u)
                  ++ str "&lon=" ++ doubleToString (lng u)
          | None => url
          end in
        match net url with
        | FetchRejects e => searchCatch [url] e
        | FetchRejectsNull => searchCatchNull [url]
        | FetchResolves response =>
            if negb (ok response) then searchCatch [url] SearchFailed
            else
              match json response with
              | JsonThrows e => searchCatch [url] e
              | JsonThrowsNull => searchCatchNull [url]
              | JsonValue None => searchCatch [url] TypeError
              | JsonValue (Some features) =>
                  match mapFeatures 0 features with
                  | inl e => searchCatch [url] e
                  | inr results =>
                      {| requests := [url]; console := [];
                         outcome := Fulfilled results |}
                  end
              end
        end
    end.
End Search.

End LocationService.

(* ================================================================== *)
(** * services/geminiService.ts *)
(* ================================================================== *)

Module GeminiService.
Import Js Types.

(** The value of [JSON.parse(text)] under the cast
    [as { category; suggestedNote }].  The cast checks nothing: the
    note is [None] when the parsed object has no [suggestedNote], and
    it is stored as it is.  The category is taken to be one of the
    enumeration, as the response schema requires and as the type of
    [Place.category] (which has no absent value) needs. *)
Record Suggestion : Type := {
  suggestedCategory : PlaceCategory;
  suggestedNote : option jsstring
}.

(** [await ai.models.generateContent(...)]: the call rejects, or it
    resolves to a response whose [text] may be missing. *)
Inductive GenerateOutcome : Type :=
| GenerateRejects (e : JsError)
| GenerateResolves (text : option jsstring).

(** The prompt built from the place name. *)
Definition prompt (placeName : jsstring) : jsstring :=
  str "I am adding a location bookmark named " ++ [34%N] ++ placeName ++ [34%N]
    ++ str " to my map app. " ++ [10%N]
    ++ str "      Please suggest a category from this list: [Generic, Work, Home, Shop, Food, Health, Travel]"
    ++ [10%N]
    ++ str "      and a short, helpful default note for this place (max 10 words)."
    ++ [10%N]
    ++ str "      Return JSON.".

(** The value of the [catch] clause. *)
Definition fallback : Suggestion :=
  {| suggestedCategory := Generic; suggestedNote := Some [] |}.

Section Suggest.
(** [JSON.parse(text) as { category; suggestedNote }]: a SyntaxError
    ([inl]), or the parsed value, [None] when it is [null]. *)
Variable JSON_parse : jsstring → JsError + option Suggestion.

(** [suggestCategoryAndNotes(placeName)] against a model that answers
    the prompt [q] with [generateContent q]: what is logged and the
    value of the promise. *)
Definition suggestCategoryAndNotes
    (generateContent : jsstring → GenerateOutcome) (placeName : jsstring)
    : list LogEntry * Settled (option Suggestion) :=
  match generateContent (prompt placeName) with
  | GenerateRejects error =>
      ([ConsoleError (str "Gemini AI Error:") error], Fulfilled (Some fallback))
  | GenerateResolves text =>
      match text with
      | Some (c :: t) =>
          match JSON_parse (c :: t) with
          | inl error =>
              ([ConsoleError (str "Gemini AI Error:") error],
               Fulfilled (Some fallback))
          | inr v => ([], Fulfilled v)
          end
      | Some [] | None => ([], Fulfilled None)
      end
  end.
End Suggest.

End GeminiService.

(* ================================================================== *)
(** * App.tsx *)
(* ================================================================== *)

Module App.
Import Js Types LocationService GeminiService.

(** constants.ts *)
Definition PROXIMITY_THRESHOLD_METERS : R := 200.

(** The [useState] cells of the component that decide what the handlers
    and the proximity check do.  (The flags [isLoadingLocation] and
    [isSearching] and the edit buffers of the details panel only drive
    the rendering.) *)
Record AppState : Type := {
  places : list Place;
  userLocation : option Coordinate;
  searchResults : list SearchResult;
  activeAlerts : list Alert;
  alertedPlaceIds : gset jsstring;
  snoozedPlaceIds : gmap jsstring Z;
  selectedPlaceId : option jsstring;
  draftLocation : option Coordinate;
  draftName : jsstring;
  draftNote : jsstring
}.

Definition initialState : AppState :=
  {| places := []; userLocation := None; searchResults := [];
     activeAlerts := []; alertedPlaceIds := ∅; snoozedPlaceIds := ∅;
     selectedPlaceId := None; draftLocation := None;
     draftName := []; draftNote := [] |}.

(** ** State setters, in their functional form [setX(prev => f prev)] *)

Definition setPlaces (f : list Place → list Place) (st : AppState) : AppState :=
  {| places := f (places st); userLocation := userLocation st;
     searchResults := searchResults st; activeAlerts := activeAlerts st;
     alertedPlaceIds := alertedPlaceIds st; snoozedPlaceIds := snoozedPlaceIds st;
     selectedPlaceId := selectedPlaceId st; draftLocation := draftLocation st;
     draftName := draftName st; draftNote := draftNote st |}.

Definition setUserLocation (v : option Coordinate) (st : AppState) : AppState :=
  {| places := places st; userLocation := v;
     searchResults := searchResults st; activeAlerts := activeAlerts st;
     alertedPlaceIds := alertedPlaceIds st; snoozedPlaceIds := snoozedPlaceIds st;
     selectedPlaceId := selectedPlaceId st; draftLocation := draftLocation st;
     draftName := draftName st; draftNote := draftNote st |}.

Definition setSearchResults (v : list SearchResult) (st : AppState) : AppState :=
  {| places := places st; userLocation := userLocation st;
     searchResults := v; activeAlerts := activeAlerts st;
     alertedPlaceIds := alertedPlaceIds st; snoozedPlaceIds := snoozedPlaceIds st;
     selectedPlaceId := selectedPlaceId st; draftLocation := draftLocation st;
     draftName := draftName st; draftNote := draftNote st |}.

Definition setActiveAlerts (f : list Alert → list Alert) (st : AppState) : AppState :=
  {| places := places st; userLocation := userLocation st;
     searchResults := searchResults st; activeAlerts := f (activeAlerts st);
     alertedPlaceIds := alertedPlaceIds st; snoozedPlaceIds := snoozedPlaceIds st;
     selectedPlaceId := selectedPlaceId st; draftLocation := draftLocation st;
     draftName := draftName st; draftNote := draftNote st |}.

Definition setAlertedPlaceIds (f : gset jsstring → gset jsstring) (st : AppState)
    : AppState :=
  {| places := places st; userLocation := userLocation st;
     searchResults := searchResults st; activeAlerts := activeAlerts st;
     alertedPlaceIds := f (alertedPlaceIds st); snoozedPlaceIds := snoozedPlaceIds st;
     selectedPlaceId := selectedPlaceId st; draftLocation := draftLocation st;
     draftName := draftName st; draftNote := draftNote st |}.

Definition setSnoozedPlaceIds (f : gmap jsstring Z → gmap jsstring Z) (st : AppState)
    : AppState :=
  {| places := places st; userLocation := userLocation st;
     searchResults := searchResults st; activeAlerts := activeAlerts st;
     alertedPlaceIds := alertedPlaceIds st; snoozedPlaceIds := f (snoozedPlaceIds st);
     selectedPlaceId := selectedPlaceId st; draftLocation := draftLocation st;
     draftName := draftName st; draftNote := draftNote st |}.

Definition setSelectedPlaceId (v : option jsstring) (st : AppState) : AppState :=
  {| places := places st; userLocation := userLocation st;
     searchResults := searchResults st; activeAlerts := activeAlerts st;
     alertedPlaceIds := alertedPlaceIds st; snoozedPlaceIds := snoozedPlaceIds st;
     selectedPlaceId := v; draftLocation := draftLocation st;
     draftName := draftName st; draftNote := draftNote st |}.

Definition setDraftLocation (v : option Coordinate) (st : AppState) : AppState :=
  {| places := places st; userLocation := userLocation st;
     searchResults := searchResults st; activeAlerts := activeAlerts st;
     alertedPlaceIds := alertedPlaceIds st; snoozedPlaceIds := snoozedPlaceIds st;
     selectedPlaceId := selectedPlaceId st; draftLocation := v;
     draftName := draftName st; draftNote := draftNote st |}.

Definition setDraftName (v : jsstring) (st : AppState) : AppState :=
  {| places := places st; userLocation := userLocation st;
     searchResults := searchResults st; activeAlerts := activeAlerts st;
     alertedPlaceIds := alertedPlaceIds st; snoozedPlaceIds := snoozedPlaceIds st;
     selectedPlaceId := selectedPlaceId st; draftLocation := draftLocation st;
     draftName := v; draftNote := draftNote st |}.

Definition setDraftNote (v : jsstring) (st : AppState) : AppState :=
  {| places := places st; userLocation := userLocation st;
     searchResults := searchResults st; activeAlerts := activeAlerts st;
     alertedPlaceIds := alertedPlaceIds st; snoozedPlaceIds := snoozedPlaceIds st;
     selectedPlaceId := selectedPlaceId st; draftLocation := draftLocation st;
     draftName := draftName st; draftNote := v |}.

(** ** Updates of one place: [{ ...p, field: value }] *)

Definition withLocation (newLocation : Coordinate) (p : Place) : Place :=
  {| id := id p; name := name p; location := newLocation;
     category := category p; radius := radius p; notes := notes p;
     isCompleted := isCompleted p; createdAt := createdAt p; listId := listId p |}.

Definition withIsCompleted (b : bool) (p : Place) : Place :=
  {| id := id p; name := name p; location := location p;
     category := category p; radius := radius p; notes := notes p;
     isCompleted := b; createdAt := createdAt p; listId := listId p |}.

Definition withCategoryAndNotes (c : PlaceCategory) (n : option jsstring)
    (p : Place) : Place :=
  {| id := id p; name := name p; location := location p;
     category := c; radius := radius p; notes := n;
     isCompleted := isCompleted p; createdAt := createdAt p; listId := listId p |}.

(** [Partial<Place>]: the fields that an update carries. *)
Record PlaceUpdates : Type := {
  upd_id : option jsstring;
  upd_name : option jsstring;
  upd_location : option Coordinate;
  upd_category : option PlaceCategory;
  upd_radius : option R;
  upd_notes : option jsstring;
  upd_isCompleted : option bool;
  upd_createdAt : option Z;
  upd_listId : option jsstring
}.

Definition noUpdates : PlaceUpdates :=
  {| upd_id := None; upd_name := None; upd_location := None;
     upd_category := None; upd_radius := None; upd_notes := None;
     upd_isCompleted := None; upd_createdAt := None; upd_listId := None |}.

(** [{ ...p, ...updates }] *)
Definition withUpdates (updates : PlaceUpdates) (p : Place) : Place :=
  {| id := default (id p) (upd_id updates);
     name := default (name p) (upd_name updates);
     location := default (location p) (upd_location updates);
     category := default (category p) (upd_category updates);
     radius := default (radius p) (upd_radius updates);
     notes := match upd_notes updates with Some n => Some n | None => notes p end;
     isCompleted := default (isCompleted p) (upd_isCompleted updates);
     createdAt := default (createdAt p) (upd_createdAt updates);
     listId := match upd_listId updates with Some l => Some l | None => listId p end |}.

(** ** The proximity check (the second [useEffect]) *)

(** [distance <= place.radius] *)
Definition isInside (userLoc : Coordinate) (place : Place) : bool :=
  if Rle_dec (calculateDistance userLoc (location place)) (radius place)
  then true else false.

(** [snoozeExpiry && snoozeExpiry > now]: a missing entry and the number
    0 are falsy. *)
Definition isSnoozed (snoozed : gmap jsstring Z) (pid : jsstring) (now : Z) : bool :=
  match snoozed !! pid with
  | Some snoozeExpiry => negb (snoozeExpiry =? 0)%Z && (now <? snoozeExpiry)%Z
  | None => false
  end.

(** [activeAlerts.some(a => a.placeId === place.id)] *)
Definition alertActive (alerts : list Alert) (pid : jsstring) : bool :=
  existsb (λ a, bool_decide (placeId a = pid)) alerts.

(** The body of [places.forEach].  The conditions read [snap], the state
    that the effect closed over; the setters act on [pending], the state
    that the updates queued so far have produced.  ([playAlertSound]
    only drives the audio, speech and notification channels.) *)
Definition checkPlace (now : Z) (userLoc : Coordinate) (snap pending : AppState)
    (place : Place) : AppState :=
  if isCompleted place then pending
  else if isInside userLoc place then
    if isSnoozed (snoozedPlaceIds snap) (id place) now then pending
    else
      let hasAlertedThisSession := bool_decide (id place ∈ alertedPlaceIds snap) in
      let isAlertActive := alertActive (activeAlerts snap) (id place) in
      if negb hasAlertedThisSession && negb isAlertActive then
        let message := str "You are near " ++ name place ++ str "!" in
        setAlertedPlaceIds (λ prev, prev ∪ {[id place]})
          (setActiveAlerts
             (λ prev, prev ++ [{| placeId := id place; message := message;
                                  timestamp := now |}])
             pending)
      else pending
  else if bool_decide (id place ∈ alertedPlaceIds snap) then
    setAlertedPlaceIds (λ prev, prev ∖ {[id place]}) pending
  else pending.

(** One run of the effect at the time [now]. *)
Definition proximityCheck (now : Z) (st : AppState) : AppState :=
  match userLocation st with
  | None => st
  | Some userLoc => fold_left (checkPlace now userLoc st) (places st) st
  end.

(** ** Handlers *)

(** The background request that [handleAddPlace] starts: the name sent
    to the model, and the [id] and [initialNote] that its callback
    closes over. *)
Record Enrichment : Type := {
  enrichedName : jsstring;
  enrichedId : jsstring;
  initialNote : jsstring
}.

(** The identifier that [handleAddPlace] returns, the request that it
    starts when an API key is configured, and the state it leaves. *)
Record Added : Type := {
  newId : jsstring;
  enrichment : option Enrichment;
  after : AppState
}.

Section Handlers.
Context `{Platform}.

Definition handleSearch (net : jsstring → FetchOutcome) (query : jsstring)
    (st : AppState) : AppState :=
  match outcome (searchPlaces net query (userLocation st)) with
  | Fulfilled results => setSearchResults results st
  | Rejected _ => st
  end.

(** [tId] and [tCreated] are the two readings of [Date.now()]. *)
Definition handleAddPlace (tId tCreated : Z) (loc : Coordinate) (nm : jsstring)
    (userNotes givenId : option jsstring) (st : AppState) : Added :=
  let id_ := prop_or givenId (numberToString tId) in
  let initialNote_ := prop_or userNotes [] in
  let newPlace :=
    {| id := id_; name := nm; location := loc; category := Generic;
       radius := PROXIMITY_THRESHOLD_METERS; notes := Some initialNote_;
       isCompleted := false; createdAt := tCreated; listId := None |} in
  {| newId := id_;
     enrichment :=
       match present API_KEY with
       | Some _ =>
           Some {| enrichedName := nm; enrichedId := id_;
                   initialNote := initialNote_ |}
       | None => None
       end;
     after := setPlaces (λ prev, newPlace :: prev) st |}.

(** The callback of [suggestCategoryAndNotes(name).then]. *)
Definition applyEnhancement (e : Enrichment) (enhancement : option Suggestion)
    (st : AppState) : AppState :=
  match enhancement with
  | Some enh =>
      setPlaces
        (map (λ p,
           if bool_decide (id p = enrichedId e) then
             withCategoryAndNotes (suggestedCategory enh)
               (if truthy (initialNote e) then Some (initialNote e)
                else suggestedNote enh) p
           else p))
        st
  | None => st
  end.

(** [.then(...).catch(err => console.error(...))] *)
Definition enrichmentSettled (e : Enrichment)
    (r : Settled (option Suggestion)) (st : AppState) : AppState :=
  match r with
  | Fulfilled enhancement => applyEnhancement e enhancement st
  | Rejected _ => st
  end.

Definition handleSearchResultClick (tId tCreated : Z) (result : SearchResult)
    (st : AppState) : Added :=
  let lat_ := parseFloat (result_lat result) in
  let lng_ := parseFloat (result_lon result) in
  let newId_ := numberToString tId in
  let added :=
    handleAddPlace tId tCreated {| lat := lat_; lng := lng_ |}
      (firstCommaSegment (display_name result)) None (Some newId_) st in
  {| newId := newId added; enrichment := enrichment added;
     after := setSelectedPlaceId (Some newId_) (setSearchResults [] (after added)) |}.

Definition handleMapClick (coord : Coordinate) (st : AppState) : AppState :=
  setSelectedPlaceId None
    (setDraftNote [] (setDraftName [] (setDraftLocation (Some coord) st))).

Definition clearDraft (st : AppState) : AppState :=
  setDraftNote [] (setDraftName [] (setDraftLocation None st)).

(** [None] stands for the early return, when no draft is open. *)
Definition handleConfirmDraft (tId tCreated : Z) (st : AppState)
    : option Added :=
  match draftLocation st with
  | None => None
  | Some loc =>
      let nm := or_else (trim (draftName st)) (str "New Place") in
      let note := trim (draftNote st) in
      let added := handleAddPlace tId tCreated loc nm (Some note) None (clearDraft st) in
      Some {| newId := newId added; enrichment := enrichment added;
              after := setSelectedPlaceId (Some (newId added)) (after added) |}
  end.

(** The state after [handleConfirmDraft]. *)
Definition confirmDraft (tId tCreated : Z) (st : AppState) : AppState :=
  match handleConfirmDraft tId tCreated st with
  | Some added => after added
  | None => st
  end.

Definition handleCancelDraft (st : AppState) : AppState := clearDraft st.

Definition handlePlaceMove (pid : jsstring) (newLocation : Coordinate)
    (st : AppState) : AppState :=
  setActiveAlerts (filter (λ a, placeId a ≠ pid))
    (setSnoozedPlaceIds (delete pid)
       (setAlertedPlaceIds (λ prev, prev ∖ {[pid]})
          (setPlaces
             (map (λ p, if bool_decide (id p = pid)
                        then withLocation newLocation p else p))
             st))).

Definition handleDraftMove (newLocation : Coordinate) (st : AppState) : AppState :=
  setDraftLocation (Some newLocation) st.

Definition handleToggleTask (pid : jsstring) (st : AppState) : AppState :=
  setPlaces
    (map (λ p, if bool_decide (id p = pid)
               then withIsCompleted (negb (isCompleted p)) p else p))
    st.

Definition handleDeleteTask (pid : jsstring) (st : AppState) : AppState :=
  let st' := setPlaces (filter (λ p, id p ≠ pid)) st in
  if bool_decide (selectedPlaceId st = Some pid)
  then setSelectedPlaceId None st' else st'.

Definition handleUpdatePlace (pid : jsstring) (updates : PlaceUpdates)
    (st : AppState) : AppState :=
  setPlaces
    (map (λ p, if bool_decide (id p = pid) then withUpdates updates p else p))
    st.

Definition handleDismissAlert (pid : jsstring) (st : AppState) : AppState :=
  setActiveAlerts (filter (λ a, placeId a ≠ pid)) st.

Definition SNOOZE_DURATION : Z := 5 * 60 * 1000.

Definition handleSnoozeAlert (now : Z) (pid : jsstring) (st : AppState)
    : AppState :=
  setAlertedPlaceIds (λ prev, prev ∖ {[pid]})
    (setActiveAlerts (filter (λ a, placeId a ≠ pid))
       (setSnoozedPlaceIds (<[pid := (now + SNOOZE_DURATION)%Z]>) st)).

(** ** The component as a transition system *)

(** What can happen to the mounted component: a callback of the
    location watch, a run of the proximity effect, a user action
    through the map, the sidebar or a panel, the completion of a
    background request. *)
Inductive Event : Type :=
| EvLocation (c : Coordinate)
| EvProximity (now : Z)
| EvSearch (net : jsstring → FetchOutcome) (query : jsstring)
| EvSearchResultClick (tId tCreated : Z) (result : SearchResult)
| EvMapClick (c : Coordinate)
| EvDraftName (v : jsstring)
| EvDraftNote (v : jsstring)
| EvConfirmDraft (tId tCreated : Z)
| EvCancelDraft
| EvPlaceMove (pid : jsstring) (c : Coordinate)
| EvDraftMove (c : Coordinate)
| EvToggleTask (pid : jsstring)
| EvDeleteTask (pid : jsstring)
| EvUpdateName (pid : jsstring) (v : jsstring)
| EvUpdateRadius (pid : jsstring) (v : R)
| EvUpdateNotes (pid : jsstring) (v : jsstring)
| EvDismissAlert (pid : jsstring)
| EvSnoozeAlert (now : Z) (pid : jsstring)
| EvSelect (sel : option jsstring)
| EvEnrichment (e : Enrichment) (r : Settled (option Suggestion)).

Definition handle (ev : Event) (st : AppState) : AppState :=
  match ev with
  | EvLocation c => setUserLocation (Some c) st
  | EvProximity now => proximityCheck now st
  | EvSearch net query => handleSearch net query st
  | EvSearchResultClick tId tCreated result =>
      after (handleSearchResultClick tId tCreated result st)
  | EvMapClick c => handleMapClick c st
  | EvDraftName v => setDraftName v st
  | EvDraftNote v => setDraftNote v st
  | EvConfirmDraft tId tCreated => confirmDraft tId tCreated st
  | EvCancelDraft => handleCancelDraft st
  | EvPlaceMove pid c => handlePlaceMove pid c st
  | EvDraftMove c => handleDraftMove c st
  | EvToggleTask pid => handleToggleTask pid st
  | EvDeleteTask pid => handleDeleteTask pid st
  | EvUpdateName pid v =>
      handleUpdatePlace pid
        {| upd_id := None; upd_name := Some v; upd_location := None;
           upd_category := None; upd_radius := None; upd_notes := None;
           upd_isCompleted := None; upd_createdAt := None; upd_listId := None |} st
  | EvUpdateRadius pid v =>
      handleUpdatePlace pid
        {| upd_id := None; upd_name := None; upd_location := None;
           upd_category := None; upd_radius := Some v; upd_notes := None;
           upd_isCompleted := None; upd_createdAt := None; upd_listId := None |} st
  | EvUpdateNotes pid v =>
      handleUpdatePlace pid
        {| upd_id := None; upd_name := None; upd_location := None;
           upd_category := None; upd_radius := None; upd_notes := Some v;
           upd_isCompleted := None; upd_createdAt := None; upd_listId := None |} st
  | EvDismissAlert pid => handleDismissAlert pid st
  | EvSnoozeAlert now pid => handleSnoozeAlert now pid st
  | EvSelect sel => setSelectedPlaceId sel st
  | EvEnrichment e r => enrichmentSettled e r st
  end.

Definition run (evs : list Event) (st : AppState) : AppState :=
  fold_left (λ st' ev, handle ev st') evs st.

(** The identifiers of the collection. *)
Definition placeIds (st : AppState) : list jsstring := map id (places st).

(** Identifiers are unique (the data model): a creation happens at a
    reading of the clock whose decimal form is not the identifier of a
    place of the collection. *)
Definition admissible (ev : Event) (st : AppState) : Prop :=
  match ev with
  | EvSearchResultClick tId _ _ => numberToString tId ∉ placeIds st
  | EvConfirmDraft tId _ => numberToString tId ∉ placeIds st
  | _ => True
  end.

Inductive reachable : AppState → Prop :=
| reachable_init : reachable initialState
| reachable_step ev st :
    reachable st → admissible ev st → reachable (handle ev st).

(** The user actions that take the alerts of [pid] off the list. *)
Definition removesAlertsOf (pid : jsstring) (ev : Event) : Prop :=
  match ev with
  | EvDismissAlert q | EvSnoozeAlert _ q | EvPlaceMove q _ => q = pid
  | _ => False
  end.

(** What a run of the effect leaves alone. *)
Definition sameFrame (st st' : AppState) : Prop :=
  places st' = places st ∧ userLocation st' = userLocation st ∧
  searchResults st' = searchResults st ∧
  snoozedPlaceIds st' = snoozedPlaceIds st ∧
  selectedPlaceId st' = selectedPlaceId st ∧
  draftLocation st' = draftLocation st ∧
  draftName st' = draftName st ∧ draftNote st' = draftNote st.

(** ** Alerts created *)

(** The alerts that a run of the effect appends to the list. *)
Definition created (now : Z) (st : AppState) : list Alert :=
  drop (length (activeAlerts st)) (activeAlerts (proximityCheck now st)).

Definition createdBy (ev : Event) (st : AppState) : list Alert :=
  match ev with
  | EvProximity now => created now st
  | _ => []
  end.

(** The alerts created along a sequence of events. *)
Fixpoint createdDuring (evs : list Event) (st : AppState) : list Alert :=
  match evs with
  | [] => []
  | ev :: evs' => createdBy ev st ++ createdDuring evs' (handle ev st)
  end.

(** The condition under which [checkPlace] creates an alert. *)
Definition fires (now : Z) (userLoc : Coordinate) (snap : AppState)
    (place : Place) : bool :=
  negb (isCompleted place) && isInside userLoc place
  && negb (isSnoozed (snoozedPlaceIds snap) (id place) now)
  && negb (bool_decide (id place ∈ alertedPlaceIds snap))
  && negb (alertActive (activeAlerts snap) (id place)).

(** The condition under which it takes the place out of the
    alerted-this-entry set. *)
Definition clears (userLoc : Coordinate) (snap : AppState) (place : Place) : bool :=
  negb (isCompleted place) && negb (isInside userLoc place)
  && bool_decide (id place ∈ alertedPlaceIds snap).

(** The alert that it creates. *)
Definition alertOf (now : Z) (place : Place) : Alert :=
  {| placeId := id place;
     message := str "You are near " ++ name place ++ str "!";
     timestamp := now |}.

(** The alerts of a list that belong to the place [pid]. *)
Definition alertsFor (pid : jsstring) (alerts : list Alert) : list Alert :=
  filter (λ a, placeId a = pid) alerts.

(** The user is at [c] when the effect runs at the time [t]. *)
Definition evaluation (ct : Coordinate * Z) : list Event :=
  [EvLocation (fst ct); EvProximity (snd ct)].

Definition evaluations (cts : list (Coordinate * Z)) : list Event :=
  concat (map evaluation cts).

(** The state after one evaluation. *)
Definition evalAt (ct : Coordinate * Z) (st : AppState) : AppState :=
  proximityCheck (snd ct) (setUserLocation (Some (fst ct)) st).

(** What holds of the place [pid] of [st] from its snooze at the time
    [T] until the expiry. *)
Definition snoozedQuiet (T : Z) (pid : jsstring) (st s : AppState) : Prop :=
  snoozedPlaceIds s !! pid = Some (T + 300000)%Z ∧
  (pid ∉ alertedPlaceIds s) ∧
  alertsFor pid (activeAlerts s) = [] ∧
  places s = places st.

(** A continuous stay inside the radius of the place [pid] along a
    sequence of events: whenever the effect runs, the user is inside
    the radius of every non-completed place with that identifier, and
    no event snoozes or moves the place. *)
Fixpoint staysInside (pid : jsstring) (evs : list Event) (st : AppState) : Prop :=
  match evs with
  | [] => True
  | ev :: evs' =>
      match ev with
      | EvProximity _ =>
          ∀ u q, userLocation st = Some u → q ∈ places st → id q = pid →
            isCompleted q = false → isInside u q = true
      | EvSnoozeAlert _ q | EvPlaceMove q _ => q ≠ pid
      | _ => True
      end
      ∧ staysInside pid evs' (handle ev st)
  end.

(** What every place of the collection looks like: it belongs to no
    list and its identifier is the decimal form of a reading of the
    clock. *)
Definition identified (p : Place) : Prop :=
  listId p = None ∧ ∃ t, id p = numberToString t.

(** The event writes notes that are present: every event does, but
    the enrichment that stores the note of a suggestion (the place
    was created without notes) when the suggestion has none. *)
Definition storesNote (ev : Event) : Prop :=
  match ev with
  | EvEnrichment e (Fulfilled (Some s)) =>
      initialNote e ≠ [] ∨ suggestedNote s ≠ None
  | _ => True
  end.

(** Unique identifiers, of places and of active alerts. *)
Definition uniqueIds (st : AppState) : Prop :=
  NoDup (placeIds st) ∧ NoDup (map placeId (activeAlerts st)).
End Handlers.

End App.

(* ================================================================== *)
(** * A small session *)
(* ================================================================== *)

Module Scenario.
Import Js Types LocationService GeminiService App.

(** A platform to run the handlers on. *)
Definition platform : Platform :=
  {| encodeURIComponent := λ s, Some s;
     doubleToString := λ _, [];
     toUpperCase := λ s, s;
     parseFloat := λ _, 0%R;
     mathRandom := λ _, 0%R;
     API_KEY := Some (str "key") |}.

Definition origin : Coordinate := {| lat := 0; lng := 0 |}.
Definition degreeEast : Coordinate := {| lat := 0; lng := 1 |}.

(** The user drops a pin at the origin, names it and confirms. *)
Definition session : list Event :=
  [EvMapClick origin; EvDraftName (str "  Cafe "); EvConfirmDraft 1700000000000 1700000000001].

Definition withCafe : AppState := run (H := platform) session initialState.

Definition cafe : Place :=
  {| id := str "1700000000000"; name := str "Cafe"; location := origin;
     category := Generic; radius := 200; notes := Some [];
     isCompleted := false; createdAt := 1700000000001; listId := None |}.

(** The user is at the pin and the effect has run once. *)
Definition alerted : AppState :=
  run (H := platform) (evaluation (origin, 1700000005000%Z)) withCafe.

Definition AbortError : JsError :=
  {| err_name := str "AbortError"; err_message := [] |}.

End Scenario.

(* ================================================================== *)
(** * services/geminiService.ts: the itinerary *)
(* ================================================================== *)

Module GeminiItinerary.
Import Js Types LocationService GeminiService.

(** An element of the argument [places]. *)
Record NamedPlace : Type := { np_name : jsstring; np_id : jsstring }.

(** The prompt built from the current location and the place names. *)
Definition itineraryPrompt (currentLocationName : jsstring)
    (places : list NamedPlace) : jsstring :=
  let placeList := join (map np_name places) in
  str "I am at " ++ currentLocationName
    ++ str ". I need to visit these places: " ++ placeList ++ str "." ++ [10%N]
    ++ str "      Order them in the most logical order to visit starting from my location."
    ++ [10%N]
    ++ str "      Return a JSON object with an array of the original place names in the optimized order.".

Section Optimize.
(** The values of [JSON.parse]. *)
Variable Json : Type.
(** [JSON.parse(text)]: a SyntaxError ([inl]) or the parsed value,
    [None] when it is [null]. *)
Variable JSON_parse : jsstring → JsError + option Json.

(** [optimizeItineraryRoute(currentLocationName, places)]: what is
    logged and the value of the promise. *)
Definition optimizeItineraryRoute
    (generateContent : jsstring → GenerateOutcome)
    (currentLocationName : jsstring) (places : list NamedPlace)
    : list LogEntry * Settled (option Json) :=
  match generateContent (itineraryPrompt currentLocationName places) with
  | GenerateRejects error =>
      ([ConsoleError (str "Gemini AI Error:") error], Fulfilled None)
  | GenerateResolves text =>
      match text with
      | Some (c :: t) =>
          match JSON_parse (c :: t) with
          | inl error =>
              ([ConsoleError (str "Gemini AI Error:") error], Fulfilled None)
          | inr v => ([], Fulfilled v)
          end
      | Some [] | None => ([], Fulfilled None)
      end
  end.
End Optimize.

End GeminiItinerary.

(* ================================================================== *)
(** * services/locationService.ts: the address search *)
(* ================================================================== *)

Module AddressSearch.
Import Js Types LocationService.

(** [xs.join(',')] *)
Fixpoint joinComma (xs : list jsstring) : jsstring :=
  match xs with
  | [] => []
  | [x] => x
  | x :: xs' => x ++ str "," ++ joinComma xs'
  end.

Section Search.
Context `{Platform}.
(** The values of [response.json()]. *)
Variable Json : Type.

Inductive BodyOutcome : Type :=
| BodyThrows (e : JsError)
| BodyValue (data : Json).

Record AddressResponse : Type := { addr_ok : bool; addr_json : BodyOutcome }.

Inductive AddressFetch : Type :=
| AddressRejects (e : JsError)
| AddressResolves (r : AddressResponse).

(** What the function returns: the provider's JSON, or [[]]. *)
Inductive AddressData : Type :=
| ProviderData (data : Json)
| EmptyArray.

Record AddressRun : Type := {
  addr_requests : list jsstring;
  addr_console : list LogEntry;
  addr_outcome : Settled AddressData
}.

Definition addressCatch (reqs : list jsstring) (error : JsError) : AddressRun :=
  {| addr_requests := reqs;
     addr_console := [ConsoleError (str "Error searching places:") error];
     addr_outcome := Fulfilled EmptyArray |}.

(** [searchPlaces(query, userLocation)] of the address-oriented
    service, against a network that answers the request for [url]
    with [net url]. *)
Definition searchPlaces (net : jsstring → AddressFetch)
    (query : jsstring) (userLocation : option Coordinate) : AddressRun :=
  match encodeURIComponent query with
  | None => addressCatch [] URIError
  | Some q =>
      let url :=
        str "https://nominatim.openstreetmap.org/search?format=json&q=" ++ q
          ++ str "&limit=10&addressdetails=1" in
      let url :=
        match userLocation with
        | Some u =>
            let offset := (1 / 2)%R in
            let viewbox :=
              joinComma
                [doubleToString (lng u - offset)%R;
                 doubleToString (lat u + offset)%R;
                 doubleToString (lng u + offset)%R;
                 doubleToString (lat u - offset)%R] in
            url ++ str "&viewbox=" ++ viewbox ++ str "&bounded=0"
        | None => url
        end in
      match net url with
      | AddressRejects e => addressCatch [url] e
      | AddressResolves response =>
          if negb (addr_ok response) then addressCatch [url] SearchFailed
          else
            match addr_json response with
            | BodyThrows e => addressCatch [url] e
            | BodyValue data =>
                {| addr_requests := [url]; addr_console := [];
                   addr_outcome := Fulfilled (ProviderData data) |}
            end
      end
  end.
End Search.

End AddressSearch.

(* ================================================================== *)
(** * App.tsx: the location watch (the first [useEffect]) *)
(* ================================================================== *)

Module LocationWatch.
Import Js Types.

(** The part of the component and of the platform that the effect
    touches.  [registered] holds the watches that the platform still
    serves, each with the [enableHighAccuracy] that its callbacks
    closed over; [nextWatchId] counts the calls of [watchPosition]. *)
Record Watcher : Type := {
  hasGeolocation : bool;
  registered : list (nat * bool);
  nextWatchId : nat;
  watchId : option nat;
  watchedLocation : option Coordinate;
  isLoadingLocation : bool
}.

(** The component before the effect has run. *)
Definition unmounted (geolocation : bool) : Watcher :=
  {| hasGeolocation := geolocation; registered := []; nextWatchId := 0;
     watchId := None; watchedLocation := None; isLoadingLocation := true |}.

(** [navigator.geolocation.clearWatch(i)] *)
Definition clearWatch (i : nat) (ws : list (nat * bool)) : list (nat * bool) :=
  filter (λ w, fst w ≠ i) ws.

Definition startWatcher (enableHighAccuracy : bool) (w : Watcher) : Watcher :=
  if negb (hasGeolocation w) then w
  else
    let ws :=
      match watchId w with
      | Some i => clearWatch i (registered w)
      | None => registered w
      end in
    {| hasGeolocation := hasGeolocation w;
       registered := ws ++ [(nextWatchId w, enableHighAccuracy)];
       nextWatchId := S (nextWatchId w);
       watchId := Some (nextWatchId w);
       watchedLocation := watchedLocation w;
       isLoadingLocation := isLoadingLocation w |}.

(** [setUserLocation(loc); setIsLoadingLocation(false)] *)
Definition located (loc : Coordinate) (w : Watcher) : Watcher :=
  {| hasGeolocation := hasGeolocation w; registered := registered w;
     nextWatchId := nextWatchId w; watchId := watchId w;
     watchedLocation := Some loc; isLoadingLocation := false |}.

(** [setIsLoadingLocation(false)] *)
Definition stopLoading (w : Watcher) : Watcher :=
  {| hasGeolocation := hasGeolocation w; registered := registered w;
     nextWatchId := nextWatchId w; watchId := watchId w;
     watchedLocation := watchedLocation w; isLoadingLocation := false |}.

(** The error callback of a watch started with [enableHighAccuracy]. *)
Definition onWatchError (enableHighAccuracy : bool) (code : Z) (w : Watcher)
    : Watcher :=
  if enableHighAccuracy && ((code =? 2)%Z || (code =? 3)%Z)
  then startWatcher false w
  else stopLoading w.

(** The cleanup of the effect. *)
Definition cleanup (w : Watcher) : Watcher :=
  match watchId w with
  | Some i =>
      {| hasGeolocation := hasGeolocation w;
         registered := clearWatch i (registered w);
         nextWatchId := nextWatchId w; watchId := watchId w;
         watchedLocation := watchedLocation w;
         isLoadingLocation := isLoadingLocation w |}
  | None => w
  end.

(** What happens after the effect has run: the promise of
    [getCurrentLocation()] settles ([None]: it rejects), the platform
    calls a callback of the watch [i], the user presses "Skip", the
    component unmounts. *)
Inductive WatchEvent : Type :=
| InitialFix (r : option Coordinate)
| WatchPosition (i : nat) (pos : Coordinate)
| WatchError (i : nat) (code : Z)
| SkipLoading
| Unmount.

(** The [enableHighAccuracy] of the registered watch [i]. *)
Definition accuracyOf (i : nat) (w : Watcher) : option bool :=
  snd <$> find (λ r, Nat.eqb (fst r) i) (registered w).

(** The platform serves registered watches only, and
    [getCurrentLocation] rejects without a geolocation object. *)
Definition watchStep (ev : WatchEvent) (w : Watcher) : Watcher :=
  match ev with
  | InitialFix r =>
      match r with
      | Some loc => if hasGeolocation w then located loc w else w
      | None => w
      end
  | WatchPosition i pos =>
      match accuracyOf i w with
      | Some _ => located pos w
      | None => w
      end
  | WatchError i code =>
      match accuracyOf i w with
      | Some acc => onWatchError acc code w
      | None => w
      end
  | SkipLoading => stopLoading w
  | Unmount => cleanup w
  end.

Definition watchRun (evs : list WatchEvent) (w : Watcher) : Watcher :=
  fold_left (λ w' ev, watchStep ev w') evs w.

(** What the effect keeps true of the subscriptions: no more than two
    calls of [watchPosition]; no watch is served, or one, which is the
    one that [watchId] names; a high-accuracy watch is the first one. *)
Definition watchInv (w : Watcher) : Prop :=
  nextWatchId w ≤ 2 ∧
  (registered w = [] ∧ (hasGeolocation w = false → nextWatchId w = 0)
   ∨ ∃ i, watchId w = Some i ∧ hasGeolocation w = true ∧
       ((registered w = [(i, true)] ∧ nextWatchId w = 1)
        ∨ registered w = [(i, false)])).

(** The effect runs on mount ([startWatcher(true)]), then events
    follow. *)
Definition mounted (geolocation : bool) (evs : list WatchEvent) : Watcher :=
  fold_left (λ w ev, watchStep ev w) evs (startWatcher true (unmounted geolocation)).

End LocationWatch.

(* ================================================================== *)
(** * App.tsx: [playAlertSound] *)
(* ================================================================== *)

Module AlertSound.
Import Js Types.

(** [window.AudioContext || window.webkitAudioContext]: missing, present
    but throwing (blocked before a user gesture), or usable. *)
Inductive AudioSupport : Type := NoAudioContext | AudioThrows | AudioUsable.

(** [Notification.permission] *)
Inductive Permission : Type := PermissionDefault | PermissionGranted | PermissionDenied.

(** The window: [notification] is [None] when ["Notification" in window]
    is false. *)
Record Window : Type := {
  audio : AudioSupport;
  hasSpeechSynthesis : bool;
  notification : option Permission
}.

(** What the helper asks of the platform. *)
Inductive SoundEffect : Type :=
| Beep
| SetTimeout (message : jsstring) (delay : Z)
| SpeechCancel
| Speak (message : jsstring) (rate pitch : R)
| Notify (title body icon : jsstring).

(** The module variable [isSpeaking] and the requests made so far. *)
Record Sound : Type := { isSpeaking : bool; effects : list SoundEffect }.

Definition silent : Sound := {| isSpeaking := false; effects := [] |}.

Definition emit (es : list SoundEffect) (s : Sound) : Sound :=
  {| isSpeaking := isSpeaking s; effects := effects s ++ es |}.

(** The third step: the system notification. *)
Definition notifyStep (w : Window) (message : jsstring) (s : Sound) : Sound :=
  match notification w with
  | Some PermissionGranted =>
      emit [Notify (str "Places Alarm") message (str "/favicon.ico")] s
  | _ => s
  end.

Definition playAlertSound (w : Window) (message : jsstring) (s : Sound) : Sound :=
  let s1 :=
    match audio w with
    | AudioUsable => emit [Beep] s
    | NoAudioContext | AudioThrows => s
    end in
  if hasSpeechSynthesis w then
    if isSpeaking s1 then s1
    else notifyStep w message (emit [SetTimeout message 1200] s1)
  else notifyStep w message s1.

(** The callback of the timeout. *)
Definition timeoutFires (message : jsstring) (s : Sound) : Sound :=
  emit [SpeechCancel; Speak message (9 / 10)%R 1%R] s.

(** [utterance.onstart] and [utterance.onend]. *)
Definition utteranceStarts (s : Sound) : Sound :=
  {| isSpeaking := true; effects := effects s |}.
Definition utteranceEnds (s : Sound) : Sound :=
  {| isSpeaking := false; effects := effects s |}.

End AlertSound.

(* ================================================================== *)
(** * Occurrences of a word in a string *)
(* ================================================================== *)

Module Occurrence.
Import Js Regex.

(** The word [w] occurs somewhere in [s], whatever the case of its
    letters. *)
Fixpoint occursCI (w s : jsstring) : bool :=
  match literal w s with
  | Some _ => true
  | None =>
      match s with
      | [] => false
      | _ :: s' => occursCI w s'
      end
  end.

(** A string without a comma. *)
Definition commaFree (s : jsstring) : Prop := Forall (λ c, c ≠ 44%N) s.

End Occurrence.

(* ================================================================== *)
(** * What the components derive from the state *)
(* ================================================================== *)

Module Views.
Import Js Types LocationService App.

(** App.tsx and MapCanvas.tsx: [places.find(p => p.id === selectedPlaceId)] *)
Definition selectedPlace (st : AppState) : option Place :=
  match selectedPlaceId st with
  | Some sel => find (λ p, bool_decide (id p = sel)) (places st)
  | None => None
  end.

(** App.tsx: [draftLocation && ...], the draft panel. *)
Definition draftPanelShown (st : AppState) : bool :=
  match draftLocation st with Some _ => true | None => false end.

(** App.tsx: [selectedPlace && !draftLocation && ...], the details panel. *)
Definition detailsPanel (st : AppState) : option Place :=
  match selectedPlace st with
  | Some p => if draftPanelShown st then None else Some p
  | None => None
  end.

(** Sidebar.tsx *)
Definition activeTasks (tasks : list Place) : list Place :=
  filter (λ t, isCompleted t = false) tasks.
Definition completedTasks (tasks : list Place) : list Place :=
  filter (λ t, isCompleted t = true) tasks.

(** Sidebar.tsx: [parts.slice(1).join(',')], what follows the first
    comma. *)
Fixpoint afterFirstComma (s : jsstring) : jsstring :=
  match s with
  | c :: s' => if (c =? 44)%N then s' else afterFirstComma s'
  | [] => []
  end.

(** Sidebar.tsx: the two lines of a result row, [mainName] and
    [address || result.type]. *)
Definition mainName (result : SearchResult) : jsstring :=
  firstCommaSegment (display_name result).
Definition secondLine (result : SearchResult) : jsstring :=
  or_else (trim (afterFirstComma (display_name result))) (type_ result).

(** Sidebar.tsx: [handleSearchSubmit], with the [onSearch] of App.tsx. *)
Definition handleSearchSubmit `{Platform} (net : jsstring → FetchOutcome)
    (searchQuery : jsstring) (st : AppState) : AppState :=
  if truthy (trim searchQuery) then handleSearch net searchQuery st else st.

(** MapCanvas.tsx: what [MapController] asks of the map. *)
Inductive MapCall : Type :=
| SetView (c : Coordinate) (zoom : Z)
| FlyTo (c : Coordinate) (zoom : Z).

(** [hasCenteredRef.current] and the calls made so far. *)
Record MapView : Type := { hasCentered : bool; mapCalls : list MapCall }.

(** The effect "Fly to selected place". *)
Definition flyToSelected (selected : option Place) (m : MapView) : MapView :=
  match selected with
  | Some p =>
      {| hasCentered := hasCentered m;
         mapCalls := mapCalls m ++ [FlyTo (location p) 16] |}
  | None => m
  end.

(** The effect "Initial center on user - ONLY ONCE". *)
Definition centerOnUser (userLoc : option Coordinate) (selected : option Place)
    (m : MapView) : MapView :=
  match userLoc, selected with
  | Some u, None =>
      if hasCentered m then m
      else {| hasCentered := true; mapCalls := mapCalls m ++ [SetView u 15] |}
  | _, _ => m
  end.

(** A commit of [MapController] with the props it received: each of the
    two effects runs or not, as its dependencies changed or not. *)
Record Commit : Type := {
  propsUser : option Coordinate;
  propsSelected : option Place;
  runsFly : bool;
  runsCenter : bool
}.

Definition commit (c : Commit) (m : MapView) : MapView :=
  let m1 := if runsFly c then flyToSelected (propsSelected c) m else m in
  if runsCenter c then centerOnUser (propsUser c) (propsSelected c) m1 else m1.

(** [MapController] after its mount, commit after commit. *)
Definition controller (cs : list Commit) : MapView :=
  fold_left (λ m c, commit c m) cs {| hasCentered := false; mapCalls := [] |}.

Definition isSetView (c : MapCall) : bool :=
  match c with SetView _ _ => true | FlyTo _ _ => false end.

(** The reference flag counts the centrings on the user. *)
Definition callsInv (m : MapView) : Prop :=
  length (filter (λ c, isSetView c = true) (mapCalls m))
  = if hasCentered m then 1 else 0.

End Views.

(* ================================================================== *)
(** * More of the session *)
(* ================================================================== *)

Module Session.
Import Js Types LocationService App Scenario Views.

(** The user has clicked on the map at the origin and typed a name. *)
Definition drafting : AppState :=
  run (H := platform) [EvMapClick origin; EvDraftName (str "  Cafe ")] initialState.

(** The user stands at the pin; the effect has not run yet. *)
Definition atCafe : AppState := setUserLocation (Some origin) withCafe.

(** A platform that prints the numbers 1 and 2, reads them back, and
    puts ASCII letters in upper case. *)
Definition printing : Platform :=
  {| encodeURIComponent := λ s, Some s;
     doubleToString := λ x,
       if Req_dec_T x 1 then str "1"
       else if Req_dec_T x 2 then str "2" else str "0";
     toUpperCase := map canonicalize;
     parseFloat := λ s,
       if bool_decide (s = str "1") then 1%R
       else if bool_decide (s = str "2") then 2%R else 0%R;
     mathRandom := λ _, (1 / 2)%R;
     API_KEY := Some (str "key") |}.

(** A feature of the provider: a cafe at longitude 1 and latitude 2. *)
Definition cafeFeature : Feature :=
  {| properties :=
       {| prop_name := Some (str "Cafe"); street := None; city := Some (str "Pune");
          state := None; country := None; osm_key := Some (str "amenity");
          osm_value := Some (str "cafe"); osm_id := None |};
     coordinates := [1%R; 2%R] |}.

(** The result that the search builds for it. *)
Definition cafeResult : SearchResult :=
  {| place_id := (1 / 2)%R; result_lat := str "2"; result_lon := str "1";
     display_name := str "Cafe, Pune"; type_ := str "Cafe" |}.

(** A place whose radius was set below zero. *)
Definition inverted : Place :=
  {| id := str "1"; name := str "Nowhere"; location := origin;
     category := Generic; radius := (-1)%R; notes := Some [];
     isCompleted := false; createdAt := 1; listId := None |}.

(** Two commits of the map controller with a user location and no
    selection. *)
Definition twoCommits : list Commit :=
  [ {| propsUser := Some origin; propsSelected := None;
       runsFly := true; runsCenter := true |};
    {| propsUser := Some degreeEast; propsSelected := None;
       runsFly := false; runsCenter := true |} ].

End Session.

(* ================================================================== *)
(** * Properties *)
(* ================================================================== *)

Import Js Regex Types LocationService GeminiService App.

(** ** Strings *)

Section StringFacts.

Lemma trimStart_all_ws (w s : jsstring) :
  Forall (λ c, isWhiteSpace c = true) w → trimStart (w ++ s) = trimStart s.
Proof.
  induction 1 as [|c w Hc _ IH]; [done|].
  simpl. by rewrite Hc.
Qed.

Lemma trimStart_tight (c : N) (s : jsstring) :
  isWhiteSpace c = false → trimStart (c :: s) = c :: s.
Proof. intros Hc. simpl. by rewrite Hc. Qed.

Lemma trimStart_only_ws (w : jsstring) :
  Forall (λ c, isWhiteSpace c = true) w → trimStart w = [].
Proof.
  intros Hw. rewrite <- (app_nil_r w). by rewrite trimStart_all_ws.
Qed.

Lemma trim_only_ws (w : jsstring) :
  Forall (λ c, isWhiteSpace c = true) w → trim w = [].
Proof.
  intros Hw. unfold trim, trimEnd. by rewrite (trimStart_only_ws w).
Qed.

Lemma trim_padded (w1 s w2 : jsstring) :
  Forall (λ c, isWhiteSpace c = true) w1 →
  Forall (λ c, isWhiteSpace c = true) w2 →
  tight s →
  trim (w1 ++ s ++ w2) = s.
Proof.
  intros H1 H2 [Hhd Htl]. unfold trim, trimEnd.
  rewrite trimStart_all_ws by done.
  destruct s as [|c s].
  - simpl. rewrite (trimStart_only_ws w2) by done. done.
  - assert (Hc : isWhiteSpace c = false) by eauto.
    change ((c :: s) ++ w2) with (c :: (s ++ w2)).
    rewrite trimStart_tight by done.
    change (c :: s ++ w2) with ((c :: s) ++ w2).
    rewrite rev_app_distr.
    rewrite trimStart_all_ws by (by apply List.Forall_rev).
    destruct (rev (c :: s)) as [|d r] eqn:Hr.
    + apply (f_equal (@rev N)) in Hr. rewrite rev_involutive in Hr. done.
    + assert (Hd : isWhiteSpace d = false).
      { apply (Htl d (rev r)).
        apply (f_equal (@rev N)) in Hr. rewrite rev_involutive in Hr.
        by rewrite Hr. }
      rewrite trimStart_tight by done.
      rewrite <- Hr. by rewrite rev_involutive.
Qed.

End StringFacts.

(** ** The collection under the handlers *)

Section CollectionFacts.

Lemma map_if_lookup (pid : jsstring) (f : Place → Place) (ps : list Place)
    (i : nat) (p : Place) :
  ps !! i = Some p →
  map (λ q, if bool_decide (id q = pid) then f q else q) ps !! i
    = Some (if bool_decide (id p = pid) then f p else p).
Proof.
  intros Hi. change (map ?g ps) with (g <$> ps).
  by rewrite list_lookup_fmap, Hi.
Qed.

Lemma map_if_ids (pid : jsstring) (f : Place → Place) (ps : list Place) :
  (∀ q, id (f q) = id q) →
  map id (map (λ q, if bool_decide (id q = pid) then f q else q) ps) = map id ps.
Proof.
  intros Hf. rewrite map_map. apply map_ext. intros q.
  by destruct (bool_decide (id q = pid)).
Qed.

Lemma alertsFor_filter_same (pid : jsstring) (alerts : list Alert) :
  alertsFor pid (filter (λ a, placeId a ≠ pid) alerts) = [].
Proof.
  unfold alertsFor. induction alerts as [|a l IH]; [done|].
  rewrite filter_cons. destruct (decide (placeId a ≠ pid)) as [Hne|Heq].
  - rewrite filter_cons. by destruct (decide (placeId a = pid)).
  - done.
Qed.

Lemma alertsFor_filter_other (pid q : jsstring) (alerts : list Alert) :
  q ≠ pid →
  alertsFor q (filter (λ a, placeId a ≠ pid) alerts) = alertsFor q alerts.
Proof.
  intros Hq. unfold alertsFor. induction alerts as [|a l IH]; [done|].
  rewrite !filter_cons.
  destruct (decide (placeId a ≠ pid)) as [Hne|Heq].
  - rewrite filter_cons. destruct (decide (placeId a = q)); by rewrite IH.
  - destruct (decide (placeId a = q)) as [Haq|]; [|done].
    exfalso. apply Heq. by rewrite Haq.
Qed.

Lemma alertsFor_app (pid : jsstring) (l1 l2 : list Alert) :
  alertsFor pid (l1 ++ l2) = alertsFor pid l1 ++ alertsFor pid l2.
Proof. unfold alertsFor. apply filter_app. Qed.

Lemma alertActive_false (alerts : list Alert) (pid : jsstring) :
  alertActive alerts pid = false ↔ alertsFor pid alerts = [].
Proof.
  unfold alertActive, alertsFor. induction alerts as [|a l IH]; [done|].
  simpl. rewrite filter_cons.
  destruct (decide (placeId a = pid)) as [Heq|Hne].
  - rewrite bool_decide_eq_true_2 by done. simpl. split; done.
  - rewrite bool_decide_eq_false_2 by done. simpl. done.
Qed.

End CollectionFacts.

(** C4.  Moving a place: for every identifier [pid] and every prior
    state, [handlePlaceMove] gives the places with that identifier the new
    location and leaves their other fields and every other place as they
    were; [pid] leaves the alerted-this-entry set, loses its snooze expiry
    and has no active alert left; the set, the map and the alerts of every
    other identifier, and the rest of the state, are unchanged. *)
Theorem C4_move_resets_place (pid : jsstring) (newLocation : Coordinate)
    (st : AppState) :
  let st' := handlePlaceMove pid newLocation st in
  length (places st') = length (places st) ∧
  (∀ i p, places st !! i = Some p → id p ≠ pid → places st' !! i = Some p) ∧
  (∀ i p, places st !! i = Some p → id p = pid →
     ∃ p', places st' !! i = Some p' ∧ location p' = newLocation ∧
       id p' = id p ∧ name p' = name p ∧ category p' = category p ∧
       radius p' = radius p ∧ notes p' = notes p ∧
       isCompleted p' = isCompleted p ∧ createdAt p' = createdAt p ∧
       listId p' = listId p) ∧
  (pid ∉ alertedPlaceIds st') ∧
  (∀ q, q ≠ pid → (q ∈ alertedPlaceIds st' ↔ q ∈ alertedPlaceIds st)) ∧
  snoozedPlaceIds st' !! pid = None ∧
  (∀ q, q ≠ pid → snoozedPlaceIds st' !! q = snoozedPlaceIds st !! q) ∧
  alertsFor pid (activeAlerts st') = [] ∧
  (∀ q, q ≠ pid → alertsFor q (activeAlerts st') = alertsFor q (activeAlerts st)) ∧
  userLocation st' = userLocation st ∧
  selectedPlaceId st' = selectedPlaceId st ∧
  searchResults st' = searchResults st ∧
  draftLocation st' = draftLocation st ∧
  draftName st' = draftName st ∧ draftNote st' = draftNote st.
Proof.
  simpl. repeat split; try done.
  - apply length_map.
  - intros i p Hi Hne. rewrite (map_if_lookup _ _ _ _ _ Hi).
    by rewrite bool_decide_eq_false_2.
  - intros i p Hi Heq. rewrite (map_if_lookup _ _ _ _ _ Hi).
    rewrite bool_decide_eq_true_2 by done.
    eexists. split; [done|]. by simpl.
  - rewrite elem_of_difference, elem_of_singleton. tauto.
  - rewrite elem_of_difference. tauto.
  - intros Hq. rewrite elem_of_difference, elem_of_singleton. tauto.
  - apply lookup_delete_eq.
  - intros q Hq. by apply lookup_delete_ne.
  - apply alertsFor_filter_same.
  - intros q Hq. by apply alertsFor_filter_other.
Qed.

(** C5.  Confirming a draft.  With a draft location set, the confirmation
    puts one new place in front of the collection, at the draft location.
    Its name is "New Place" when the name buffer is empty or all white
    space; a name and a note typed with white space around them are
    stored without it.  The three draft buffers are cleared, so a second
    confirmation returns early and changes nothing. *)
Theorem C5_confirm_draft `{Platform} (tId tCreated : Z) (loc : Coordinate)
    (st : AppState) :
  draftLocation st = Some loc →
  let st' := confirmDraft tId tCreated st in
  (∃ p, places st' = p :: places st ∧ location p = loc ∧
     selectedPlaceId st' = Some (id p) ∧
     (Forall (λ c, isWhiteSpace c = true) (draftName st) →
        name p = str "New Place") ∧
     (∀ w1 n w2, draftName st = w1 ++ n ++ w2 →
        Forall (λ c, isWhiteSpace c = true) w1 →
        Forall (λ c, isWhiteSpace c = true) w2 →
        tight n → n ≠ [] → name p = n) ∧
     (∀ w1 m w2, draftNote st = w1 ++ m ++ w2 →
        Forall (λ c, isWhiteSpace c = true) w1 →
        Forall (λ c, isWhiteSpace c = true) w2 →
        tight m → notes p = Some m)) ∧
  draftLocation st' = None ∧ draftName st' = [] ∧ draftNote st' = [] ∧
  (∀ t1 t2, handleConfirmDraft t1 t2 st' = None ∧ confirmDraft t1 t2 st' = st').
Proof.
  intros Hloc. unfold confirmDraft, handleConfirmDraft. rewrite Hloc. simpl.
  repeat split; try done.
  eexists. split; [reflexivity|]. simpl. repeat split; try done.
  - intros Hws. by rewrite trim_only_ws.
  - intros w1 n w2 Hn H1 H2 Ht Hne. rewrite Hn, trim_padded by done.
    by destruct n.
  - intros w1 m w2 Hm H1 H2 Ht. rewrite Hm, trim_padded by done.
    unfold prop_or, present. by destruct m.
Qed.



(** ** The proximity check *)

Section ProximityFacts.
Context `{Platform}.
Variables (now : Z) (userLoc : Coordinate) (snap : AppState).

Lemma checkPlace_alerts (pending : AppState) (p : Place) :
  activeAlerts (checkPlace now userLoc snap pending p)
  = activeAlerts pending ++ (if fires now userLoc snap p then [alertOf now p] else []).
Proof.
  unfold checkPlace, fires.
  destruct (isCompleted p), (isInside userLoc p),
    (isSnoozed (snoozedPlaceIds snap) (id p) now),
    (bool_decide (id p ∈ alertedPlaceIds snap)),
    (alertActive (activeAlerts snap) (id p)); simpl;
    by rewrite ?app_nil_r.
Qed.

Lemma checkPlace_alerted (pending : AppState) (p : Place) :
  alertedPlaceIds (checkPlace now userLoc snap pending p)
  = if fires now userLoc snap p then alertedPlaceIds pending ∪ {[id p]}
    else if clears userLoc snap p then alertedPlaceIds pending ∖ {[id p]}
    else alertedPlaceIds pending.
Proof.
  unfold checkPlace, fires, clears.
  destruct (isCompleted p), (isInside userLoc p),
    (isSnoozed (snoozedPlaceIds snap) (id p) now),
    (bool_decide (id p ∈ alertedPlaceIds snap)),
    (alertActive (activeAlerts snap) (id p)); done.
Qed.

Lemma checkPlace_frame (pending : AppState) (p : Place) :
  sameFrame pending (checkPlace now userLoc snap pending p).
Proof.
  unfold checkPlace, sameFrame.
  destruct (isCompleted p), (isInside userLoc p),
    (isSnoozed (snoozedPlaceIds snap) (id p) now),
    (bool_decide (id p ∈ alertedPlaceIds snap)),
    (alertActive (activeAlerts snap) (id p)); done.
Qed.

Lemma fold_checkPlace_frame (ps : list Place) (pending : AppState) :
  sameFrame pending (fold_left (checkPlace now userLoc snap) ps pending).
Proof.
  revert pending. induction ps as [|p ps IH]; intros pending; [done|].
  simpl. specialize (IH (checkPlace now userLoc snap pending p)).
  pose proof (checkPlace_frame pending p) as Hp.
  unfold sameFrame in *. intuition congruence.
Qed.

Lemma fold_checkPlace_alerts (ps : list Place) (pending : AppState) :
  activeAlerts (fold_left (checkPlace now userLoc snap) ps pending)
  = activeAlerts pending
    ++ map (alertOf now) (filter (λ p, fires now userLoc snap p = true) ps).
Proof.
  revert pending. induction ps as [|p ps IH]; intros pending.
  - simpl. by rewrite app_nil_r.
  - simpl. rewrite IH, checkPlace_alerts, filter_cons.
    destruct (fires now userLoc snap p); simpl.
    + by rewrite <- app_assoc.
    + by rewrite app_nil_r.
Qed.

(** Places with other identifiers do not touch the membership of [pid]. *)
Lemma fold_checkPlace_alerted_other (pid : jsstring) (ps : list Place)
    (pending : AppState) :
  pid ∉ map id ps →
  (pid ∈ alertedPlaceIds (fold_left (checkPlace now userLoc snap) ps pending)
   ↔ pid ∈ alertedPlaceIds pending).
Proof.
  revert pending. induction ps as [|p ps IH]; intros pending Hnot; [done|].
  simpl in *. apply not_elem_of_cons in Hnot as [Hne Hnot].
  rewrite IH by done. rewrite checkPlace_alerted.
  destruct (fires now userLoc snap p); [|destruct (clears userLoc snap p)].
  - rewrite elem_of_union, elem_of_singleton. intuition congruence.
  - rewrite elem_of_difference, elem_of_singleton. intuition congruence.
  - done.
Qed.

(** With unique identifiers, the membership of the identifier of [p]
    after the run is decided by the step of [p] alone. *)
Lemma fold_checkPlace_alerted_at (p : Place) (ps : list Place)
    (pending : AppState) :
  NoDup (map id ps) → p ∈ ps →
  (id p ∈ alertedPlaceIds (fold_left (checkPlace now userLoc snap) ps pending)
   ↔ fires now userLoc snap p = true
     ∨ (clears userLoc snap p = false ∧ id p ∈ alertedPlaceIds pending)).
Proof.
  intros Hnd Hin.
  apply list_elem_of_split in Hin as (l1 & l2 & ->).
  rewrite map_app in Hnd. simpl in Hnd.
  apply NoDup_app in Hnd as (_ & Hl1 & Hnd).
  apply NoDup_cons in Hnd as [Hl2 _].
  assert (Hl1' : id p ∉ map id l1).
  { intros Hin. apply (Hl1 _ Hin). left. }
  rewrite fold_left_app. simpl.
  rewrite fold_checkPlace_alerted_other by done.
  rewrite checkPlace_alerted.
  destruct (fires now userLoc snap p) eqn:Hf.
  - rewrite elem_of_union, elem_of_singleton. intuition congruence.
  - destruct (clears userLoc snap p) eqn:Hc.
    + rewrite elem_of_difference, elem_of_singleton. intuition congruence.
    + rewrite fold_checkPlace_alerted_other by done. intuition congruence.
Qed.

End ProximityFacts.

Section EffectFacts.
Context `{Platform}.

Lemma proximityCheck_frame (now : Z) (st : AppState) :
  sameFrame st (proximityCheck now st).
Proof.
  unfold proximityCheck. destruct (userLocation st) as [u|].
  - apply fold_checkPlace_frame.
  - done.
Qed.

Lemma proximityCheck_alerts (now : Z) (st : AppState) :
  activeAlerts (proximityCheck now st) = activeAlerts st ++ created now st.
Proof.
  unfold created, proximityCheck. destruct (userLocation st) as [u|].
  - rewrite fold_checkPlace_alerts. by rewrite drop_app_length.
  - by rewrite drop_all, app_nil_r.
Qed.

Lemma created_located (now : Z) (st : AppState) (u : Coordinate) :
  userLocation st = Some u →
  created now st = map (alertOf now) (filter (λ p, fires now u st p = true) (places st)).
Proof.
  intros Hu. unfold created, proximityCheck. rewrite Hu.
  rewrite fold_checkPlace_alerts. by rewrite drop_app_length.
Qed.

(** An alert stays on the list under every event that is not a
    dismissal, a snooze or a move of its place. *)
Lemma handle_keeps_alert (ev : Event) (st : AppState) (a : Alert) :
  ¬ removesAlertsOf (placeId a) ev →
  a ∈ activeAlerts st → a ∈ activeAlerts (handle ev st).
Proof.
  intros Hev Ha. destruct ev; simpl in *; try done.
  - rewrite proximityCheck_alerts. apply elem_of_app. by left.
  - unfold handleSearch. by destruct (outcome _).
  - unfold confirmDraft, handleConfirmDraft. by destruct (draftLocation st).
  - apply list_elem_of_filter. split; [congruence|done].
  - unfold handleDeleteTask. by destruct (bool_decide _).
  - apply list_elem_of_filter. split; [congruence|done].
  - apply list_elem_of_filter. split; [congruence|done].
  - unfold enrichmentSettled, applyEnhancement. by destruct r as [[?|]|].
Qed.

Lemma run_keeps_alert (evs : list Event) (st : AppState) (a : Alert) :
  Forall (λ ev, ¬ removesAlertsOf (placeId a) ev) evs →
  a ∈ activeAlerts st → a ∈ activeAlerts (run evs st).
Proof.
  revert st. induction evs as [|ev evs IH]; intros st Hevs Ha; [done|].
  apply Forall_cons in Hevs as [Hev Hevs].
  apply (IH (handle ev st)); [done|]. by apply handle_keeps_alert.
Qed.

End EffectFacts.

(** C10.  Deleting a place: [handleDeleteTask] takes the places with the
    identifier out of the collection (the others stay, in their order) and
    clears the selection when it was that identifier.  The active alerts,
    the alerted-this-entry set and the snooze map are untouched; an alert
    of the deleted place stays on the list through every later event
    that is not a dismissal or a snooze of it (nor a move, which the
    handlers also use to take alerts off the list). *)
Theorem C10_delete_frame `{Platform} (pid : jsstring) (st : AppState) :
  let st' := handleDeleteTask pid st in
  (∀ p, p ∈ places st' ↔ p ∈ places st ∧ id p ≠ pid) ∧
  places st' `sublist_of` places st ∧
  selectedPlaceId st'
    = (if bool_decide (selectedPlaceId st = Some pid) then None
       else selectedPlaceId st) ∧
  activeAlerts st' = activeAlerts st ∧
  alertedPlaceIds st' = alertedPlaceIds st ∧
  snoozedPlaceIds st' = snoozedPlaceIds st ∧
  (∀ a evs, a ∈ activeAlerts st →
     Forall (λ ev, ¬ removesAlertsOf (placeId a) ev) evs →
     a ∈ activeAlerts (run evs st')).
Proof.
  intros st'.
  assert (Hpl : places st' = filter (λ p, id p ≠ pid) (places st)).
  { subst st'. unfold handleDeleteTask. by destruct (bool_decide _). }
  assert (Hal : activeAlerts st' = activeAlerts st).
  { subst st'. unfold handleDeleteTask. by destruct (bool_decide _). }
  split; [|split; [|split; [|split; [|split; [|split]]]]].
  - intros p. rewrite Hpl, list_elem_of_filter. tauto.
  - rewrite Hpl. apply sublist_filter.
  - subst st'. unfold handleDeleteTask. by destruct (bool_decide _).
  - done.
  - subst st'. unfold handleDeleteTask. by destruct (bool_decide _).
  - subst st'. unfold handleDeleteTask. by destruct (bool_decide _).
  - intros a evs Ha Hevs. apply run_keeps_alert; [done|]. by rewrite Hal.
Qed.

(** ** Unique identifiers *)

Section UniqueFacts.
Context `{Platform}.

Lemma NoDup_map_filter {A B} (f : A → B) (P : A → Prop)
    `{∀ x, Decision (P x)} (l : list A) :
  NoDup (map f l) → NoDup (map f (filter P l)).
Proof.
  induction l as [|x l IH]; [done|].
  simpl. rewrite NoDup_cons. intros [Hx Hl]. rewrite filter_cons.
  destruct (decide (P x)); [|by apply IH].
  simpl. apply NoDup_cons. split; [|by apply IH].
  intros Hin. apply Hx.
  change (f x ∈ f <$> filter P l) in Hin.
  apply list_elem_of_fmap in Hin as (y & Hy & Hyin).
  apply list_elem_of_filter in Hyin as [_ Hyin].
  rewrite Hy. change (f y ∈ f <$> l). by apply list_elem_of_fmap_2.
Qed.

Lemma alertsFor_nil_iff (pid : jsstring) (alerts : list Alert) :
  alertsFor pid alerts = [] ↔ pid ∉ map placeId alerts.
Proof.
  unfold alertsFor. induction alerts as [|a l IH]; simpl.
  - split; [intros _; apply not_elem_of_nil|done].
  - rewrite filter_cons, not_elem_of_cons.
    destruct (decide (placeId a = pid)) as [Heq|Hne].
    + split; [done|]. intros [Hne _]. by destruct Hne.
    + rewrite IH. intuition congruence.
Qed.

(** The alerts that a run creates for the identifier of a place of a
    collection with unique identifiers. *)
Lemma alertsFor_created_at (now : Z) (F : Place → bool) (p : Place)
    (ps : list Place) :
  NoDup (map id ps) → p ∈ ps →
  alertsFor (id p) (map (alertOf now) (filter (λ q, F q = true) ps))
  = if F p then [alertOf now p] else [].
Proof.
  intros Hnd Hin.
  assert (Hother : ∀ l, id p ∉ map id l →
            alertsFor (id p) (map (alertOf now) (filter (λ q, F q = true) l)) = []).
  { intros l Hl. apply alertsFor_nil_iff. intros Hin'. apply Hl.
    rewrite map_map in Hin'. simpl in Hin'.
    change (id p ∈ id <$> filter (λ q, F q = true) l) in Hin'.
    apply list_elem_of_fmap in Hin' as (y & Hy & Hyin).
    apply list_elem_of_filter in Hyin as [_ Hyin].
    rewrite Hy. change (id y ∈ id <$> l). by apply list_elem_of_fmap_2. }
  apply list_elem_of_split in Hin as (l1 & l2 & ->).
  rewrite map_app in Hnd. simpl in Hnd.
  apply NoDup_app in Hnd as (_ & Hl1 & Hnd).
  apply NoDup_cons in Hnd as [Hl2 _].
  rewrite filter_app, map_app, alertsFor_app, filter_cons.
  rewrite Hother by (intros Hin; apply (Hl1 _ Hin); left).
  destruct (decide (F p = true)) as [Hf|Hf].
  - rewrite Hf. simpl. specialize (Hother l2 Hl2).
    unfold alertsFor in *. rewrite filter_cons. simpl.
    destruct (decide (id p = id p)); [|done]. by rewrite Hother.
  - rewrite Hother by done. by destruct (F p).
Qed.

Lemma created_unique (now : Z) (st : AppState) :
  uniqueIds st → NoDup (map placeId (activeAlerts st ++ created now st)).
Proof.
  intros [Hp Ha]. destruct (userLocation st) as [u|] eqn:Hu.
  - rewrite (created_located _ _ _ Hu). rewrite map_app.
    apply NoDup_app. split; [done|]. split.
    + intros pid Hold Hnew.
      rewrite map_map in Hnew. simpl in Hnew.
      change (pid ∈ id <$> filter (λ p, fires now u st p = true) (places st)) in Hnew.
      apply list_elem_of_fmap in Hnew as (p & -> & Hpin).
      apply list_elem_of_filter in Hpin as [Hf _].
      unfold fires in Hf. apply andb_prop in Hf as [_ Hact].
      apply negb_true_iff, alertActive_false, alertsFor_nil_iff in Hact. done.
    + rewrite map_map. simpl. by apply NoDup_map_filter.
  - unfold created, proximityCheck. rewrite Hu.
    by rewrite drop_all, app_nil_r.
Qed.

Lemma handle_uniqueIds (ev : Event) (st : AppState) :
  uniqueIds st → admissible ev st → uniqueIds (handle ev st).
Proof.
  intros Hu Hadm. pose proof Hu as [Hp Ha]. unfold uniqueIds, placeIds in *.
  destruct ev; simpl in *; try done.
  - destruct (proximityCheck_frame now st) as (-> & _).
    split; [done|]. rewrite proximityCheck_alerts. by apply created_unique.
  - unfold handleSearch. by destruct (outcome _).
  - split; [|done]. apply NoDup_cons. split; [|done].
    unfold prop_or, present. by destruct (truthy _).
  - unfold confirmDraft, handleConfirmDraft.
    destruct (draftLocation st); [|done]. simpl.
    split; [|done]. by apply NoDup_cons.
  - split.
    + by rewrite map_if_ids.
    + by apply NoDup_map_filter.
  - split; [|done]. by rewrite map_if_ids.
  - unfold handleDeleteTask.
    destruct (bool_decide _); simpl; (split; [by apply NoDup_map_filter|done]).
  - split; [|done]. by rewrite map_if_ids.
  - split; [|done]. by rewrite map_if_ids.
  - split; [|done]. by rewrite map_if_ids.
  - split; [done|]. by apply NoDup_map_filter.
  - split; [done|]. by apply NoDup_map_filter.
  - unfold enrichmentSettled, applyEnhancement.
    destruct r as [[enh|]|]; simpl; try done.
    split; [|done]. by rewrite map_if_ids.
Qed.

Lemma reachable_uniqueIds (st : AppState) : reachable st → uniqueIds st.
Proof.
  induction 1 as [|ev st _ IH Hadm].
  - split; apply NoDup_nil_2.
  - by apply handle_uniqueIds.
Qed.

Lemma NoDup_alertsFor (pid : jsstring) (alerts : list Alert) :
  NoDup (map placeId alerts) → length (alertsFor pid alerts) ≤ 1.
Proof.
  unfold alertsFor. induction alerts as [|a l IH]; simpl; [lia|].
  rewrite NoDup_cons. intros [Ha Hl]. rewrite filter_cons.
  destruct (decide (placeId a = pid)) as [Heq|Hne]; [|by apply IH].
  simpl. rewrite Heq in Ha. apply alertsFor_nil_iff in Ha.
  unfold alertsFor in Ha. rewrite Ha. simpl. lia.
Qed.

End UniqueFacts.

(** ** One evaluation, seen from one place *)

Section EvaluationFacts.
Context `{Platform}.

Lemma run_app (evs1 evs2 : list Event) (st : AppState) :
  run (evs1 ++ evs2) st = run evs2 (run evs1 st).
Proof. apply fold_left_app. Qed.

Lemma createdDuring_app (evs1 evs2 : list Event) (st : AppState) :
  createdDuring (evs1 ++ evs2) st
  = createdDuring evs1 st ++ createdDuring evs2 (run evs1 st).
Proof.
  revert st. induction evs1 as [|ev evs1 IH]; intros st; [done|].
  simpl. rewrite IH. by rewrite app_assoc.
Qed.

Lemma run_evaluation (ct : Coordinate * Z) (st : AppState) :
  run (evaluation ct) st = evalAt ct st.
Proof. done. Qed.

Lemma createdDuring_evaluation (ct : Coordinate * Z) (st : AppState) :
  createdDuring (evaluation ct) st
  = created (snd ct) (setUserLocation (Some (fst ct)) st).
Proof. simpl. by rewrite app_nil_r. Qed.

Lemma evaluations_cons (ct : Coordinate * Z) (cts : list (Coordinate * Z)) :
  evaluations (ct :: cts) = evaluation ct ++ evaluations cts.
Proof. done. Qed.

Lemma evalAt_frame (ct : Coordinate * Z) (st : AppState) :
  places (evalAt ct st) = places st ∧
  snoozedPlaceIds (evalAt ct st) = snoozedPlaceIds st.
Proof.
  unfold evalAt.
  destruct (proximityCheck_frame (snd ct) (setUserLocation (Some (fst ct)) st))
    as (Hp & _ & _ & Hs & _).
  by rewrite Hp, Hs.
Qed.

Lemma evalAt_alerts (ct : Coordinate * Z) (st : AppState) :
  activeAlerts (evalAt ct st)
  = activeAlerts st ++ createdDuring (evaluation ct) st.
Proof.
  rewrite createdDuring_evaluation. unfold evalAt.
  by rewrite proximityCheck_alerts.
Qed.

Lemma created_evaluation (ct : Coordinate * Z) (st : AppState) :
  createdDuring (evaluation ct) st
  = map (alertOf (snd ct))
      (filter (λ p, fires (snd ct) (fst ct) st p = true) (places st)).
Proof.
  rewrite createdDuring_evaluation.
  by rewrite (created_located _ _ (fst ct)).
Qed.

(** The evaluation as the place [p] sees it, when identifiers are
    unique: whether it creates an alert for [p], and whether [p] is in
    the alerted-this-entry set afterwards. *)
Lemma evalAt_place (ct : Coordinate * Z) (st : AppState) (p : Place) :
  NoDup (placeIds st) → p ∈ places st →
  alertsFor (id p) (createdDuring (evaluation ct) st)
    = (if fires (snd ct) (fst ct) st p then [alertOf (snd ct) p] else []) ∧
  (id p ∈ alertedPlaceIds (evalAt ct st)
   ↔ fires (snd ct) (fst ct) st p = true
     ∨ (clears (fst ct) st p = false ∧ id p ∈ alertedPlaceIds st)).
Proof.
  intros Hnd Hin. split.
  - rewrite created_evaluation. by apply alertsFor_created_at.
  - unfold evalAt, proximityCheck. simpl.
    by rewrite (fold_checkPlace_alerted_at _ _ _ p).
Qed.

(** Without any assumption on identifiers: a place enters the set only
    when an alert is created for it. *)
Lemma fold_checkPlace_alerted_incl (now : Z) (u : Coordinate)
    (snap pending : AppState) (pid : jsstring) (ps : list Place) :
  pid ∈ alertedPlaceIds (fold_left (checkPlace now u snap) ps pending) →
  pid ∈ alertedPlaceIds pending
  ∨ ∃ p, p ∈ ps ∧ id p = pid ∧ fires now u snap p = true.
Proof.
  revert pending. induction ps as [|p ps IH]; intros pending; [by left|].
  simpl. intros Hin. apply IH in Hin as [Hin|(q & Hq & Hid & Hf)].
  - rewrite checkPlace_alerted in Hin.
    destruct (fires now u snap p) eqn:Hf; [|destruct (clears u snap p)].
    + apply elem_of_union in Hin as [Hin|Hin]; [by left|].
      apply elem_of_singleton in Hin. right. exists p.
      split; [left|]. done.
    + apply elem_of_difference in Hin as [Hin _]. by left.
    + by left.
  - right. exists q. split; [by right|done].
Qed.

Lemma alertsFor_created_none (ct : Coordinate * Z) (st : AppState)
    (pid : jsstring) :
  (∀ p, p ∈ places st → id p = pid → fires (snd ct) (fst ct) st p = false) →
  alertsFor pid (createdDuring (evaluation ct) st) = [].
Proof.
  intros Hnone. rewrite created_evaluation.
  apply alertsFor_nil_iff. rewrite map_map. simpl. intros Hin.
  change (pid ∈ id <$> filter (λ p, fires (snd ct) (fst ct) st p = true) (places st))
    in Hin.
  apply list_elem_of_fmap in Hin as (p & -> & Hp).
  apply list_elem_of_filter in Hp as [Hf Hp].
  by rewrite (Hnone p Hp eq_refl) in Hf.
Qed.

End EvaluationFacts.

(** ** A stay inside the radius *)

Section StayFacts.
Context `{Platform}.
Variables (p : Place).
Hypothesis Hactive : isCompleted p = false.

(** The place is armed: not in the set, no alert on the list. *)
Lemma evalAt_armed_inside (ct : Coordinate * Z) (st : AppState) :
  NoDup (placeIds st) → p ∈ places st →
  id p ∉ alertedPlaceIds st → alertsFor (id p) (activeAlerts st) = [] →
  isInside (fst ct) p = true →
  isSnoozed (snoozedPlaceIds st) (id p) (snd ct) = false →
  alertsFor (id p) (createdDuring (evaluation ct) st) = [alertOf (snd ct) p] ∧
  id p ∈ alertedPlaceIds (evalAt ct st).
Proof.
  intros Hnd Hin Hna Hno Hins Hsn.
  destruct (evalAt_place ct st p Hnd Hin) as [Hc Ha].
  assert (Hf : fires (snd ct) (fst ct) st p = true).
  { unfold fires. rewrite Hactive, Hins, Hsn. simpl.
    rewrite bool_decide_eq_false_2 by done. simpl.
    apply negb_true_iff. by apply alertActive_false. }
  rewrite Hf in Hc. split; [done|]. apply Ha. by left.
Qed.

(** The place has alerted during this entry. *)
Lemma evalAt_alerted_inside (ct : Coordinate * Z) (st : AppState) :
  NoDup (placeIds st) → p ∈ places st →
  id p ∈ alertedPlaceIds st → isInside (fst ct) p = true →
  alertsFor (id p) (createdDuring (evaluation ct) st) = [] ∧
  id p ∈ alertedPlaceIds (evalAt ct st).
Proof.
  intros Hnd Hin Hal Hins.
  destruct (evalAt_place ct st p Hnd Hin) as [Hc Ha].
  assert (Hf : fires (snd ct) (fst ct) st p = false).
  { unfold fires. rewrite (bool_decide_eq_true_2 _ Hal). simpl.
    by rewrite andb_false_r. }
  rewrite Hf in Hc. split; [done|]. apply Ha. right. split; [|done].
  unfold clears. rewrite Hins. simpl. by rewrite andb_false_r.
Qed.

(** The user is outside the radius. *)
Lemma evalAt_outside (ct : Coordinate * Z) (st : AppState) :
  NoDup (placeIds st) → p ∈ places st →
  isInside (fst ct) p = false →
  alertsFor (id p) (createdDuring (evaluation ct) st) = [] ∧
  id p ∉ alertedPlaceIds (evalAt ct st).
Proof.
  intros Hnd Hin Hout.
  destruct (evalAt_place ct st p Hnd Hin) as [Hc Ha].
  assert (Hf : fires (snd ct) (fst ct) st p = false).
  { unfold fires. rewrite Hout. by rewrite andb_false_r. }
  rewrite Hf in Hc. split; [done|]. rewrite Ha.
  intros [Hf'|[Hcl Hal]]; [congruence|].
  unfold clears in Hcl. rewrite Hactive, Hout in Hcl. simpl in Hcl.
  by rewrite (bool_decide_eq_true_2 _ Hal) in Hcl.
Qed.

(** An alert of the place is still on the list. *)
Lemma evalAt_shown (ct : Coordinate * Z) (st : AppState) :
  NoDup (placeIds st) → p ∈ places st →
  alertsFor (id p) (activeAlerts st) ≠ [] →
  alertsFor (id p) (createdDuring (evaluation ct) st) = [].
Proof.
  intros Hnd Hin Hshown.
  destruct (evalAt_place ct st p Hnd Hin) as [Hc _].
  assert (Hf : fires (snd ct) (fst ct) st p = false).
  { unfold fires.
    destruct (alertActive (activeAlerts st) (id p)) eqn:Hact.
    - by rewrite andb_false_r.
    - by apply alertActive_false in Hact. }
  by rewrite Hf in Hc.
Qed.

(** A stay of a place that has already alerted creates nothing. *)
Lemma stay_alerted (cts : list (Coordinate * Z)) (st : AppState) :
  NoDup (placeIds st) → p ∈ places st → id p ∈ alertedPlaceIds st →
  Forall (λ ct, isInside (fst ct) p = true) cts →
  alertsFor (id p) (createdDuring (evaluations cts) st) = [].
Proof.
  revert st. induction cts as [|ct cts IH]; intros st Hnd Hin Hal Hins; [done|].
  apply Forall_cons in Hins as [Hct Hins].
  rewrite evaluations_cons, createdDuring_app, alertsFor_app, run_evaluation.
  destruct (evalAt_alerted_inside ct st Hnd Hin Hal Hct) as [-> Hal'].
  destruct (evalAt_frame ct st) as [Hpl _].
  apply IH; try done; unfold placeIds; by rewrite Hpl.
Qed.

(** A stay of an armed place creates one alert, at its first
    evaluation. *)
Lemma stay_armed (ct : Coordinate * Z) (cts : list (Coordinate * Z))
    (st : AppState) :
  NoDup (placeIds st) → p ∈ places st →
  id p ∉ alertedPlaceIds st → alertsFor (id p) (activeAlerts st) = [] →
  isSnoozed (snoozedPlaceIds st) (id p) (snd ct) = false →
  Forall (λ ct, isInside (fst ct) p = true) (ct :: cts) →
  alertsFor (id p) (createdDuring (evaluations (ct :: cts)) st)
  = [alertOf (snd ct) p].
Proof.
  intros Hnd Hin Hna Hno Hsn Hins.
  apply Forall_cons in Hins as [Hct Hins].
  rewrite evaluations_cons, createdDuring_app, alertsFor_app, run_evaluation.
  destruct (evalAt_armed_inside ct st Hnd Hin Hna Hno Hct Hsn) as [-> Hal].
  destruct (evalAt_frame ct st) as [Hpl _].
  rewrite stay_alerted; try done; unfold placeIds; by rewrite Hpl.
Qed.

(** From any state, a stay creates at most one alert for the place. *)
Lemma stay_at_most_one (cts : list (Coordinate * Z)) (st : AppState) :
  NoDup (placeIds st) → p ∈ places st →
  Forall (λ ct, isInside (fst ct) p = true) cts →
  length (alertsFor (id p) (createdDuring (evaluations cts) st)) ≤ 1.
Proof.
  revert st. induction cts as [|ct cts IH]; intros st Hnd Hin Hins; [simpl; lia|].
  pose proof Hins as Hall. apply Forall_cons in Hins as [Hct Hins].
  rewrite evaluations_cons, createdDuring_app, alertsFor_app, run_evaluation.
  destruct (evalAt_place ct st p Hnd Hin) as [Hc Ha].
  destruct (evalAt_frame ct st) as [Hpl _].
  rewrite Hc, length_app.
  destruct (fires (snd ct) (fst ct) st p) eqn:Hf.
  - rewrite stay_alerted; try done.
    + unfold placeIds. by rewrite Hpl.
    + by rewrite Hpl.
    + apply Ha. by left.
  - simpl. apply IH; try done.
    + unfold placeIds. by rewrite Hpl.
    + by rewrite Hpl.
Qed.

End StayFacts.

(** ** A stay with other events in between *)

Section OccupancyFacts.
Context `{Platform}.
Variable pid : jsstring.

Lemma fold_checkPlace_alerted_keep (now : Z) (u : Coordinate)
    (snap pending : AppState) (ps : list Place) :
  (∀ q, q ∈ ps → id q = pid → clears u snap q = false) →
  pid ∈ alertedPlaceIds pending →
  pid ∈ alertedPlaceIds (fold_left (checkPlace now u snap) ps pending).
Proof.
  revert pending. induction ps as [|q ps IH]; intros pending Hkeep Hin; [done|].
  simpl. apply IH.
  - intros q' Hq'. apply Hkeep. by right.
  - rewrite checkPlace_alerted.
    destruct (fires now u snap q); [apply elem_of_union; by left|].
    destruct (clears u snap q) eqn:Hc; [|done].
    apply elem_of_difference. split; [done|].
    rewrite elem_of_singleton. intros ->.
    rewrite Hkeep in Hc; [done|left|done].
Qed.

Lemma created_alerted (now : Z) (st : AppState) :
  pid ∈ alertedPlaceIds st → alertsFor pid (created now st) = [].
Proof.
  intros Hal. destruct (userLocation st) as [u|] eqn:Hu.
  - rewrite (created_located _ _ _ Hu).
    apply alertsFor_nil_iff. rewrite map_map. simpl. intros Hin.
    change (pid ∈ id <$> filter (λ p, fires now u st p = true) (places st)) in Hin.
    apply list_elem_of_fmap in Hin as (q & -> & Hq).
    apply list_elem_of_filter in Hq as [Hf _].
    unfold fires in Hf. rewrite (bool_decide_eq_true_2 _ Hal) in Hf.
    simpl in Hf. by rewrite andb_false_r in Hf.
  - unfold created, proximityCheck. rewrite Hu. by rewrite drop_all.
Qed.

Lemma handle_keeps_alerted (ev : Event) (evs : list Event) (st : AppState) :
  staysInside pid (ev :: evs) st → pid ∈ alertedPlaceIds st →
  pid ∈ alertedPlaceIds (handle ev st).
Proof.
  intros [Hev _] Hal. destruct ev; simpl in *; try done.
  - unfold proximityCheck. destruct (userLocation st) as [u|] eqn:Hu; [|done].
    apply fold_checkPlace_alerted_keep; [|done].
    intros q Hq Hid. unfold clears.
    destruct (isCompleted q) eqn:Hc; [done|].
    by rewrite (Hev u q eq_refl Hq Hid Hc).
  - unfold handleSearch. by destruct (outcome _).
  - unfold confirmDraft, handleConfirmDraft. by destruct (draftLocation st).
  - apply elem_of_difference. split; [done|]. rewrite elem_of_singleton. congruence.
  - unfold handleDeleteTask. by destruct (bool_decide _).
  - apply elem_of_difference. split; [done|]. rewrite elem_of_singleton. congruence.
  - unfold enrichmentSettled, applyEnhancement. by destruct r as [[?|]|].
Qed.

(** As long as the stay lasts, no alert is created for a place that has
    alerted. *)
Lemma occupancy_alerted (evs : list Event) (st : AppState) :
  staysInside pid evs st → pid ∈ alertedPlaceIds st →
  alertsFor pid (createdDuring evs st) = [].
Proof.
  revert st. induction evs as [|ev evs IH]; intros st Hstay Hal; [done|].
  simpl createdDuring. rewrite alertsFor_app.
  rewrite (IH (handle ev st)).
  - rewrite app_nil_r. destruct ev; try done. simpl. by apply created_alerted.
  - by destruct Hstay.
  - by apply (handle_keeps_alerted ev evs).
Qed.

End OccupancyFacts.

(** C1.  No repeat alert during a stay, and one alert per place at most.
    (a) Take a state with unique place identifiers and a place of it that
    is not completed and is armed (it is not in the alerted-this-entry
    set and has no alert on the list).  Three or more proximity
    evaluations in a row, each with the user inside the radius and
    outside any snooze window, and nothing but location updates between
    them, create one alert for the place, and it is the only alert of the
    place on the list afterwards.
    From any state with unique place identifiers, armed or not, such a
    stay creates at most one alert for the place.
    (b) The same holds when other events come between the evaluations:
    after the first evaluation, whatever happens, as long as the user is
    inside the radius whenever the effect runs and no event snoozes or
    moves the place, the alert of the first evaluation is the only one
    created.
    (c) In every state that the component reaches with unique place
    identifiers (a place is never created with the identifier of a place
    of the collection), the list of active alerts holds at most one alert
    for an identifier. *)
Theorem C1_one_alert_per_stay `{Platform} :
  (∀ (st : AppState) (p : Place) (cts : list (Coordinate * Z)),
     NoDup (placeIds st) → p ∈ places st → isCompleted p = false →
     id p ∉ alertedPlaceIds st → alertsFor (id p) (activeAlerts st) = [] →
     Forall (λ ct, isInside (fst ct) p = true
                   ∧ isSnoozed (snoozedPlaceIds st) (id p) (snd ct) = false) cts →
     3 ≤ length cts →
     length (alertsFor (id p) (createdDuring (evaluations cts) st)) = 1 ∧
     length (alertsFor (id p) (activeAlerts (run (evaluations cts) st))) = 1) ∧
  (∀ (st : AppState) (p : Place) (cts : list (Coordinate * Z)),
     NoDup (placeIds st) → p ∈ places st → isCompleted p = false →
     Forall (λ ct, isInside (fst ct) p = true) cts →
     length (alertsFor (id p) (createdDuring (evaluations cts) st)) ≤ 1) ∧
  (∀ (st : AppState) (p : Place) (ct : Coordinate * Z) (evs : list Event),
     NoDup (placeIds st) → p ∈ places st → isCompleted p = false →
     id p ∉ alertedPlaceIds st → alertsFor (id p) (activeAlerts st) = [] →
     isInside (fst ct) p = true →
     isSnoozed (snoozedPlaceIds st) (id p) (snd ct) = false →
     staysInside (id p) evs (evalAt ct st) →
     alertsFor (id p) (createdDuring (evaluation ct ++ evs) st)
     = [alertOf (snd ct) p]) ∧
  (∀ (st : AppState), reachable st →
     ∀ pid, length (alertsFor pid (activeAlerts st)) ≤ 1).
Proof.
  split; [|split; [|split]].
  - intros st p cts Hnd Hin Hact Hna Hno Hcts Hlen.
    destruct cts as [|ct cts]; [simpl in Hlen; lia|].
    assert (Hins : Forall (λ ct, isInside (fst ct) p = true) (ct :: cts)).
    { eapply Forall_impl; [exact Hcts|]. by intros ? [? _]. }
    apply Forall_cons in Hcts as [[_ Hsn] _].
    pose proof (stay_armed p Hact ct cts st Hnd Hin Hna Hno Hsn Hins) as Hone.
    split; [by rewrite Hone|].
    assert (Hall : ∀ evs st0,
      activeAlerts (run (evaluations evs) st0)
      = activeAlerts st0 ++ createdDuring (evaluations evs) st0).
    { induction evs as [|e evs IH]; intros st0.
      - simpl. by rewrite app_nil_r.
      - rewrite evaluations_cons, run_app, createdDuring_app, run_evaluation.
        rewrite IH, evalAt_alerts. by rewrite app_assoc. }
    rewrite Hall, alertsFor_app, Hno, Hone. done.
  - intros st p cts Hnd Hin Hact Hins. by apply stay_at_most_one.
  - intros st p ct evs Hnd Hin Hact Hna Hno Hins Hsn Hstay.
    rewrite createdDuring_app, alertsFor_app, run_evaluation.
    destruct (evalAt_armed_inside p Hact ct st Hnd Hin Hna Hno Hins Hsn) as [-> Hal].
    by rewrite occupancy_alerted.
  - intros st Hr pid. apply NoDup_alertsFor.
    by destruct (reachable_uniqueIds st Hr).
Qed.

(** ** Leaving and coming back *)

Section ReentryFacts.
Context `{Platform}.
Variables (p : Place) (st : AppState).
Variables (cin cout cback : Coordinate) (t1 t2 t3 : Z).
Hypothesis Hnd : NoDup (placeIds st).
Hypothesis Hin : p ∈ places st.
Hypothesis Hactive : isCompleted p = false.
Hypothesis Harmed : id p ∉ alertedPlaceIds st.
Hypothesis Hnone : alertsFor (id p) (activeAlerts st) = [].
Hypothesis Hsn1 : isSnoozed (snoozedPlaceIds st) (id p) t1 = false.
Hypothesis Hsn3 : isSnoozed (snoozedPlaceIds st) (id p) t3 = false.
Hypothesis Hcin : isInside cin p = true.
Hypothesis Hcout : isInside cout p = false.
Hypothesis Hcback : isInside cback p = true.

Lemma enter_state :
  NoDup (placeIds (evalAt (cin, t1) st)) ∧ p ∈ places (evalAt (cin, t1) st) ∧
  snoozedPlaceIds (evalAt (cin, t1) st) = snoozedPlaceIds st ∧
  alertsFor (id p) (createdDuring (evaluation (cin, t1)) st) = [alertOf t1 p] ∧
  alertsFor (id p) (activeAlerts (evalAt (cin, t1) st)) = [alertOf t1 p] ∧
  id p ∈ alertedPlaceIds (evalAt (cin, t1) st).
Proof.
  destruct (evalAt_frame (cin, t1) st) as [Hpl Hs].
  destruct (evalAt_armed_inside p Hactive (cin, t1) st) as [Hc Ha]; try done.
  unfold placeIds. rewrite Hpl, Hs.
  repeat split; try done.
  by rewrite evalAt_alerts, alertsFor_app, Hnone, Hc.
Qed.

(** The alert of the first entry is still shown at the re-entry: the
    sequence creates one alert. *)
Lemma reentry_shown :
  alertsFor (id p)
    (createdDuring (evaluation (cin, t1) ++ evaluation (cout, t2)
                      ++ evaluation (cback, t3)) st)
  = [alertOf t1 p].
Proof.
  destruct enter_state as (Hnd1 & Hin1 & Hs1 & Hc1 & Hal1 & Hset1).
  rewrite !createdDuring_app, !alertsFor_app, !run_evaluation.
  set (st1 := evalAt (cin, t1) st) in *.
  rewrite Hc1.
  destruct (evalAt_outside p Hactive (cout, t2) st1 Hnd1 Hin1 Hcout) as [-> _].
  destruct (evalAt_frame (cout, t2) st1) as [Hpl2 _].
  rewrite evalAt_shown; try done.
  - unfold placeIds. by rewrite Hpl2.
  - by rewrite Hpl2.
  - by rewrite evalAt_alerts, alertsFor_app, Hal1.
Qed.

(** The alert of the first entry is dismissed before the user leaves:
    the re-entry creates a second alert. *)
Lemma reentry_dismissed_inside :
  alertsFor (id p)
    (createdDuring (evaluation (cin, t1) ++ [EvDismissAlert (id p)]
                      ++ evaluation (cout, t2) ++ evaluation (cback, t3)) st)
  = [alertOf t1 p; alertOf t3 p].
Proof.
  destruct enter_state as (Hnd1 & Hin1 & Hs1 & Hc1 & Hal1 & Hset1).
  rewrite !createdDuring_app, !alertsFor_app, !run_evaluation.
  set (st1 := evalAt (cin, t1) st) in *.
  rewrite Hc1. simpl createdDuring at 1. simpl run.
  set (st2 := handleDismissAlert (id p) st1).
  assert (Hnd2 : NoDup (placeIds st2)) by done.
  assert (Hin2 : p ∈ places st2) by done.
  destruct (evalAt_outside p Hactive (cout, t2) st2 Hnd2 Hin2 Hcout) as [-> Hout].
  destruct (evalAt_frame (cout, t2) st2) as [Hpl3 Hs3].
  destruct (evalAt_armed_inside p Hactive (cback, t3) (evalAt (cout, t2) st2))
    as [-> _]; try done.
  - unfold placeIds. by rewrite Hpl3.
  - by rewrite Hpl3.
  - rewrite evalAt_alerts, alertsFor_app.
    destruct (evalAt_outside p Hactive (cout, t2) st2 Hnd2 Hin2 Hcout) as [-> _].
    subst st2. simpl. by rewrite alertsFor_filter_same.
  - rewrite Hs3. subst st2. simpl. by rewrite Hs1.
Qed.

(** The alert of the first entry is dismissed after the user has left. *)
Lemma reentry_dismissed_outside :
  alertsFor (id p)
    (createdDuring (evaluation (cin, t1) ++ evaluation (cout, t2)
                      ++ [EvDismissAlert (id p)] ++ evaluation (cback, t3)) st)
  = [alertOf t1 p; alertOf t3 p].
Proof.
  destruct enter_state as (Hnd1 & Hin1 & Hs1 & Hc1 & Hal1 & Hset1).
  rewrite !createdDuring_app, !alertsFor_app, !run_evaluation.
  set (st1 := evalAt (cin, t1) st) in *.
  rewrite Hc1. simpl (createdDuring [_] _). simpl (run [_] _).
  destruct (evalAt_outside p Hactive (cout, t2) st1 Hnd1 Hin1 Hcout) as [-> Hout].
  destruct (evalAt_frame (cout, t2) st1) as [Hpl2 Hs2].
  set (st3 := handleDismissAlert (id p) (evalAt (cout, t2) st1)).
  destruct (evalAt_armed_inside p Hactive (cback, t3) st3) as [-> _]; try done.
  - subst st3. unfold placeIds. simpl. by rewrite Hpl2.
  - subst st3. simpl. by rewrite Hpl2.
  - subst st3. simpl. by rewrite alertsFor_filter_same.
  - subst st3. simpl. by rewrite Hs2, Hs1.
Qed.

End ReentryFacts.

(** ** The distance *)

Section DistanceFacts.
Local Open Scope R_scope.

Lemma PI_bounds : 3.14158 < PI < 3.14160.
Proof.
  pose proof (PI_2_3_7_ineq 2) as [Hlo Hhi].
  unfold sum_f_R0, tg_alt, PI_2_3_7_tg, Ratan_seq in Hlo, Hhi.
  simpl in Hlo, Hhi. lra.
Qed.

Lemma atan2_0_1 : atan2 0 1 = 0.
Proof.
  unfold atan2. destruct (Rlt_dec 0 1) as [_|Hn]; [|lra].
  replace (0 / 1) with 0 by lra. apply atan_0.
Qed.

Lemma atan2_sin_cos (x : R) :
  - (PI / 2) < x < PI / 2 → atan2 (sin x) (cos x) = x.
Proof.
  intros Hx. unfold atan2.
  assert (Hcos : 0 < cos x) by (apply cos_gt_0; lra).
  destruct (Rlt_dec 0 (cos x)) as [_|Hn]; [|lra].
  change (sin x / cos x) with (tan x). by apply atan_tan.
Qed.

Lemma calculateDistance_sym (c1 c2 : Coordinate) :
  calculateDistance c1 c2 = calculateDistance c2 c1.
Proof.
  unfold calculateDistance.
  replace ((lat c1 - lat c2) * PI / 180 / 2)
    with (- ((lat c2 - lat c1) * PI / 180 / 2)) by lra.
  replace ((lng c1 - lng c2) * PI / 180 / 2)
    with (- ((lng c2 - lng c1) * PI / 180 / 2)) by lra.
  rewrite !sin_neg.
  set (s1 := sin ((lat c2 - lat c1) * PI / 180 / 2)).
  set (s2 := sin ((lng c2 - lng c1) * PI / 180 / 2)).
  replace (- s1 * - s1 + cos (lat c2 * PI / 180) * cos (lat c1 * PI / 180) * - s2 * - s2)
    with (s1 * s1 + cos (lat c1 * PI / 180) * cos (lat c2 * PI / 180) * s2 * s2)
    by ring.
  reflexivity.
Qed.

Lemma calculateDistance_diag (c : Coordinate) : calculateDistance c c = 0.
Proof.
  unfold calculateDistance.
  replace ((lat c - lat c) * PI / 180 / 2) with 0 by lra.
  replace ((lng c - lng c) * PI / 180 / 2) with 0 by lra.
  rewrite sin_0.
  replace (0 * 0 + cos (lat c * PI / 180) * cos (lat c * PI / 180) * 0 * 0)
    with 0 by ring.
  replace (1 - 0) with 1 by lra.
  rewrite sqrt_0, sqrt_1, atan2_0_1. ring.
Qed.

(** One degree of longitude on the equator. *)
Lemma calculateDistance_degree :
  calculateDistance {| lat := 0; lng := 0 |} {| lat := 0; lng := 1 |}
  = 6371000 * (PI / 180).
Proof.
  unfold calculateDistance. simpl.
  pose proof PI_bounds as HPI.
  replace ((0 - 0) * PI / 180 / 2) with 0 by lra.
  replace ((1 - 0) * PI / 180 / 2) with (PI / 360) by lra.
  replace (0 * PI / 180) with 0 by lra.
  rewrite sin_0, cos_0.
  assert (Hsin : 0 <= sin (PI / 360)).
  { apply sin_ge_0; lra. }
  assert (Hcos : 0 < cos (PI / 360)).
  { apply cos_gt_0; lra. }
  replace (0 * 0 + 1 * 1 * sin (PI / 360) * sin (PI / 360))
    with (sin (PI / 360) * sin (PI / 360)) by ring.
  replace (1 - sin (PI / 360) * sin (PI / 360))
    with (cos (PI / 360) * cos (PI / 360)).
  2:{ pose proof (sin2_cos2 (PI / 360)) as Hsc. unfold Rsqr in Hsc. lra. }
  rewrite !sqrt_square by lra.
  rewrite atan2_sin_cos by lra. lra.
Qed.

Lemma isInside_at (c : Coordinate) (p : Place) :
  location p = c → 0 <= radius p → isInside c p = true.
Proof.
  intros <- Hr. unfold isInside. rewrite calculateDistance_diag.
  by destruct (Rle_dec 0 (radius p)).
Qed.

Lemma isInside_degree_away (p : Place) :
  location p = {| lat := 0; lng := 0 |} → radius p < 111194 →
  isInside {| lat := 0; lng := 1 |} p = false.
Proof.
  intros Hl Hr. unfold isInside.
  rewrite Hl, calculateDistance_sym, calculateDistance_degree.
  pose proof PI_bounds as HPI.
  destruct (Rle_dec (6371000 * (PI / 180)) (radius p)); [lra|done].
Qed.

End DistanceFacts.

(** C9.  The distance, over the real numbers: it is symmetric, it is 0
    from a coordinate to itself, and from (0, 0) to (0, 1) it is
    6,371,000 * pi / 180 metres, the haversine value for one degree with
    the Earth radius 6,371,000, which is within one metre of 111,195. *)
Theorem C9_distance :
  (∀ A B : Coordinate, calculateDistance A B = calculateDistance B A) ∧
  (∀ A : Coordinate, calculateDistance A A = 0%R) ∧
  calculateDistance {| lat := 0; lng := 0 |} {| lat := 0; lng := 1 |}
    = (6371000 * (PI / 180))%R ∧
  (Rabs (calculateDistance {| lat := 0; lng := 0 |} {| lat := 0; lng := 1 |}
         - 111195) < 1)%R.
Proof.
  split; [exact calculateDistance_sym|].
  split; [exact calculateDistance_diag|].
  split; [exact calculateDistance_degree|].
  rewrite calculateDistance_degree. pose proof PI_bounds as HPI.
  apply Rabs_def1; lra.
Qed.

(** C2, with the dismissal of the first alert taken into account.
    Leaving and coming back.  Take a state with unique
    place identifiers and a place of it that is not completed, is armed
    and is outside any snooze window.  The user enters the radius (an
    evaluation creates an alert), leaves it (an evaluation runs), and
    enters it again (an evaluation runs).  With no user action in
    between, the alert of the first entry is still on the list at the
    re-entry and holds the second one back: one alert is created in
    all.  When the user dismisses the first alert before the re-entry,
    inside or outside the radius, two alerts are created in all. *)
Theorem C2_reentry `{Platform} (st : AppState) (p : Place)
    (cin cout cback : Coordinate) (t1 t2 t3 : Z) :
  NoDup (placeIds st) → p ∈ places st → isCompleted p = false →
  id p ∉ alertedPlaceIds st → alertsFor (id p) (activeAlerts st) = [] →
  isSnoozed (snoozedPlaceIds st) (id p) t1 = false →
  isSnoozed (snoozedPlaceIds st) (id p) t3 = false →
  isInside cin p = true → isInside cout p = false → isInside cback p = true →
  length (alertsFor (id p)
            (createdDuring (evaluation (cin, t1) ++ evaluation (cout, t2)
                              ++ evaluation (cback, t3)) st)) = 1 ∧
  length (alertsFor (id p)
            (createdDuring (evaluation (cin, t1) ++ [EvDismissAlert (id p)]
                              ++ evaluation (cout, t2)
                              ++ evaluation (cback, t3)) st)) = 2 ∧
  length (alertsFor (id p)
            (createdDuring (evaluation (cin, t1) ++ evaluation (cout, t2)
                              ++ [EvDismissAlert (id p)]
                              ++ evaluation (cback, t3)) st)) = 2.
Proof.
  intros Hnd Hin Hact Harmed Hnone Hsn1 Hsn3 Hcin Hcout Hcback.
  split; [|split].
  - by rewrite (reentry_shown p st cin cout cback t1 t2 t3).
  - by rewrite (reentry_dismissed_inside p st cin cout cback t1 t2 t3).
  - by rewrite (reentry_dismissed_outside p st cin cout cback t1 t2 t3).
Qed.

(** ** Snooze *)

Section SnoozeFacts.
Context `{Platform}.
Variables (T : Z) (pid : jsstring) (st : AppState).
Hypothesis HT : (0 ≤ T)%Z.

Lemma snooze_quiet : snoozedQuiet T pid st (handleSnoozeAlert T pid st).
Proof.
  unfold snoozedQuiet. simpl. split; [apply lookup_insert_eq|].
  split; [|split; [apply alertsFor_filter_same|done]].
  rewrite elem_of_difference, elem_of_singleton. tauto.
Qed.

Lemma quiet_no_fire (s : AppState) (ct : Coordinate * Z) (p : Place) :
  snoozedQuiet T pid st s → (snd ct < T + 300000)%Z → id p = pid →
  fires (snd ct) (fst ct) s p = false.
Proof.
  intros (Hs & _) Ht Hid. unfold fires, isSnoozed. rewrite Hid, Hs.
  replace (T + 300000 =? 0)%Z with false by (symmetry; apply Z.eqb_neq; lia).
  replace (snd ct <? T + 300000)%Z with true by (symmetry; apply Z.ltb_lt; lia).
  simpl. by rewrite andb_false_r.
Qed.

Lemma quiet_evalAt (s : AppState) (ct : Coordinate * Z) :
  snoozedQuiet T pid st s → (snd ct < T + 300000)%Z →
  alertsFor pid (createdDuring (evaluation ct) s) = [] ∧
  snoozedQuiet T pid st (evalAt ct s).
Proof.
  intros Hq Ht.
  assert (Hc : alertsFor pid (createdDuring (evaluation ct) s) = []).
  { apply alertsFor_created_none. intros p _ Hid. by apply quiet_no_fire. }
  split; [done|].
  destruct Hq as (Hs & Ha & Hn & Hp).
  destruct (evalAt_frame ct s) as [Hpl Hsn].
  unfold snoozedQuiet. rewrite Hsn, Hpl, evalAt_alerts, alertsFor_app, Hn, Hc.
  repeat split; try done.
  unfold evalAt, proximityCheck. simpl. intros Hin.
  apply fold_checkPlace_alerted_incl in Hin as [Hin|(p & _ & Hid & Hf)]; [done|].
  assert (fires (snd ct) (fst ct) s p = false) as Hnf.
  { apply quiet_no_fire; [|done..]. done. }
  unfold fires in *. simpl in *. congruence.
Qed.

Lemma quiet_evaluations (cts : list (Coordinate * Z)) (s : AppState) :
  snoozedQuiet T pid st s → Forall (λ ct, (snd ct < T + 300000)%Z) cts →
  alertsFor pid (createdDuring (evaluations cts) s) = [] ∧
  snoozedQuiet T pid st (run (evaluations cts) s).
Proof.
  revert s. induction cts as [|ct cts IH]; intros s Hq Hcts; [done|].
  apply Forall_cons in Hcts as [Hct Hcts].
  rewrite evaluations_cons, createdDuring_app, alertsFor_app, run_app,
    run_evaluation.
  destruct (quiet_evalAt s ct Hq Hct) as [-> Hq'].
  by apply IH.
Qed.

Lemma quiet_expired (s : AppState) (p : Place) (c : Coordinate) (t : Z) :
  snoozedQuiet T pid st s → p ∈ places st → id p = pid → isCompleted p = false →
  isInside c p = true → (T + 300000 ≤ t)%Z →
  alertOf t p ∈ createdDuring (evaluation (c, t)) s.
Proof.
  intros (Hs & Ha & Hn & Hp) Hin Hid Hact Hins Ht.
  rewrite created_evaluation. simpl.
  change (alertOf t p ∈ alertOf t <$> filter (λ q, fires t c s q = true) (places s)).
  apply list_elem_of_fmap_2, list_elem_of_filter. split; [|by rewrite Hp].
  unfold fires, isSnoozed. rewrite Hact, Hins, Hid, Hs.
  replace (t <? T + 300000)%Z with false by (symmetry; apply Z.ltb_ge; lia).
  rewrite andb_false_r. simpl.
  rewrite bool_decide_eq_false_2 by done. simpl.
  apply negb_true_iff. by apply alertActive_false.
Qed.

End SnoozeFacts.

(** C3.  Snooze, with the clock at or after the epoch ([0 <= T]).
    Snoozing the place [pid] at the time [T] records the expiry
    [T + 300000] for it, takes its alerts off the list and takes it out
    of the alerted-this-entry set.  Evaluations at times before the
    expiry, wherever the user is, create no alert for it; after any
    number of them, an evaluation at or after the expiry with the user
    inside the radius of a non-completed place with that identifier
    creates an alert for it. *)
Theorem C3_snooze `{Platform} (T : Z) (pid : jsstring) (st : AppState) :
  (0 ≤ T)%Z →
  let st' := handleSnoozeAlert T pid st in
  snoozedPlaceIds st' !! pid = Some (T + 300000)%Z ∧
  alertsFor pid (activeAlerts st') = [] ∧
  (pid ∉ alertedPlaceIds st') ∧
  (∀ cts, Forall (λ ct, (snd ct < T + 300000)%Z) cts →
     alertsFor pid (createdDuring (evaluations cts) st') = [] ∧
     ∀ p c t, p ∈ places st → id p = pid → isCompleted p = false →
       isInside c p = true → (T + 300000 ≤ t)%Z →
       alertOf t p ∈ createdDuring (evaluation (c, t)) (run (evaluations cts) st')).
Proof.
  intros HT st'.
  pose proof (snooze_quiet T pid st) as Hq. fold st' in Hq.
  pose proof Hq as (Hs & Ha & Hn & _).
  split; [done|]. split; [done|]. split; [done|].
  intros cts Hcts.
  destruct (quiet_evaluations T pid st HT cts st' Hq Hcts) as [Hnone Hq'].
  split; [done|]. intros p c t Hin Hid Hact Hins Ht.
  by apply (quiet_expired T pid st).
Qed.

(** ** The cleaning of a query *)

Section CleaningFacts.
Context `{Platform}.

Lemma searchPlaces_empty (net : jsstring → FetchOutcome) (query : jsstring)
    (userLoc : option Coordinate) :
  cleanQuery query = [] →
  searchPlaces net query userLoc
  = {| requests := []; console := []; outcome := Fulfilled [] |}.
Proof. intros Hq. unfold searchPlaces. by rewrite Hq. Qed.

End CleaningFacts.

(** C7.  The cleaning of a query.  "pizza near me" is cleaned to "pizza"
    and "nearby" to the empty string; a query that is cleaned to the
    empty string is answered with the empty list and no request.  But a
    filler that follows another filler stays: the match of the first one
    takes the white space that the second one needs in front of it.
    "pizza nearby near me" is cleaned to "pizza near me", and
    "nearby nearby" to "nearby", for which a request is sent. *)
Theorem C7_clean_query `{Platform} (net : jsstring → FetchOutcome)
    (userLoc : option Coordinate) (q : jsstring) :
  encodeURIComponent (str "nearby") = Some q →
  cleanQuery (str "pizza near me") = str "pizza" ∧
  cleanQuery (str "nearby") = [] ∧
  (∀ query, cleanQuery query = [] →
     searchPlaces net query userLoc
     = {| requests := []; console := []; outcome := Fulfilled [] |}) ∧
  cleanQuery (str "pizza nearby near me") = str "pizza near me" ∧
  cleanQuery (str "nearby nearby") = str "nearby" ∧
  requests (searchPlaces net (str "nearby nearby") None)
  = [str "https://photon.komoot.io/api/?q=" ++ q ++ str "&limit=10&lang=en"].
Proof.
  intros Henc.
  split; [reflexivity|]. split; [reflexivity|].
  split; [intros query; apply searchPlaces_empty|].
  split; [reflexivity|]. split; [reflexivity|].
  unfold searchPlaces.
  replace (cleanQuery (str "nearby nearby")) with (str "nearby") by reflexivity.
  rewrite Henc. simpl negb. cbv iota.
  match goal with |- context [net ?u] => destruct (net u) as [e| |r] end;
    [done|done|].
  destruct (negb (ok r)); [done|].
  destruct (json r) as [e| |[fs|]]; try done.
  by destruct (mapFeatures 0 fs).
Qed.

(** ** The session of [Scenario] *)

Section SessionFacts.
Import Scenario.

Lemma withCafe_places : places withCafe = [cafe].
Proof. reflexivity. Qed.

Lemma withCafe_unique : NoDup (placeIds withCafe).
Proof.
  unfold placeIds. rewrite withCafe_places. simpl.
  apply NoDup_cons. split; [apply not_elem_of_nil|apply NoDup_nil_2].
Qed.

Lemma withCafe_cafe : cafe ∈ places withCafe.
Proof. rewrite withCafe_places. left. Qed.

Lemma withCafe_armed :
  (id cafe ∉ alertedPlaceIds withCafe) ∧
  alertsFor (id cafe) (activeAlerts withCafe) = [] ∧
  snoozedPlaceIds withCafe = ∅.
Proof. split; [apply not_elem_of_empty|]. split; reflexivity. Qed.

Lemma withCafe_reachable : reachable (H := platform) withCafe.
Proof.
  change (reachable (H := platform)
            (handle (H := platform) (EvConfirmDraft 1700000000000 1700000000001)
               (handle (H := platform) (EvDraftName (str "  Cafe "))
                  (handle (H := platform) (EvMapClick origin) initialState)))).
  apply reachable_step; [|apply not_elem_of_nil].
  apply reachable_step; [|done].
  apply reachable_step; [|done].
  apply reachable_init.
Qed.

Lemma cafe_inside_origin : isInside origin cafe = true.
Proof. apply isInside_at; [done|]. simpl. lra. Qed.

Lemma cafe_outside_degreeEast : isInside degreeEast cafe = false.
Proof. apply isInside_degree_away; [done|]. simpl. lra. Qed.

Lemma alerted_places : places alerted = [cafe].
Proof.
  unfold alerted. rewrite (run_evaluation (H := platform)).
  destruct (evalAt_frame (origin, 1700000005000%Z) withCafe) as [-> _].
  apply withCafe_places.
Qed.

End SessionFacts.

(** ** The theorems at the session *)

Import Scenario.

Lemma C1_witness :
  length (alertsFor (id cafe)
            (createdDuring (H := platform)
               (evaluations [(origin, 1%Z); (origin, 2%Z); (origin, 3%Z)]) withCafe)) = 1
  ∧ alertsFor (id cafe)
      (createdDuring (H := platform)
         (evaluation (origin, 1%Z) ++ [EvDismissAlert (id cafe); EvProximity 2])
         withCafe) = [alertOf 1%Z cafe]
  ∧ length (alertsFor (id cafe) (activeAlerts withCafe)) ≤ 1.
Proof.
  destruct (C1_one_alert_per_stay (H := platform)) as (Hstay & _ & Hocc & Hone).
  destruct withCafe_armed as (Harmed & Hnone & _).
  split; [|split].
  - apply (Hstay withCafe cafe [(origin, 1%Z); (origin, 2%Z); (origin, 3%Z)]).
    + exact withCafe_unique.
    + exact withCafe_cafe.
    + reflexivity.
    + exact Harmed.
    + exact Hnone.
    + repeat (apply Forall_cons; split;
        [split; [exact cafe_inside_origin|reflexivity]|]).
      apply Forall_nil_2.
    + simpl. lia.
  - apply (Hocc withCafe cafe (origin, 1%Z)
             [EvDismissAlert (id cafe); EvProximity 2]).
    + exact withCafe_unique.
    + exact withCafe_cafe.
    + reflexivity.
    + exact Harmed.
    + exact Hnone.
    + exact cafe_inside_origin.
    + reflexivity.
    + split; [exact I|]. split; [|exact I].
      intros u q Hu Hq _ _.
      destruct (proximityCheck_frame 1 (setUserLocation (Some origin) withCafe))
        as (Hpl & Hul & _).
      change (userLocation (proximityCheck 1 (setUserLocation (Some origin) withCafe))
              = Some u) in Hu.
      change (q ∈ places (proximityCheck 1 (setUserLocation (Some origin) withCafe)))
        in Hq.
      rewrite Hul in Hu. rewrite Hpl in Hq.
      change (Some origin = Some u) in Hu. injection Hu as <-.
      change (q ∈ places withCafe) in Hq.
      rewrite withCafe_places in Hq. apply list_elem_of_singleton in Hq as ->.
      exact cafe_inside_origin.
  - apply Hone. exact withCafe_reachable.
Defined.

(** C2, as it is stated, fails at the session: the user enters the
    radius of the cafe (an alert is created), is one degree east at the
    next evaluation (outside the radius), and is back at the pin at the
    third one.  Nothing else happens, and one alert is created, not
    two. *)
Lemma C2_counterexample :
  cafe ∈ places withCafe ∧ isCompleted cafe = false ∧
  isInside origin cafe = true ∧ isInside degreeEast cafe = false ∧
  alertsFor (id cafe)
    (createdDuring (H := platform) (evaluation (origin, 1%Z)) withCafe)
  = [alertOf 1%Z cafe] ∧
  length (alertsFor (id cafe)
            (createdDuring (H := platform)
               (evaluation (origin, 1%Z) ++ evaluation (degreeEast, 2%Z)
                  ++ evaluation (origin, 3%Z)) withCafe)) ≠ 2.
Proof.
  split; [exact withCafe_cafe|]. split; [reflexivity|].
  split; [exact cafe_inside_origin|]. split; [exact cafe_outside_degreeEast|].
  destruct withCafe_armed as (Harmed & Hnone & _).
  split.
  - apply (enter_state (H := platform) cafe withCafe origin 1%Z
             withCafe_unique withCafe_cafe eq_refl Harmed Hnone eq_refl
             cafe_inside_origin).
  - rewrite (reentry_shown (H := platform) cafe withCafe origin degreeEast origin
               1%Z 2%Z 3%Z withCafe_unique withCafe_cafe eq_refl Harmed Hnone
               eq_refl cafe_inside_origin cafe_outside_degreeEast).
    simpl. lia.
Qed.

Lemma C2_witness :
  length (alertsFor (id cafe)
            (createdDuring (H := platform)
               (evaluation (origin, 1%Z) ++ evaluation (degreeEast, 2%Z)
                  ++ evaluation (origin, 3%Z)) withCafe)) = 1 ∧
  length (alertsFor (id cafe)
            (createdDuring (H := platform)
               (evaluation (origin, 1%Z) ++ [EvDismissAlert (id cafe)]
                  ++ evaluation (degreeEast, 2%Z)
                  ++ evaluation (origin, 3%Z)) withCafe)) = 2 ∧
  length (alertsFor (id cafe)
            (createdDuring (H := platform)
               (evaluation (origin, 1%Z) ++ evaluation (degreeEast, 2%Z)
                  ++ [EvDismissAlert (id cafe)]
                  ++ evaluation (origin, 3%Z)) withCafe)) = 2.
Proof.
  apply (C2_reentry (H := platform) withCafe cafe origin degreeEast origin 1%Z 2%Z 3%Z).
  - exact withCafe_unique.
  - exact withCafe_cafe.
  - reflexivity.
  - apply withCafe_armed.
  - apply withCafe_armed.
  - reflexivity.
  - reflexivity.
  - exact cafe_inside_origin.
  - exact cafe_outside_degreeEast.
  - exact cafe_inside_origin.
Defined.

Lemma C3_witness :
  snoozedPlaceIds (handleSnoozeAlert 1700000006000 (id cafe) alerted) !! id cafe
  = Some 1700000306000%Z ∧
  alertsFor (id cafe)
    (createdDuring (H := platform) (evaluations [(origin, 1700000246000%Z)])
       (handleSnoozeAlert 1700000006000 (id cafe) alerted)) = [] ∧
  alertOf 1700000366000%Z cafe
  ∈ createdDuring (H := platform) (evaluation (origin, 1700000366000%Z))
      (run (H := platform) (evaluations [(origin, 1700000246000%Z)])
         (handleSnoozeAlert 1700000006000 (id cafe) alerted)).
Proof.
  assert (H0 : (0 ≤ 1700000006000)%Z) by lia.
  destruct (C3_snooze (H := platform) 1700000006000 (id cafe) alerted H0)
    as (Hs & _ & _ & Hcts).
  split; [exact Hs|].
  destruct (Hcts [(origin, 1700000246000%Z)]) as [Hnone Hlater].
  { apply Forall_cons. split; [simpl; lia|apply Forall_nil_2]. }
  split; [exact Hnone|].
  apply Hlater.
  - rewrite alerted_places. left.
  - reflexivity.
  - reflexivity.
  - exact cafe_inside_origin.
  - lia.
Defined.

Lemma C4_witness :
  alertsFor (id cafe) (activeAlerts (handlePlaceMove (id cafe) degreeEast alerted)) = []
  ∧ (id cafe ∉ alertedPlaceIds (handlePlaceMove (id cafe) degreeEast alerted))
  ∧ snoozedPlaceIds (handlePlaceMove (id cafe) degreeEast alerted) !! id cafe = None.
Proof.
  destruct (C4_move_resets_place (id cafe) degreeEast alerted)
    as (_ & _ & _ & Ha & _ & Hs & _ & Hal & _).
  split; [exact Hal|]. split; [exact Ha|exact Hs].
Defined.

Lemma C5_witness :
  ∃ p, places withCafe = [p] ∧ name p = str "Cafe" ∧ notes p = Some [] ∧
    draftLocation withCafe = None ∧
    confirmDraft (H := platform) 1700000000002 1700000000003 withCafe = withCafe.
Proof.
  pose (st := run (H := platform) [EvMapClick origin; EvDraftName (str "  Cafe ")]
                initialState).
  assert (Hloc : draftLocation st = Some origin) by reflexivity.
  destruct (C5_confirm_draft (H := platform) 1700000000000 1700000000001 origin st Hloc)
    as ((p & Hp & _ & _ & _ & Hname & Hnote) & Hdl & _ & _ & Hagain).
  exists p. split; [exact Hp|]. split; [|split; [|split]].
  - apply (Hname (str "  ") (str "Cafe") (str " ")).
    + reflexivity.
    + repeat (apply Forall_cons; split; [reflexivity|]). apply Forall_nil_2.
    + repeat (apply Forall_cons; split; [reflexivity|]). apply Forall_nil_2.
    + split; intros c s' Heq.
      * injection Heq as <- _. reflexivity.
      * change (str "Cafe") with ([67; 97; 102]%N ++ [101%N]) in Heq.
        apply app_inj_tail in Heq as [_ <-]. reflexivity.
    + discriminate.
  - apply (Hnote [] [] []).
    + reflexivity.
    + apply Forall_nil_2.
    + apply Forall_nil_2.
    + split; intros c s' Heq; [discriminate|by destruct s'].
  - exact Hdl.
  - apply Hagain.
Defined.


Lemma C7_witness :
  cleanQuery (str "pizza nearby near me") = str "pizza near me" ∧
  requests (searchPlaces (H := platform) (λ _, FetchRejects AbortError)
              (str "nearby nearby") None)
  = [str "https://photon.komoot.io/api/?q=nearby&limit=10&lang=en"].
Proof.
  assert (Henc : encodeURIComponent (Platform := platform) (str "nearby")
                 = Some (str "nearby")) by reflexivity.
  destruct (C7_clean_query (H := platform) (λ _, FetchRejects AbortError) None
              (str "nearby") Henc) as (_ & _ & _ & Hkeep & _ & Hreq).
  split; [exact Hkeep|exact Hreq].
Defined.


Lemma C10_witness :
  places (handleDeleteTask (id cafe) alerted) = [] ∧
  activeAlerts (handleDeleteTask (id cafe) alerted) = activeAlerts alerted ∧
  ∀ a, a ∈ activeAlerts alerted →
    a ∈ activeAlerts
          (run (H := platform) (evaluation (origin, 1700000009000%Z))
             (handleDeleteTask (id cafe) alerted)).
Proof.
  destruct (C10_delete_frame (H := platform) (id cafe) alerted)
    as (Hpl & _ & _ & Hal & _ & _ & Hkeep).
  split; [|split; [exact Hal|]].
  - destruct (places (handleDeleteTask (id cafe) alerted)) as [|p ps] eqn:Hps;
      [reflexivity|].
    exfalso. assert (Hp : p ∈ p :: ps) by left.
    apply Hpl in Hp as [Hp Hne]. rewrite alerted_places in Hp.
    apply list_elem_of_singleton in Hp. by rewrite Hp in Hne.
  - intros a Ha. apply Hkeep; [exact Ha|].
    repeat (apply Forall_cons; split; [intros []|]). apply Forall_nil_2.
Defined.

(* ================================================================== *)
(** * Further properties of the controller *)
(* ================================================================== *)

Section AlertListFacts.
Context `{Platform}.

(** An alert on the list after an event was there before or was created
    by the event. *)
Lemma handle_alert_origin (ev : Event) (st : AppState) (a : Alert) :
  a ∈ activeAlerts (handle ev st) → a ∈ activeAlerts st ∨ a ∈ createdBy ev st.
Proof.
  destruct ev; simpl; try (by left).
  - rewrite proximityCheck_alerts, elem_of_app. tauto.
  - unfold handleSearch. destruct (outcome _); by left.
  - unfold confirmDraft, handleConfirmDraft. destruct (draftLocation st); by left.
  - rewrite list_elem_of_filter. intros [_ ?]. by left.
  - unfold handleDeleteTask. destruct (bool_decide _); by left.
  - rewrite list_elem_of_filter. intros [_ ?]. by left.
  - rewrite list_elem_of_filter. intros [_ ?]. by left.
  - unfold enrichmentSettled, applyEnhancement. destruct r as [[?|]|]; by left.
Qed.

Lemma run_alert_origin (evs : list Event) (st : AppState) (a : Alert) :
  a ∈ activeAlerts (run evs st) →
  a ∈ activeAlerts st ∨ a ∈ createdDuring evs st.
Proof.
  revert st. induction evs as [|ev evs IH]; intros st; [by left|].
  simpl. intros Ha. apply IH in Ha as [Ha|Ha].
  - apply handle_alert_origin in Ha as [Ha|Ha]; [by left|].
    right. apply elem_of_app. by left.
  - right. apply elem_of_app. by right.
Qed.

Lemma alertsFor_nil_elem (pid : jsstring) (alerts : list Alert) :
  alertsFor pid alerts = [] ↔ ∀ a, a ∈ alerts → placeId a ≠ pid.
Proof.
  unfold alertsFor. split.
  - intros Hnil a Ha Hid.
    assert (Hin : a ∈ filter (λ a, placeId a = pid) alerts)
      by (by apply list_elem_of_filter).
    rewrite Hnil in Hin. by apply not_elem_of_nil in Hin.
  - intros Hall. destruct (filter _ alerts) as [|a l] eqn:Hf; [done|].
    assert (Hin : a ∈ filter (λ a, placeId a = pid) alerts)
      by (rewrite Hf; left).
    apply list_elem_of_filter in Hin as [Hid Hin]. by destruct (Hall a Hin).
Qed.

(** What a run of the effect creates, and why. *)
Lemma elem_of_created (now : Z) (st : AppState) (a : Alert) :
  a ∈ created now st ↔
  ∃ u p, userLocation st = Some u ∧ p ∈ places st ∧ a = alertOf now p
         ∧ fires now u st p = true.
Proof.
  destruct (userLocation st) as [u|] eqn:Hu.
  - rewrite (created_located _ _ _ Hu).
    change (map ?f ?l) with (f <$> l). rewrite list_elem_of_fmap. split.
    + intros (p & -> & Hp). apply list_elem_of_filter in Hp as [Hf Hp].
      by exists u, p.
    + intros (u' & p & Hu' & Hp & -> & Hf). injection Hu' as <-.
      exists p. split; [done|]. by apply list_elem_of_filter.
  - unfold created, proximityCheck. rewrite Hu, drop_all. split.
    + intros Hin. by apply not_elem_of_nil in Hin.
    + by intros (u & p & Hu' & _).
Qed.

Lemma fires_spec (now : Z) (u : Coordinate) (st : AppState) (p : Place) :
  fires now u st p = true ↔
  isCompleted p = false ∧ isInside u p = true
  ∧ isSnoozed (snoozedPlaceIds st) (id p) now = false
  ∧ (id p ∉ alertedPlaceIds st)
  ∧ alertsFor (id p) (activeAlerts st) = [].
Proof.
  unfold fires. rewrite !andb_true_iff, !negb_true_iff, alertActive_false.
  rewrite bool_decide_eq_false. tauto.
Qed.

Lemma checkPlace_idle (now : Z) (u : Coordinate) (snap pending : AppState)
    (p : Place) :
  fires now u snap p = false → clears u snap p = false →
  checkPlace now u snap pending p = pending.
Proof.
  unfold fires, clears, checkPlace.
  destruct (isCompleted p), (isInside u p),
    (isSnoozed (snoozedPlaceIds snap) (id p) now),
    (bool_decide (id p ∈ alertedPlaceIds snap)),
    (alertActive (activeAlerts snap) (id p)); simpl; done.
Qed.

Lemma fold_checkPlace_idle (now : Z) (u : Coordinate) (snap pending : AppState)
    (ps : list Place) :
  (∀ p, p ∈ ps → fires now u snap p = false ∧ clears u snap p = false) →
  fold_left (checkPlace now u snap) ps pending = pending.
Proof.
  induction ps as [|p ps IH]; intros Hidle; [done|].
  simpl. destruct (Hidle p) as [Hf Hc]; [left|].
  rewrite checkPlace_idle by done. apply IH.
  intros q Hq. apply Hidle. by right.
Qed.

(** Places whose step neither creates an alert nor clears the flag do
    not touch the membership of their identifier. *)
Lemma fold_checkPlace_alerted_idle (now : Z) (u : Coordinate)
    (snap pending : AppState) (pid : jsstring) (ps : list Place) :
  (∀ p, p ∈ ps → id p = pid →
     fires now u snap p = false ∧ clears u snap p = false) →
  (pid ∈ alertedPlaceIds (fold_left (checkPlace now u snap) ps pending)
   ↔ pid ∈ alertedPlaceIds pending).
Proof.
  revert pending. induction ps as [|p ps IH]; intros pending Hidle; [done|].
  simpl. rewrite IH by (intros q Hq; apply Hidle; by right).
  rewrite checkPlace_alerted.
  destruct (decide (id p = pid)) as [Hid|Hne].
  - destruct (Hidle p) as [-> ->]; [left|done|done].
  - destruct (fires now u snap p); [|destruct (clears u snap p)].
    + rewrite elem_of_union, elem_of_singleton. intuition congruence.
    + rewrite elem_of_difference, elem_of_singleton. intuition congruence.
    + done.
Qed.

End AlertListFacts.

(** X1.  Dismissing does not re-arm.  When the place [pid] has alerted
    during this entry, dismissing its alert takes the alert off the list
    and leaves the place in the alerted-this-entry set: whatever happens
    next, as long as the user is inside the radius whenever the effect
    runs and nothing snoozes or moves the place, no alert is created for
    it and none of it is on the list. *)
Theorem X1_dismiss_does_not_rearm `{Platform} (pid : jsstring) (st : AppState)
    (evs : list Event) :
  pid ∈ alertedPlaceIds st →
  staysInside pid evs (handleDismissAlert pid st) →
  alertsFor pid (activeAlerts (handleDismissAlert pid st)) = [] ∧
  pid ∈ alertedPlaceIds (handleDismissAlert pid st) ∧
  alertsFor pid (createdDuring evs (handleDismissAlert pid st)) = [] ∧
  alertsFor pid (activeAlerts (run evs (handleDismissAlert pid st))) = [].
Proof.
  intros Hal Hstay.
  assert (Hgone : alertsFor pid (activeAlerts (handleDismissAlert pid st)) = [])
    by apply alertsFor_filter_same.
  assert (Hnew : alertsFor pid (createdDuring evs (handleDismissAlert pid st)) = [])
    by (by apply occupancy_alerted).
  repeat split; try done.
  apply alertsFor_nil_elem. intros a Ha.
  apply run_alert_origin in Ha as [Ha|Ha].
  - by apply (proj1 (alertsFor_nil_elem pid _) Hgone).
  - by apply (proj1 (alertsFor_nil_elem pid _) Hnew).
Qed.

(** X2.  Every alert has a cause, and every cause has its alert.  A run
    of the effect at the time [now] creates the alert [a] exactly when
    the user location is known and [a] is the alert ("You are near
    <name>!", stamped [now]) of a place of the collection that is not
    completed, has the user inside its radius, is outside a snooze
    window, has not alerted during this entry and has no alert on the
    list. *)
Theorem X2_alert_iff_cause (now : Z) (st : AppState) (a : Alert) :
  a ∈ created now st ↔
  ∃ u p, userLocation st = Some u ∧ p ∈ places st ∧
    a = {| placeId := id p;
           message := str "You are near " ++ name p ++ str "!";
           timestamp := now |} ∧
    isCompleted p = false ∧ isInside u p = true ∧
    isSnoozed (snoozedPlaceIds st) (id p) now = false ∧
    (id p ∉ alertedPlaceIds st) ∧
    alertsFor (id p) (activeAlerts st) = [].
Proof.
  rewrite elem_of_created. split.
  - intros (u & p & Hu & Hp & -> & Hf). apply fires_spec in Hf.
    exists u, p. tauto.
  - intros (u & p & Hu & Hp & -> & Hf). exists u, p.
    repeat split; try done. by apply fires_spec.
Qed.

(** X3.  The effect settles after one run.  Its own updates of the alert
    list and of the alerted-this-entry set make it run again; with unique
    place identifiers, a second run at a time that leaves every place on
    the same side of its snooze expiry changes nothing. *)
Theorem X3_effect_settles (now now' : Z) (st : AppState) :
  NoDup (placeIds st) →
  (∀ p, p ∈ places st →
     isSnoozed (snoozedPlaceIds st) (id p) now'
     = isSnoozed (snoozedPlaceIds st) (id p) now) →
  proximityCheck now' (proximityCheck now st) = proximityCheck now st.
Proof.
  intros Hnd Hsn.
  destruct (proximityCheck_frame now st) as (Hpl & Hul & _ & Hs & _).
  destruct (userLocation st) as [u|] eqn:Hu.
  2:{ unfold proximityCheck at 1. by rewrite Hul. }
  unfold proximityCheck at 1. rewrite Hul, Hpl.
  apply fold_checkPlace_idle. intros p Hp.
  assert (Hmem : id p ∈ alertedPlaceIds (proximityCheck now st)
                 ↔ fires now u st p = true
                   ∨ (clears u st p = false ∧ id p ∈ alertedPlaceIds st)).
  { unfold proximityCheck. rewrite Hu.
    by apply (fold_checkPlace_alerted_at now u st p). }
  split.
  - apply not_true_is_false. intros Hf. apply fires_spec in Hf.
    destruct Hf as (Hc & Hin & Hsn' & Hna & Hno).
    rewrite Hs, Hsn in Hsn' by done.
    rewrite proximityCheck_alerts, alertsFor_app in Hno.
    apply app_eq_nil in Hno as [Hno _].
    assert (Hnf : fires now u st p ≠ true).
    { intros Hf. apply Hna, Hmem. by left. }
    assert (Hcl : clears u st p = false).
    { unfold clears. rewrite Hin. simpl. by rewrite andb_false_r. }
    apply Hnf, fires_spec. repeat split; try done.
    intros Hal. apply Hna, Hmem. by right.
  - apply not_true_is_false. unfold clears at 1.
    rewrite !andb_true_iff, !negb_true_iff, bool_decide_eq_true.
    intros [[Hc Hout] Hal]. apply Hmem in Hal as [Hf|[Hcl Hal]].
    + apply fires_spec in Hf. destruct Hf as (_ & Hin & _). congruence.
    + unfold clears in Hcl. rewrite Hc, Hout in Hcl. simpl in Hcl.
      by rewrite (bool_decide_eq_true_2 _ Hal) in Hcl.
Qed.

Section CollectionUpdateFacts.
Context `{Platform}.

Lemma map_id_ext {A} (f : A → A) (l : list A) :
  (∀ x, x ∈ l → f x = x) → map f l = l.
Proof.
  induction l as [|x l IH]; intros Hf; [done|].
  simpl. rewrite Hf by left. f_equal. apply IH. intros y Hy. apply Hf. by right.
Qed.

Lemma map_if_absent (pid : jsstring) (f : Place → Place) (ps : list Place) :
  pid ∉ map id ps →
  map (λ q, if bool_decide (id q = pid) then f q else q) ps = ps.
Proof.
  intros Hnot. apply map_id_ext. intros q Hq.
  rewrite bool_decide_eq_false_2; [done|]. intros Hid. apply Hnot.
  rewrite <- Hid. change (id q ∈ id <$> ps). by apply list_elem_of_fmap_2.
Qed.

Lemma filter_absent (pid : jsstring) (ps : list Place) :
  pid ∉ map id ps → filter (λ p, id p ≠ pid) ps = ps.
Proof.
  induction ps as [|p ps IH]; [done|].
  simpl. rewrite not_elem_of_cons. intros [Hne Hnot].
  rewrite filter_cons. destruct (decide (id p ≠ pid)) as [_|Hn].
  - by rewrite IH.
  - exfalso. apply Hn. congruence.
Qed.

Lemma setPlaces_same (f : list Place → list Place) (st : AppState) :
  f (places st) = places st → setPlaces f st = st.
Proof. intros Hf. destruct st. unfold setPlaces. simpl in *. by rewrite Hf. Qed.

Lemma deleted_absent (pid : jsstring) (st : AppState) :
  pid ∉ placeIds (handleDeleteTask pid st).
Proof.
  assert (Hpl : places (handleDeleteTask pid st)
                = filter (λ p, id p ≠ pid) (places st)).
  { unfold handleDeleteTask. by destruct (bool_decide _). }
  unfold placeIds. rewrite Hpl. intros Hin.
  change (pid ∈ id <$> filter (λ p, id p ≠ pid) (places st)) in Hin.
  apply list_elem_of_fmap in Hin as (p & -> & Hp).
  by apply list_elem_of_filter in Hp as [Hne _].
Qed.

End CollectionUpdateFacts.

(** X4.  A place added where the user stands alerts at once.  When the
    user location is known, identifiers are unique, and a place is added
    at that location under an identifier that is new to the collection,
    to the alerted-this-entry set, to the alert list and to the snooze
    windows, the next run of the effect creates one alert for it
    ("You are near <name>!"): the distance is 0 and the radius is 200. *)
Theorem X4_new_place_alerts `{Platform} (tId tCreated now : Z) (u : Coordinate)
    (nm : jsstring) (userNotes givenId : option jsstring) (st : AppState) :
  let added := handleAddPlace tId tCreated u nm userNotes givenId st in
  userLocation st = Some u → NoDup (placeIds st) →
  newId added ∉ placeIds st → newId added ∉ alertedPlaceIds st →
  alertsFor (newId added) (activeAlerts st) = [] →
  isSnoozed (snoozedPlaceIds st) (newId added) now = false →
  alertsFor (newId added) (created now (after added))
  = [{| placeId := newId added;
        message := str "You are near " ++ nm ++ str "!";
        timestamp := now |}].
Proof.
  intros added Hu Hnd Hfresh Hna Hno Hsn.
  rewrite (created_located now (after added) u Hu).
  set (p := {| id := newId added; name := nm; location := u; category := Generic;
               radius := PROXIMITY_THRESHOLD_METERS;
               notes := Some (prop_or userNotes []); isCompleted := false;
               createdAt := tCreated; listId := None |}).
  change (places (after added)) with (p :: places st).
  change (newId added) with (id p).
  rewrite (alertsFor_created_at now (λ q, fires now u (after added) q) p).
  - assert (Hf : fires now u (after added) p = true).
    { apply fires_spec. repeat split; try done.
      apply isInside_at; [done|]. simpl. unfold PROXIMITY_THRESHOLD_METERS. lra. }
    by rewrite Hf.
  - simpl. apply NoDup_cons. by split.
  - left.
Qed.

(** X5.  Completed places are left alone.  With unique identifiers,
    marking a non-completed place as done makes the effect skip it: an
    evaluation creates no alert for it and does not change whether it is
    in the alerted-this-entry set, wherever the user is (so a flag set
    before the place was completed is still set when it is re-opened).
    Marking it active again brings the state back. *)
Theorem X5_completed_is_skipped `{Platform} (st : AppState) (p : Place)
    (ct : Coordinate * Z) :
  NoDup (placeIds st) → p ∈ places st → isCompleted p = false →
  let st' := handleToggleTask (id p) st in
  alertsFor (id p) (createdDuring (evaluation ct) st') = [] ∧
  (id p ∈ alertedPlaceIds (evalAt ct st') ↔ id p ∈ alertedPlaceIds st) ∧
  handleToggleTask (id p) st' = st.
Proof.
  intros Hnd Hin Hact st'.
  assert (Hdone : ∀ q, q ∈ places st' → id q = id p → isCompleted q = true).
  { intros q Hq Hid. subst st'. simpl in Hq.
    change (map ?f ?l) with (f <$> l) in Hq.
    apply list_elem_of_fmap in Hq as (q0 & -> & Hq0).
    destruct (bool_decide (id q0 = id p)) eqn:Hb.
    - apply bool_decide_eq_true in Hb.
      assert (q0 = p) as ->.
      { apply list_elem_of_split in Hin as (l1 & l2 & Hl).
        unfold placeIds in Hnd. rewrite Hl in Hnd, Hq0.
        rewrite map_app in Hnd. simpl in Hnd.
        apply NoDup_app in Hnd as (_ & Hl1 & Hnd).
        apply NoDup_cons in Hnd as [Hl2 _].
        apply elem_of_app in Hq0 as [Hq0|Hq0].
        - exfalso. apply (Hl1 (id q0)).
          + change (id q0 ∈ id <$> l1). by apply list_elem_of_fmap_2.
          + rewrite Hb. left.
        - apply elem_of_cons in Hq0 as [?|Hq0]; [done|].
          exfalso. apply Hl2. rewrite <- Hb.
          change (id q0 ∈ id <$> l2). by apply list_elem_of_fmap_2. }
      simpl. by rewrite Hact.
    - apply bool_decide_eq_false in Hb. done. }
  assert (Hidle : ∀ u now q, q ∈ places st' → id q = id p →
            fires now u st' q = false ∧ clears u st' q = false).
  { intros u now q Hq Hid. unfold fires, clears. by rewrite (Hdone q Hq Hid). }
  split; [|split].
  - apply alertsFor_created_none. intros q Hq Hid. by apply Hidle.
  - unfold evalAt, proximityCheck. simpl userLocation. cbv iota.
    rewrite fold_checkPlace_alerted_idle; [done|].
    intros q Hq Hid. by apply (Hidle (fst ct) (snd ct)).
  - subst st'. unfold handleToggleTask. destruct st as [ps ? ? ? ? ? ? ? ? ?].
    unfold setPlaces. simpl. f_equal. rewrite map_map. apply map_id_ext.
    intros q _. destruct (bool_decide (id q = id p)) eqn:Hb; simpl.
    + rewrite Hb. destruct q. unfold withIsCompleted. simpl.
      by rewrite negb_involutive.
    + by rewrite Hb.
Qed.

(** X6.  An identifier that no place has.  A move, a toggle, an update or
    a deletion addressed to an identifier that is not in the collection
    leaves the collection as it is. *)
Theorem X6_unknown_identifier (pid : jsstring) (c : Coordinate)
    (updates : PlaceUpdates) (st : AppState) :
  pid ∉ placeIds st →
  places (handlePlaceMove pid c st) = places st ∧
  handleToggleTask pid st = st ∧
  handleUpdatePlace pid updates st = st ∧
  places (handleDeleteTask pid st) = places st.
Proof.
  intros Hnot. unfold placeIds in Hnot. repeat split.
  - simpl. by apply map_if_absent.
  - apply setPlaces_same. by apply map_if_absent.
  - apply setPlaces_same. by apply map_if_absent.
  - unfold handleDeleteTask. destruct (bool_decide _); simpl; by apply filter_absent.
Qed.

(** X7.  The background enrichment never brings a place back and never
    touches what the user can see of the others.  When the place was
    deleted before the request settles, the callback changes nothing.
    In any case it keeps the number and the order of the places and, of
    every place, the identifier, the name, the location, the radius, the
    completion flag and the creation time; places with another
    identifier are unchanged. *)
Theorem X7_enrichment_frame (e : Enrichment) (r : Settled (option Suggestion))
    (st : AppState) :
  enrichmentSettled e r (handleDeleteTask (enrichedId e) st)
    = handleDeleteTask (enrichedId e) st ∧
  length (places (enrichmentSettled e r st)) = length (places st) ∧
  (∀ i p, places st !! i = Some p →
     ∃ p', places (enrichmentSettled e r st) !! i = Some p' ∧
       id p' = id p ∧ name p' = name p ∧ location p' = location p ∧
       radius p' = radius p ∧ isCompleted p' = isCompleted p ∧
       createdAt p' = createdAt p ∧
       (id p ≠ enrichedId e → p' = p)) ∧
  activeAlerts (enrichmentSettled e r st) = activeAlerts st ∧
  alertedPlaceIds (enrichmentSettled e r st) = alertedPlaceIds st ∧
  snoozedPlaceIds (enrichmentSettled e r st) = snoozedPlaceIds st.
Proof.
  split; [|split; [|split]].
  - destruct r as [[enh|]|]; try done. simpl.
    apply setPlaces_same, map_if_absent. apply deleted_absent.
  - destruct r as [[enh|]|]; try done. simpl. apply length_map.
  - intros i p Hi. destruct r as [[enh|]|]; simpl; try (by exists p).
    rewrite (map_if_lookup _ _ _ _ _ Hi).
    destruct (bool_decide (id p = enrichedId e)) eqn:Hb.
    + eexists. split; [done|]. simpl. repeat split; try done.
      apply bool_decide_eq_true in Hb. done.
    + by exists p.
  - by destruct r as [[enh|]|].
Qed.

(* ================================================================== *)
(** * Further properties of the strings and of the search *)
(* ================================================================== *)

Import Occurrence GeminiItinerary Views.

Section TrimFacts.

Lemma trimStart_head (s : jsstring) (c : N) (s' : jsstring) :
  trimStart s = c :: s' → isWhiteSpace c = false.
Proof.
  induction s as [|d s IH]; [done|].
  simpl. destruct (isWhiteSpace d) eqn:Hd; [done|].
  intros Heq. injection Heq as <- _. done.
Qed.

Lemma trimStart_snoc (l : jsstring) (d : N) :
  isWhiteSpace d = false → trimStart (l ++ [d]) = trimStart l ++ [d].
Proof.
  intros Hd. induction l as [|x l IH]; simpl.
  - by rewrite Hd.
  - by destruct (isWhiteSpace x).
Qed.

Lemma trim_tight (s : jsstring) : tight (trim s).
Proof.
  unfold trim, trimEnd. split.
  - intros c s' Heq.
    destruct (trimStart s) as [|d t] eqn:Ht; [done|].
    pose proof (trimStart_head s d t Ht) as Hd.
    simpl rev in Heq. rewrite trimStart_snoc in Heq by done.
    rewrite rev_app_distr in Heq. simpl in Heq. by injection Heq as <- _.
  - intros c s' Heq.
    apply (f_equal (@rev N)) in Heq.
    rewrite rev_involutive, rev_app_distr in Heq. simpl in Heq.
    by apply trimStart_head in Heq.
Qed.

Lemma trim_idempotent (s : jsstring) : trim (trim s) = trim s.
Proof.
  pose proof (trim_padded [] (trim s) [] (Forall_nil_2 _) (Forall_nil_2 _)
                (trim_tight s)) as Hp.
  simpl in Hp. by rewrite app_nil_r in Hp.
Qed.

Lemma newPlace_tight : tight (str "New Place").
Proof.
  split; intros c s' Heq.
  - by injection Heq as <- _.
  - change (str "New Place") with (str "New Plac" ++ [101%N]) in Heq.
    by apply app_inj_tail in Heq as [_ <-].
Qed.

End TrimFacts.

(** X8.  What a confirmed draft looks like.  Whatever was typed, the
    place that a confirmation creates has a name that is not empty and
    has no white space at either end, notes that are present and have no
    white space at either end, the identifier read from the clock, the
    category Generic, the radius 200, and is not completed. *)
Theorem X8_confirmed_place_is_clean `{Platform} (tId tCreated : Z)
    (loc : Coordinate) (st : AppState) :
  draftLocation st = Some loc →
  ∃ p m, places (confirmDraft tId tCreated st) = p :: places st ∧
    name p ≠ [] ∧ tight (name p) ∧
    notes p = Some m ∧ tight m ∧
    id p = numberToString tId ∧ createdAt p = tCreated ∧
    category p = Generic ∧ radius p = 200%R ∧ isCompleted p = false.
Proof.
  intros Hloc. unfold confirmDraft, handleConfirmDraft. rewrite Hloc. simpl.
  eexists. exists (trim (draftNote st)).
  split; [reflexivity|]. simpl.
  split; [unfold or_else; by destruct (trim (draftName st))|].
  split.
  { unfold or_else. destruct (truthy (trim (draftName st)));
      [apply trim_tight|apply newPlace_tight]. }
  split; [unfold prop_or, present; by destruct (trim (draftNote st))|].
  split; [apply trim_tight|]. done.
Qed.

Section FillerFacts.

Lemma literal_app (w1 w2 s r : jsstring) :
  literal (w1 ++ w2) s = Some r → ∃ r', literal w1 s = Some r'.
Proof.
  revert s. induction w1 as [|a w1 IH]; intros s; [by exists s|].
  simpl. destruct s as [|c s]; [done|].
  destruct (canonicalize a =? canonicalize c)%N; [apply IH|done].
Qed.

Lemma literal_app_none (w1 w2 s : jsstring) :
  literal w1 s = None → literal (w1 ++ w2) s = None.
Proof.
  intros Hnone. destruct (literal (w1 ++ w2) s) as [r|] eqn:Hl; [|done].
  apply literal_app in Hl as [r' Hr']. congruence.
Qed.

Lemma occursCI_false (w s : jsstring) :
  occursCI w s = false →
  literal w s = None ∧ ∀ c s', s = c :: s' → occursCI w s' = false.
Proof.
  destruct s as [|c s]; simpl; destruct (literal w _); try done.
  intros Ho. split; [done|]. intros c' s' Heq. by injection Heq as _ <-.
Qed.

(** Neither "near" nor "closest" occurs in the string. *)
Lemma no_filler_tail (c : N) (s : jsstring) :
  occursCI (str "near") (c :: s) = false ∧ occursCI (str "closest") (c :: s) = false →
  occursCI (str "near") s = false ∧ occursCI (str "closest") s = false.
Proof.
  intros [Hn Hc].
  apply occursCI_false in Hn as [_ Hn]. apply occursCI_false in Hc as [_ Hc].
  split; eauto.
Qed.

(** The second group of the pattern fails where no filler starts. *)
Lemma phrase_fails {X} (pos : nat) (s : jsstring) (k : nat → jsstring → option X) :
  occursCI (str "near") s = false ∧ occursCI (str "closest") s = false →
  rmatch (RAlt (RLit (str "near me"))
            (RAlt (RLit (str "nearby"))
               (RAlt (RLit (str "closest")) (RLit (str "near"))))) pos s k = None.
Proof.
  intros [Hn Hc].
  apply occursCI_false in Hn as [Hn _]. apply occursCI_false in Hc as [Hc _].
  cbn [rmatch].
  change (str "near me") with (str "near" ++ str " me").
  change (str "nearby") with (str "near" ++ str "by").
  by rewrite !literal_app_none, Hc, Hn.
Qed.

Lemma spaces_fails {X} (pos : nat) (s : jsstring) (k : nat → jsstring → option X) :
  (∀ p s', occursCI (str "near") s' = false ∧ occursCI (str "closest") s' = false →
           k p s' = None) →
  occursCI (str "near") s = false ∧ occursCI (str "closest") s = false →
  spaces pos s k = None.
Proof.
  intros Hk. revert pos. induction s as [|c s IH]; intros pos Hs; [done|].
  simpl. destruct (isWhiteSpace c); [|done].
  apply no_filler_tail in Hs. rewrite IH by done. by apply Hk.
Qed.

Lemma fillerPattern_unfold {X} (pos : nat) (s : jsstring)
    (k : nat → jsstring → option X) :
  rmatch fillerPattern pos s k
  = let rest := λ p s',
      rmatch (RAlt (RLit (str "near me"))
                (RAlt (RLit (str "nearby"))
                   (RAlt (RLit (str "closest")) (RLit (str "near"))))) p s'
        (λ p' s'', rmatch (RAlt RSpaces REnd) p' s'' k) in
    match spaces pos s rest with
    | Some x => Some x
    | None => if Nat.eqb pos 0 then rest pos s else None
    end.
Proof. reflexivity. Qed.

Lemma matchAt_no_filler (pos : nat) (s : jsstring) :
  occursCI (str "near") s = false ∧ occursCI (str "closest") s = false →
  matchAt fillerPattern pos s = None.
Proof.
  intros Hs. unfold matchAt. rewrite fillerPattern_unfold. cbv zeta.
  rewrite spaces_fails; [|intros p s' Hs'; by apply phrase_fails|done].
  destruct (Nat.eqb pos 0); [|done]. by apply phrase_fails.
Qed.

Lemma replaceFrom_no_filler (fuel pos : nat) (by_ s : jsstring) :
  occursCI (str "near") s = false ∧ occursCI (str "closest") s = false →
  replaceFrom fuel fillerPattern by_ pos s = s.
Proof.
  revert pos s. induction fuel as [|fuel IH]; intros pos s Hs; [done|].
  simpl. rewrite matchAt_no_filler by done.
  destruct s as [|c s]; [done|].
  apply no_filler_tail in Hs. by rewrite IH.
Qed.

End FillerFacts.

(** X9.  Queries without a filler are only trimmed.  All four fillers
    start with "near" or are "closest": a query in which neither word
    occurs, in any case of its letters, reaches the provider as it was
    typed, less the white space at its ends.  And whatever the query, the
    cleaned query has no white space at either end. *)
Theorem X9_plain_query_is_trimmed (query : jsstring) :
  (occursCI (str "near") query = false →
   occursCI (str "closest") query = false →
   cleanQuery query = trim query) ∧
  tight (cleanQuery query).
Proof.
  split; [|apply trim_tight].
  intros Hn Hc. unfold cleanQuery, replaceAll.
  by rewrite replaceFrom_no_filler.
Qed.

Section FeatureFacts.
Context `{Platform}.

Lemma mapFeature_coordinates (rnd : R) (f : Feature) :
  (∃ r, mapFeature rnd f = inr r) ↔ 2 ≤ length (coordinates f).
Proof.
  unfold mapFeature. destruct (coordinates f) as [|c0 [|c1 cs]]; simpl.
  - split; [by intros [r ?]|lia].
  - split; [by intros [r ?]|lia].
  - split; [lia|]. intros _. by eexists.
Qed.

Lemma mapFeature_throws (rnd : R) (f : Feature) :
  length (coordinates f) < 2 → mapFeature rnd f = inl TypeError.
Proof.
  unfold mapFeature. destruct (coordinates f) as [|c0 [|c1 cs]]; simpl;
    [done|done|lia].
Qed.

Lemma mapFeatures_results (i : nat) (fs : list Feature) (rs : list SearchResult) :
  mapFeatures i fs = inr rs →
  length rs = length fs ∧
  ∀ j f, fs !! j = Some f →
    ∃ r, rs !! j = Some r ∧ mapFeature (mathRandom (i + j)) f = inr r.
Proof.
  revert i rs. induction fs as [|f fs IH]; intros i rs.
  - simpl. intros [= <-]. split; [done|]. intros j f Hj. done.
  - simpl. destruct (mapFeature (mathRandom i) f) as [e|r] eqn:Hf; [done|].
    destruct (mapFeatures (S i) fs) as [e|rs'] eqn:Hfs; [done|].
    intros [= <-]. destruct (IH (S i) rs' Hfs) as [Hlen Hall].
    split; [simpl; by rewrite Hlen|].
    intros [|j] g Hj; simpl in *.
    + injection Hj as <-. exists r. by rewrite Nat.add_0_r.
    + destruct (Hall j g Hj) as (r' & Hr' & Hg). exists r'.
      split; [done|]. by replace (i + S j) with (S i + j) by lia.
Qed.

Lemma mapFeatures_complete (i : nat) (fs : list Feature) :
  Forall (λ f, 2 ≤ length (coordinates f)) fs → ∃ rs, mapFeatures i fs = inr rs.
Proof.
  intros Hall. revert i. induction Hall as [|f fs Hf _ IH]; intros i.
  - by exists [].
  - simpl.
    destruct (proj2 (mapFeature_coordinates (mathRandom i) f) Hf) as [r ->].
    destruct (IH (S i)) as [rs ->]. by eexists.
Qed.

Lemma mapFeatures_poisoned (i : nat) (fs : list Feature) :
  Exists (λ f, length (coordinates f) < 2) fs → mapFeatures i fs = inl TypeError.
Proof.
  intros Hex. revert i. induction fs as [|f fs IH]; intros i.
  - by apply Exists_nil in Hex.
  - simpl. destruct (decide (length (coordinates f) < 2)) as [Hlt|Hge].
    + by rewrite mapFeature_throws.
    + apply Exists_cons in Hex as [Hlt|Hex]; [done|].
      destruct (mapFeature (mathRandom i) f) as [e|r] eqn:Hm.
      * assert (H2 : 2 ≤ length (coordinates f)) by lia.
        destruct (proj2 (mapFeature_coordinates (mathRandom i) f) H2) as [r Hr].
        congruence.
      * by rewrite IH.
Qed.

Lemma firstCommaSegment_commaFree (nm rest : jsstring) :
  commaFree nm →
  firstCommaSegment nm = nm ∧ firstCommaSegment (nm ++ 44%N :: rest) = nm.
Proof.
  induction 1 as [|c nm Hc _ [IH1 IH2]]; [done|].
  simpl. apply N.eqb_neq in Hc. rewrite Hc. by rewrite IH1, IH2.
Qed.

Lemma mapFeature_fields (rnd : R) (f : Feature) (r : SearchResult)
    (c0 c1 : R) (cs : list R) :
  mapFeature rnd f = inr r → coordinates f = c0 :: c1 :: cs →
  result_lat r = doubleToString c1 ∧ result_lon r = doubleToString c0 ∧
  ∃ details,
    display_name r
    = let nm := prop_or (prop_name (properties f))
                  (prop_or (street (properties f)) (str "Unknown Place")) in
      if truthy details then nm ++ str ", " ++ details else nm.
Proof.
  unfold mapFeature. intros Hmap Hco. rewrite Hco in Hmap.
  cbn [lookup list_lookup] in Hmap. injection Hmap as <-.
  cbn [result_lat result_lon display_name]. split; [done|]. split; [done|].
  by eexists.
Qed.

End FeatureFacts.

(** X10.  The answer of the provider, feature by feature.  When the
    cleaned query is not empty and the provider answers with a success
    and a list of features: if every feature has its two coordinates,
    the search gives one result for each feature, in the same order, and
    logs nothing; if one feature lacks a coordinate, the search gives no
    result at all, not even for the other features, and logs the
    error. *)
Theorem X10_results_follow_features `{Platform} (net : jsstring → FetchOutcome)
    (query : jsstring) (userLoc : option Coordinate) (fs : list Feature) :
  cleanQuery query ≠ [] → encodeURIComponent (cleanQuery query) ≠ None →
  (∀ url, net url = FetchResolves {| ok := true; json := JsonValue (Some fs) |}) →
  (Forall (λ f, 2 ≤ length (coordinates f)) fs →
     ∃ rs, outcome (searchPlaces net query userLoc) = Fulfilled rs ∧
       console (searchPlaces net query userLoc) = [] ∧
       length rs = length fs ∧
       ∀ j f, fs !! j = Some f →
         ∃ r, rs !! j = Some r ∧ mapFeature (mathRandom j) f = inr r) ∧
  (Exists (λ f, length (coordinates f) < 2) fs →
     outcome (searchPlaces net query userLoc) = Fulfilled [] ∧
     console (searchPlaces net query userLoc)
     = [ConsoleError (str "Error searching places:") TypeError]).
Proof.
  intros Hq Henc Hnet. unfold searchPlaces.
  destruct (cleanQuery query) as [|c q] eqn:Hcq; [done|]. simpl negb. cbv iota.
  destruct (encodeURIComponent (c :: q)) as [enc|]; [|done].
  rewrite Hnet. simpl. split.
  - intros Hall. destruct (mapFeatures_complete 0 fs Hall) as [rs Hrs].
    rewrite Hrs. exists rs. simpl.
    destruct (mapFeatures_results 0 fs rs Hrs) as [Hlen Hres]. done.
  - intros Hex. by rewrite mapFeatures_poisoned.
Qed.

(** X11.  From a feature to a place.  Take the result that the search
    builds for a feature whose name (its [name], else its [street], else
    "Unknown Place") has no comma, and whose two coordinates are read
    back by [parseFloat] from their printed form.  Clicking the result
    puts in front of the collection a place with that name, at the
    latitude [coordinates[1]] and the longitude [coordinates[0]], with
    the identifier read from the clock, the category Generic, the radius
    200, empty notes and not completed; the place is selected and the
    list of results is emptied.  The name is the one that the result row
    of the sidebar shows. *)
Theorem X11_feature_to_place `{Platform} (rnd : R) (f : Feature)
    (r : SearchResult) (c0 c1 : R) (cs : list R) (tId tCreated : Z)
    (st : AppState) :
  let nm := prop_or (prop_name (properties f))
              (prop_or (street (properties f)) (str "Unknown Place")) in
  mapFeature rnd f = inr r → coordinates f = c0 :: c1 :: cs → commaFree nm →
  parseFloat (doubleToString c0) = c0 → parseFloat (doubleToString c1) = c1 →
  let st' := after (handleSearchResultClick tId tCreated r st) in
  mainName r = nm ∧
  (∃ p, places st' = p :: places st ∧ name p = nm ∧
     location p = {| lat := c1; lng := c0 |} ∧
     id p = numberToString tId ∧ createdAt p = tCreated ∧
     category p = Generic ∧ radius p = 200%R ∧ notes p = Some [] ∧
     isCompleted p = false) ∧
  selectedPlaceId st' = Some (numberToString tId) ∧
  searchResults st' = [].
Proof.
  intros nm Hmap Hco Hfree Hp0 Hp1 st'.
  destruct (mapFeature_fields rnd f r c0 c1 cs Hmap Hco)
    as (Hlat & Hlon & details & Hname).
  cbv zeta in Hname. fold nm in Hname.
  assert (Hmain : firstCommaSegment (display_name r) = nm).
  { rewrite Hname. destruct (truthy details).
    - apply (firstCommaSegment_commaFree nm (32%N :: details) Hfree).
    - apply (firstCommaSegment_commaFree nm [] Hfree). }
  split; [exact Hmain|]. split; [|done].
  eexists. split; [reflexivity|]. simpl.
  split; [exact Hmain|]. split; [by rewrite Hlat, Hlon, Hp0, Hp1|].
  split; [unfold prop_or, present; by destruct (truthy (numberToString tId))|].
  repeat split.
Qed.

(** X12.  The two calls to the model never reject, and differ on a
    failure.  The promise of [suggestCategoryAndNotes] and the promise of
    [optimizeItineraryRoute] are always fulfilled.  When the call to the
    model rejects or its text does not parse, the first gives the
    fallback suggestion (Generic, empty note) and the second gives
    [null]; each logs one error.  When the model returns no text or an
    empty text, both give [null] and log nothing. *)
Theorem X12_model_calls_never_reject (Json : Type)
    (parseSuggestion : jsstring → JsError + option Suggestion)
    (parseJson : jsstring → JsError + option Json)
    (generateContent : jsstring → GenerateOutcome)
    (placeName currentLocationName : jsstring) (places : list NamedPlace) :
  let suggestion := suggestCategoryAndNotes parseSuggestion generateContent placeName in
  let route := optimizeItineraryRoute Json parseJson generateContent
                 currentLocationName places in
  (∃ v, snd suggestion = Fulfilled v) ∧ (∃ v, snd route = Fulfilled v) ∧
  ((∃ err, generateContent (prompt placeName) = GenerateRejects err)
   ∨ (∃ c t err, generateContent (prompt placeName) = GenerateResolves (Some (c :: t))
        ∧ parseSuggestion (c :: t) = inl err) →
   snd suggestion = Fulfilled (Some fallback) ∧ length (fst suggestion) = 1) ∧
  ((∃ err, generateContent (itineraryPrompt currentLocationName places)
           = GenerateRejects err)
   ∨ (∃ c t err, generateContent (itineraryPrompt currentLocationName places)
                 = GenerateResolves (Some (c :: t))
        ∧ parseJson (c :: t) = inl err) →
   snd route = Fulfilled None ∧ length (fst route) = 1) ∧
  (generateContent (prompt placeName) = GenerateResolves None
   ∨ generateContent (prompt placeName) = GenerateResolves (Some []) →
   suggestion = ([], Fulfilled None)) ∧
  (generateContent (itineraryPrompt currentLocationName places) = GenerateResolves None
   ∨ generateContent (itineraryPrompt currentLocationName places)
     = GenerateResolves (Some []) →
   route = ([], Fulfilled None)).
Proof.
  intros suggestion route. subst suggestion route.
  unfold suggestCategoryAndNotes, optimizeItineraryRoute.
  split; [|split; [|split; [|split; [|split]]]].
  - destruct (generateContent (prompt placeName)) as [e|[[|c t]|]];
      try (by eexists).
    destruct (parseSuggestion (c :: t)); by eexists.
  - destruct (generateContent (itineraryPrompt _ _)) as [e|[[|c t]|]];
      try (by eexists).
    destruct (parseJson (c :: t)); by eexists.
  - intros [[err ->]|(c & t & err & -> & ->)]; done.
  - intros [[err ->]|(c & t & err & -> & ->)]; done.
  - intros [->| ->]; done.
  - intros [->| ->]; done.
Qed.

(** X13.  The address search asks for every query and absorbs every
    failure.  Its promise is always fulfilled.  It does not clean the
    query: it sends one request whenever the query can be encoded, also
    for a query that is empty or made of fillers, and none when the
    encoding throws.  When the fetch rejects, the response is not a
    success or its body does not parse, the value is the empty array;
    when the provider answers with a success and a body, the value is
    that body. *)
Theorem X13_address_search `{Platform} (Json : Type)
    (net : jsstring → AddressSearch.AddressFetch Json) (query : jsstring)
    (userLoc : option Coordinate) :
  let run := AddressSearch.searchPlaces Json net query userLoc in
  (∃ v, AddressSearch.addr_outcome Json run = Fulfilled v) ∧
  length (AddressSearch.addr_requests Json run)
    = match encodeURIComponent query with Some _ => 1 | None => 0 end ∧
  ((∀ url, match net url with
           | AddressSearch.AddressRejects _ _ => True
           | AddressSearch.AddressResolves _ response =>
               AddressSearch.addr_ok Json response = false
               ∨ ∃ e, AddressSearch.addr_json Json response = AddressSearch.BodyThrows Json e
           end) →
   AddressSearch.addr_outcome Json run = Fulfilled (AddressSearch.EmptyArray Json)) ∧
  (∀ data, encodeURIComponent query ≠ None →
     (∀ url, net url = AddressSearch.AddressResolves Json
                         {| AddressSearch.addr_ok := true; AddressSearch.addr_json := AddressSearch.BodyValue Json data |}) →
     AddressSearch.addr_outcome Json run = Fulfilled (AddressSearch.ProviderData Json data)).
Proof.
  intros run. subst run. unfold AddressSearch.searchPlaces.
  split; [|split; [|split]].
  - destruct (encodeURIComponent query); [|by eexists].
    match goal with |- context [net ?u] => destruct (net u) as [e|response] end;
      [by eexists|].
    destruct (negb (AddressSearch.addr_ok Json response)); [by eexists|].
    destruct (AddressSearch.addr_json Json response); by eexists.
  - destruct (encodeURIComponent query); [|done].
    match goal with |- context [net ?u] => destruct (net u) as [e|response] end;
      [done|].
    destruct (negb (AddressSearch.addr_ok Json response)); [done|].
    by destruct (AddressSearch.addr_json Json response).
  - intros Hfail. destruct (encodeURIComponent query); [|done].
    match goal with |- context [net ?u] =>
      specialize (Hfail u); destruct (net u) as [e|response] end; [done|].
    destruct Hfail as [->|[e ->]]; [done|].
    by destruct (negb (AddressSearch.addr_ok Json response)).
  - intros data Henc Hnet. destruct (encodeURIComponent query); [|done].
    by rewrite Hnet.
Qed.

(* ================================================================== *)
(** * The location watch *)
(* ================================================================== *)

Section WatchFacts.
Import LocationWatch.

Lemma accuracyOf_single (i j : nat) (acc : bool) (w : Watcher) :
  registered w = [(i, acc)] →
  accuracyOf j w = if Nat.eqb i j then Some acc else None.
Proof. intros Hr. unfold accuracyOf. rewrite Hr. simpl. by destruct (Nat.eqb i j). Qed.

Lemma accuracyOf_none (j : nat) (w : Watcher) :
  registered w = [] → accuracyOf j w = None.
Proof. intros Hr. unfold accuracyOf. by rewrite Hr. Qed.

Lemma clearWatch_single (i : nat) (acc : bool) : clearWatch i [(i, acc)] = [].
Proof.
  unfold clearWatch. rewrite filter_cons. simpl.
  by destruct (decide (i ≠ i)).
Qed.

Lemma watchInv_mount (geolocation : bool) :
  watchInv (startWatcher true (unmounted geolocation)).
Proof.
  destruct geolocation; unfold watchInv, startWatcher; simpl.
  - split; [lia|]. right. exists 0. split; [done|]. split; [done|]. by left.
  - split; [lia|]. by left.
Qed.

Lemma watchInv_step (ev : WatchEvent) (w : Watcher) :
  watchInv w → watchInv (watchStep ev w).
Proof.
  intros Hinv. pose proof Hinv as [Hn Hreg].
  destruct ev as [[loc|]|i pos|i code| |]; simpl.
  - destruct (hasGeolocation w); exact Hinv.
  - exact Hinv.
  - destruct (accuracyOf i w); exact Hinv.
  - destruct Hreg as [[Hr Hg]|(j & Hw & Hg & [[Hr Hn1]|Hr])].
    + rewrite accuracyOf_none by done. exact Hinv.
    + rewrite (accuracyOf_single j i true) by done.
      destruct (Nat.eqb j i); [|exact Hinv].
      unfold onWatchError. simpl.
      destruct ((code =? 2)%Z || (code =? 3)%Z); [|exact Hinv].
      unfold startWatcher, watchInv. rewrite Hg, Hw, Hr, Hn1. simpl.
      rewrite clearWatch_single. simpl. split; [lia|].
      right. exists 1. split; [done|]. split; [done|]. by right.
    + rewrite (accuracyOf_single j i false) by done.
      destruct (Nat.eqb j i); exact Hinv.
  - exact Hinv.
  - unfold cleanup.
    destruct Hreg as [[Hr Hg]|(j & Hw & Hg & [[Hr Hn1]|Hr])].
    + destruct (watchId w); [|exact Hinv].
      unfold watchInv. simpl. rewrite Hr. split; [done|]. by left.
    + rewrite Hw. unfold watchInv. simpl. rewrite Hr, clearWatch_single.
      split; [done|]. left. split; [done|]. by rewrite Hg.
    + rewrite Hw. unfold watchInv. simpl. rewrite Hr, clearWatch_single.
      split; [done|]. left. split; [done|]. by rewrite Hg.
Qed.

Lemma watchInv_run (evs : list WatchEvent) (w : Watcher) :
  watchInv w → watchInv (watchRun evs w).
Proof.
  revert w. induction evs as [|ev evs IH]; intros w Hw; [done|].
  simpl. apply IH. by apply watchInv_step.
Qed.

Lemma watchStep_no_watch (ev : WatchEvent) (w : Watcher) :
  registered w = [] → registered (watchStep ev w) = [].
Proof.
  intros Hr. destruct ev as [[loc|]|i pos|i code| |]; simpl; try done.
  - by destruct (hasGeolocation w).
  - by rewrite accuracyOf_none.
  - by rewrite accuracyOf_none.
  - unfold cleanup. destruct (watchId w); simpl; [|done]. by rewrite Hr.
Qed.

Lemma watchRun_no_watch (evs : list WatchEvent) (w : Watcher) :
  registered w = [] → registered (watchRun evs w) = [].
Proof.
  revert w. induction evs as [|ev evs IH]; intros w Hr; [done|].
  simpl. apply IH. by apply watchStep_no_watch.
Qed.

Lemma watchStep_geolocation (ev : WatchEvent) (w : Watcher) :
  hasGeolocation (watchStep ev w) = hasGeolocation w.
Proof.
  destruct ev as [[loc|]|i pos|i code| |]; simpl; try done.
  - by destruct (hasGeolocation w) eqn:Hg.
  - by destruct (accuracyOf i w).
  - destruct (accuracyOf i w) as [acc|]; [|done].
    unfold onWatchError, startWatcher.
    destruct (acc && _); [|done]. by destruct (hasGeolocation w) eqn:Hg.
  - unfold cleanup. by destruct (watchId w).
Qed.

Lemma watchRun_geolocation (evs : list WatchEvent) (w : Watcher) :
  hasGeolocation (watchRun evs w) = hasGeolocation w.
Proof.
  revert w. induction evs as [|ev evs IH]; intros w; [done|].
  simpl. by rewrite IH, watchStep_geolocation.
Qed.

Lemma watchStep_loaded (ev : WatchEvent) (w : Watcher) :
  isLoadingLocation w = false → isLoadingLocation (watchStep ev w) = false.
Proof.
  intros Hl. destruct ev as [[loc|]|i pos|i code| |]; simpl; try done.
  - by destruct (hasGeolocation w).
  - by destruct (accuracyOf i w).
  - destruct (accuracyOf i w) as [acc|]; [|done].
    unfold onWatchError, startWatcher.
    destruct (acc && _); [|done]. by destruct (hasGeolocation w).
  - unfold cleanup. by destruct (watchId w).
Qed.

Lemma watchRun_loaded (evs : list WatchEvent) (w : Watcher) :
  isLoadingLocation w = false → isLoadingLocation (watchRun evs w) = false.
Proof.
  revert w. induction evs as [|ev evs IH]; intros w Hl; [done|].
  simpl. apply IH. by apply watchStep_loaded.
Qed.

Lemma watchRun_app (evs1 evs2 : list WatchEvent) (w : Watcher) :
  watchRun (evs1 ++ evs2) w = watchRun evs2 (watchRun evs1 w).
Proof. apply fold_left_app. Qed.

(** Without a geolocation object only "Skip" ends the loading. *)
Lemma watchRun_stuck (evs : list WatchEvent) (w : Watcher) :
  hasGeolocation w = false → registered w = [] → SkipLoading ∉ evs →
  isLoadingLocation (watchRun evs w) = isLoadingLocation w.
Proof.
  revert w. induction evs as [|ev evs IH]; intros w Hg Hr Hskip; [done|].
  apply not_elem_of_cons in Hskip as [Hne Hskip]. simpl.
  rewrite IH; try done.
  - destruct ev as [[loc|]|i pos|i code| |]; simpl; try done.
    + by rewrite Hg.
    + by rewrite accuracyOf_none.
    + by rewrite accuracyOf_none.
    + unfold cleanup. by destruct (watchId w).
  - by rewrite watchStep_geolocation.
  - by apply watchStep_no_watch.
Qed.

End WatchFacts.

(** X14.  The location watch downgrades once and leaks nothing.
    Whatever the platform reports after the mount: [watchPosition] is
    called at most twice; at most one watch is served at any time, and it
    is the one that [watchId] names; a watch with high accuracy is always
    the first one, so after the downgrade the accuracy stays low; once
    the component has unmounted no watch is served, whatever follows; and
    without a geolocation object no watch is ever started. *)
Theorem X14_watch_subscriptions (geolocation : bool)
    (evs : list LocationWatch.WatchEvent) :
  let w := LocationWatch.mounted geolocation evs in
  LocationWatch.nextWatchId w ≤ 2 ∧
  length (LocationWatch.registered w) ≤ 1 ∧
  (∀ i acc, (i, acc) ∈ LocationWatch.registered w →
     LocationWatch.watchId w = Some i ∧
     (acc = true → LocationWatch.nextWatchId w = 1)) ∧
  (LocationWatch.Unmount ∈ evs → LocationWatch.registered w = []) ∧
  (geolocation = false →
     LocationWatch.registered w = [] ∧ LocationWatch.nextWatchId w = 0).
Proof.
  intros w.
  assert (Hinv : LocationWatch.watchInv w).
  { apply (watchInv_run evs), watchInv_mount. }
  destruct Hinv as [Hn Hreg].
  split; [done|]. split; [|split; [|split]].
  - destruct Hreg as [[-> _]|(j & _ & _ & [[-> _]| ->])]; simpl; lia.
  - intros i acc Hin.
    destruct Hreg as [[Hr _]|(j & Hw & _ & [[Hr Hn1]|Hr])]; rewrite Hr in Hin.
    + by apply not_elem_of_nil in Hin.
    + apply list_elem_of_singleton in Hin. injection Hin as -> ->. done.
    + apply list_elem_of_singleton in Hin. injection Hin as -> ->. done.
  - intros Hun. apply list_elem_of_split in Hun as (evs1 & evs2 & Hevs).
    subst w. unfold LocationWatch.mounted.
    change (fold_left _ evs ?w0) with (LocationWatch.watchRun evs w0).
    rewrite Hevs, watchRun_app. simpl.
    apply watchRun_no_watch.
    set (w1 := LocationWatch.watchRun evs1 _).
    assert (Hinv1 : LocationWatch.watchInv w1).
    { apply watchInv_run, watchInv_mount. }
    destruct Hinv1 as [_ [[Hr _]|(j & Hw & _ & [[Hr _]|Hr])]];
      unfold LocationWatch.cleanup.
    + destruct (LocationWatch.watchId w1); simpl; [|done]. by rewrite Hr.
    + rewrite Hw. simpl. by rewrite Hr, clearWatch_single.
    + rewrite Hw. simpl. by rewrite Hr, clearWatch_single.
  - intros ->.
    assert (Hgeo : LocationWatch.hasGeolocation w = false).
    { subst w. unfold LocationWatch.mounted.
      change (fold_left _ evs ?w0) with (LocationWatch.watchRun evs w0).
      by rewrite watchRun_geolocation. }
    destruct Hreg as [[Hr Hg]|(j & _ & Hg & _)]; [|congruence].
    split; [done|]. by apply Hg.
Qed.

(** X15.  The loading screen.  Once the "still locating" flag is down it
    stays down, whatever follows.  A position from the watch, an error of
    the low-accuracy watch, and an error of the high-accuracy watch other
    than "position unavailable" (2) and "timeout" (3), bring it down.
    Without a geolocation object nothing but the "Skip" button does: the
    flag is up for as long as the user has not pressed it. *)
Theorem X15_loading_flag (geolocation : bool)
    (evs evs' : list LocationWatch.WatchEvent) :
  let w := LocationWatch.mounted geolocation evs in
  (LocationWatch.isLoadingLocation w = false →
   LocationWatch.isLoadingLocation (LocationWatch.mounted geolocation (evs ++ evs'))
   = false) ∧
  (∀ i acc pos, LocationWatch.accuracyOf i w = Some acc →
     LocationWatch.isLoadingLocation
       (LocationWatch.watchStep (LocationWatch.WatchPosition i pos) w) = false ∧
     LocationWatch.watchedLocation
       (LocationWatch.watchStep (LocationWatch.WatchPosition i pos) w) = Some pos) ∧
  (∀ i acc code, LocationWatch.accuracyOf i w = Some acc →
     acc = false ∨ (code ≠ 2 ∧ code ≠ 3)%Z →
     LocationWatch.isLoadingLocation
       (LocationWatch.watchStep (LocationWatch.WatchError i code) w) = false) ∧
  (geolocation = false → LocationWatch.SkipLoading ∉ evs →
   LocationWatch.isLoadingLocation w = true).
Proof.
  intros w. split; [|split; [|split]].
  - intros Hl. unfold LocationWatch.mounted.
    change (fold_left _ (evs ++ evs') ?w0)
      with (LocationWatch.watchRun (evs ++ evs') w0).
    rewrite watchRun_app. by apply watchRun_loaded.
  - intros i acc pos Hacc. simpl. by rewrite Hacc.
  - intros i acc code Hacc Hcase. simpl. rewrite Hacc.
    unfold LocationWatch.onWatchError.
    destruct Hcase as [->|[H2 H3]]; [done|].
    apply Z.eqb_neq in H2, H3. rewrite H2, H3. by rewrite andb_false_r.
  - intros -> Hskip. subst w. unfold LocationWatch.mounted.
    change (fold_left _ evs ?w0) with (LocationWatch.watchRun evs w0).
    by rewrite watchRun_stuck.
Qed.

(* ================================================================== *)
(** * The alert sound *)
(* ================================================================== *)

(** X16.  The narration guard.  While an utterance is being spoken (and
    speech synthesis exists), an alert asks for the tone at most: no
    narration is scheduled and no system notification is raised, whatever
    the permission.  The guard is set when an utterance starts, not when
    it is scheduled: of two alerts in a row, both schedule a narration
    1200 ms later.  When no utterance is being spoken, or without speech
    synthesis, the notification is raised exactly when the permission is
    granted. *)
Theorem X16_narration_guard (w : AlertSound.Window) (m1 m2 : jsstring)
    (s : AlertSound.Sound) :
  (AlertSound.hasSpeechSynthesis w = true → AlertSound.isSpeaking s = true →
     AlertSound.playAlertSound w m1 s
     = match AlertSound.audio w with
       | AlertSound.AudioUsable => AlertSound.emit [AlertSound.Beep] s
       | _ => s
       end) ∧
  (AlertSound.hasSpeechSynthesis w = true → AlertSound.isSpeaking s = false →
     let s' := AlertSound.playAlertSound w m2 (AlertSound.playAlertSound w m1 s) in
     AlertSound.SetTimeout m1 1200 ∈ AlertSound.effects s' ∧
     AlertSound.SetTimeout m2 1200 ∈ AlertSound.effects s') ∧
  (AlertSound.hasSpeechSynthesis w = false ∨ AlertSound.isSpeaking s = false →
     (AlertSound.Notify (str "Places Alarm") m1 (str "/favicon.ico")
        ∈ drop (length (AlertSound.effects s))
            (AlertSound.effects (AlertSound.playAlertSound w m1 s))
      ↔ AlertSound.notification w = Some AlertSound.PermissionGranted)).
Proof.
  destruct w as [au sp no], s as [speaking es].
  unfold AlertSound.playAlertSound, AlertSound.notifyStep, AlertSound.emit. simpl.
  split; [|split].
  - intros -> ->. by destruct au.
  - intros -> ->. destruct au, no as [[]|]; simpl;
      rewrite ?elem_of_app, ?elem_of_cons; tauto.
  - intros Hcase.
    assert (sp = false ∨ speaking = false) as [-> | ->] by exact Hcase.
    + destruct au, no as [[]|]; simpl;
        rewrite <- ?(assoc_L (++)), ?drop_app_length, ?drop_all; simpl;
        rewrite ?elem_of_cons, ?elem_of_nil; intuition congruence.
    + destruct sp, au, no as [[]|]; simpl;
        rewrite <- ?(assoc_L (++)), ?drop_app_length, ?drop_all; simpl;
        rewrite ?elem_of_cons, ?elem_of_nil; intuition congruence.
Qed.

(* ================================================================== *)
(** * The side bar, the panels and the map controller *)
(* ================================================================== *)

Section ViewFacts.

Lemma tasks_partition (ps : list Place) :
  length (activeTasks ps) + length (completedTasks ps) = length ps.
Proof.
  unfold activeTasks, completedTasks.
  induction ps as [|q ps IH]; [done|].
  rewrite !filter_cons.
  destruct (isCompleted q); repeat case_decide; try done; simpl; lia.
Qed.

Lemma toggle_in_place (p : Place) (l1 l2 : list Place) :
  id p ∉ map id l1 → id p ∉ map id l2 →
  map (λ q, if bool_decide (id q = id p)
            then withIsCompleted (negb (isCompleted q)) q else q)
      (l1 ++ p :: l2)
  = l1 ++ withIsCompleted (negb (isCompleted p)) p :: l2.
Proof.
  intros H1 H2. rewrite map_app. simpl.
  rewrite (map_if_absent _ _ l1 H1), (map_if_absent _ _ l2 H2).
  by rewrite bool_decide_eq_true_2.
Qed.

Lemma find_filter_other (sel pid : jsstring) (ps : list Place) :
  sel ≠ pid →
  find (λ p, bool_decide (id p = sel)) (filter (λ p, id p ≠ pid) ps)
  = find (λ p, bool_decide (id p = sel)) ps.
Proof.
  intros Hne. induction ps as [|q ps IH]; [done|].
  rewrite filter_cons. simpl. case_decide as Hq.
  - simpl. by rewrite IH.
  - rewrite IH. rewrite bool_decide_eq_false_2; [done|].
    congruence.
Qed.

Lemma find_id_spec (sel : jsstring) (ps : list Place) (p : Place) :
  find (λ q, bool_decide (id q = sel)) ps = Some p → p ∈ ps ∧ id p = sel.
Proof.
  induction ps as [|q ps IH]; [done|]. simpl. case_bool_decide as Hq.
  - intros [= <-]. split; [left|done].
  - intros Hf. destruct (IH Hf). split; [by right|done].
Qed.

Lemma prop_or_same (s : jsstring) : prop_or (Some s) s = s.
Proof. by destruct s. Qed.

Lemma commit_callsInv (c : Commit) (m : MapView) :
  callsInv m → callsInv (commit c m).
Proof.
  unfold callsInv, commit, centerOnUser, flyToSelected. intros Hm.
  destruct c as [u s fly center], m as [hc calls]. simpl in *.
  destruct fly, center, s as [p|], u as [u|], hc; simpl;
    rewrite ?filter_app, ?filter_cons, ?filter_nil; repeat case_decide;
    try done; simpl; rewrite ?length_app; simpl; lia.
Qed.

Lemma commit_calls (c : Commit) (m : MapView) (call : MapCall) :
  call ∈ mapCalls (commit c m) →
  call ∈ mapCalls m ∨
  (∃ u, call = SetView u 15 ∧ propsUser c = Some u ∧ propsSelected c = None
        ∧ hasCentered m = false) ∨
  (∃ p, call = FlyTo (location p) 16 ∧ propsSelected c = Some p).
Proof.
  unfold commit, centerOnUser, flyToSelected.
  destruct c as [u s fly center], m as [hc calls]. simpl.
  destruct fly, center, s as [p|], u as [u|], hc; simpl;
    rewrite ?elem_of_app, ?elem_of_cons, ?elem_of_nil; intros Hc;
    try (by left);
    repeat match goal with Hx : _ ∨ _ |- _ => destruct Hx as [Hx|Hx] end;
    try done; try (by left); subst call; eauto 10.
Qed.

Lemma fold_commit_callsInv (cs : list Commit) (m : MapView) :
  callsInv m → callsInv (fold_left (λ m c, commit c m) cs m).
Proof.
  revert m. induction cs as [|c cs IH]; intros m Hm; [done|].
  simpl. apply IH. by apply commit_callsInv.
Qed.

Lemma fold_commit_calls (cs : list Commit) (m : MapView) (call : MapCall) :
  call ∈ mapCalls (fold_left (λ m c, commit c m) cs m) →
  call ∈ mapCalls m ∨
  (∃ k u, k ∈ cs ∧ call = SetView u 15 ∧ propsUser k = Some u
          ∧ propsSelected k = None) ∨
  (∃ k p, k ∈ cs ∧ call = FlyTo (location p) 16 ∧ propsSelected k = Some p).
Proof.
  revert m. induction cs as [|c cs IH]; intros m Hc; [by left|].
  simpl in Hc. destruct (IH _ Hc) as [Hin|[(k & u & Hk & ?)|(k & p & Hk & ?)]].
  - destruct (commit_calls _ _ _ Hin) as [?|[(u & ? & ? & ? & _)|(p & ? & ?)]].
    + by left.
    + right; left. exists c, u. split; [left|done].
    + right; right. exists c, p. split; [left|done].
  - right; left. exists k, u. split; [by right|done].
  - right; right. exists k, p. split; [by right|done].
Qed.

End ViewFacts.

(** X17.  The two lists of the side bar split the collection: every place
    is on exactly one of them.  With unique identifiers, ticking the box
    of a place changes that one place, in place (the order of the
    collection is kept, every other place is untouched), and moves it
    from one list to the other. *)
Theorem X17_sidebar_lists (st : AppState) (p : Place) :
  length (activeTasks (places st)) + length (completedTasks (places st))
    = length (places st) ∧
  (NoDup (placeIds st) → p ∈ places st →
     let st' := handleToggleTask (id p) st in
     let p' := withIsCompleted (negb (isCompleted p)) p in
     (∃ l1 l2, places st = l1 ++ p :: l2 ∧ places st' = l1 ++ p' :: l2) ∧
     placeIds st' = placeIds st ∧
     (if isCompleted p
      then length (activeTasks (places st')) = S (length (activeTasks (places st)))
      else S (length (activeTasks (places st'))) = length (activeTasks (places st)))).
Proof.
  split; [apply tasks_partition|].
  intros Hnd Hp. cbv zeta.
  destruct (list_elem_of_split _ _ Hp) as (l1 & l2 & Hsplit).
  unfold placeIds in *. rewrite Hsplit in Hnd.
  rewrite map_app in Hnd. simpl in Hnd.
  apply NoDup_app in Hnd as (_ & Hl1 & Hnd2).
  apply NoDup_cons in Hnd2 as (Hl2 & _).
  assert (H1 : id p ∉ map id l1).
  { intros Hin. apply (Hl1 _ Hin). left. }
  assert (Hplaces : places (handleToggleTask (id p) st)
                    = l1 ++ withIsCompleted (negb (isCompleted p)) p :: l2).
  { unfold handleToggleTask. simpl. rewrite Hsplit. by apply toggle_in_place. }
  rewrite Hplaces, Hsplit. split; [|split].
  - by exists l1, l2.
  - rewrite !map_app. simpl. done.
  - unfold activeTasks. rewrite !filter_app, !filter_cons. simpl.
    destruct (isCompleted p); simpl; repeat case_decide; try done;
      rewrite !length_app; simpl; lia.
Qed.

(** X18.  Which panel is shown.  A confirmed draft and a clicked search
    result select the place they create, which is the first of the
    collection; after a confirmation the details panel shows it.  A click
    on the map opens the draft panel and closes the details panel.
    Deleting the selected place leaves no selection; deleting another
    place leaves the selected place as it was.  A selected place is a
    place of the collection with the selected identifier. *)
Theorem X18_panels `{Platform} (st : AppState) :
  (∀ tId tCreated loc, draftLocation st = Some loc →
     let st' := confirmDraft tId tCreated st in
     draftPanelShown st' = false ∧
     detailsPanel st' = head (places st') ∧
     ∃ p, detailsPanel st' = Some p ∧ location p = loc ∧ isCompleted p = false) ∧
  (∀ tId tCreated result,
     let st' := after (handleSearchResultClick tId tCreated result st) in
     selectedPlace st' = head (places st') ∧ is_Some (selectedPlace st')) ∧
  (∀ c, draftPanelShown (handleMapClick c st) = true ∧
        detailsPanel (handleMapClick c st) = None) ∧
  (∀ pid, selectedPlace (handleDeleteTask pid st)
          = if bool_decide (selectedPlaceId st = Some pid) then None
            else selectedPlace st) ∧
  (∀ p, selectedPlace st = Some p → p ∈ places st ∧ selectedPlaceId st = Some (id p)).
Proof.
  split; [|split; [|split; [|split]]].
  - intros tId tCreated loc Hd. cbv zeta.
    unfold confirmDraft, handleConfirmDraft. rewrite Hd.
    unfold detailsPanel, selectedPlace, draftPanelShown. simpl.
    rewrite bool_decide_eq_true_2 by done.
    split; [reflexivity|]. split; [reflexivity|].
    eexists. split; [reflexivity|]. split; reflexivity.
  - intros tId tCreated result. cbv zeta.
    unfold selectedPlace. simpl. rewrite prop_or_same.
    rewrite bool_decide_eq_true_2 by reflexivity.
    split; [reflexivity|]. by eexists.
  - intros c. unfold detailsPanel, selectedPlace, draftPanelShown. done.
  - intros pid. unfold handleDeleteTask. case_bool_decide as Hsel.
    + done.
    + unfold selectedPlace. simpl. destruct (selectedPlaceId st) as [sel|]; [|done].
      apply find_filter_other. congruence.
  - intros p. unfold selectedPlace. destruct (selectedPlaceId st) as [sel|]; [|done].
    intros Hf. destruct (find_id_spec _ _ _ Hf) as [Hin <-]. done.
Qed.

(** X19.  The map controller.  Whatever the commits after the mount, the
    map is centred on the user at most once (once exactly when the
    reference flag is up); every centring is at zoom 15, on a location
    the controller received while no place was selected; every flight is
    at zoom 16, to a place that was selected. *)
Theorem X19_centres_once (cs : list Commit) :
  let m := controller cs in
  length (filter (λ c, isSetView c = true) (mapCalls m))
    = (if hasCentered m then 1 else 0) ∧
  (∀ u z, SetView u z ∈ mapCalls m →
     z = 15%Z ∧ ∃ k, k ∈ cs ∧ propsUser k = Some u ∧ propsSelected k = None) ∧
  (∀ c z, FlyTo c z ∈ mapCalls m →
     z = 16%Z ∧ ∃ k p, k ∈ cs ∧ propsSelected k = Some p ∧ location p = c).
Proof.
  cbv zeta. unfold controller. split; [|split].
  - by apply fold_commit_callsInv.
  - intros u z Hin.
    destruct (fold_commit_calls _ _ _ Hin)
      as [Hnil|[(k & u' & Hk & [= -> ->] & ? & ?)|(k & p & _ & [=] & _)]].
    + by apply elem_of_nil in Hnil.
    + split; [done|]. by exists k.
  - intros c z Hin.
    destruct (fold_commit_calls _ _ _ Hin)
      as [Hnil|[(k & u' & _ & [=] & _)|(k & p & Hk & [= -> ->] & ?)]].
    + by apply elem_of_nil in Hnil.
    + split; [done|]. by exists k, p.
Qed.

(* ================================================================== *)
(** * The shape of the places *)
(* ================================================================== *)

Section ShapeFacts.
Context `{Platform}.

Lemma Forall_map_if (P : Place → Prop) (b : Place → bool) (f : Place → Place)
    (ps : list Place) :
  (∀ p, P p → P (f p)) → Forall P ps →
  Forall P (map (λ p, if b p then f p else p) ps).
Proof.
  intros Hf. induction 1 as [|p ps Hp _ IH]; simpl; constructor; [|done].
  destruct (b p); [by apply Hf|done].
Qed.

Lemma Forall_filter_keep (P : Place → Prop) (Q : Place → Prop)
    `{∀ p, Decision (Q p)} (ps : list Place) :
  Forall P ps → Forall P (filter Q ps).
Proof.
  rewrite !Forall_forall. intros Hall p Hp.
  apply list_elem_of_filter in Hp as [_ Hp]. by apply Hall.
Qed.

Lemma handle_identified (ev : Event) (st : AppState) :
  Forall identified (places st) → Forall identified (places (handle ev st)).
Proof.
  intros Hall. destruct ev; simpl; try done.
  - by destruct (proximityCheck_frame now st) as (-> & _).
  - unfold handleSearch. by destruct (outcome _).
  - constructor; [|done]. split; [done|].
    exists tId. simpl. apply prop_or_same.
  - unfold confirmDraft, handleConfirmDraft.
    destruct (draftLocation st); [|done]. simpl.
    constructor; [|done]. split; [done|]. by exists tId.
  - apply Forall_map_if; [|done]. by intros p (? & ?).
  - apply Forall_map_if; [|done]. by intros p (? & ?).
  - unfold handleDeleteTask.
    destruct (bool_decide _); simpl; by apply Forall_filter_keep.
  - apply Forall_map_if; [|done]. by intros p (? & ?).
  - apply Forall_map_if; [|done]. by intros p (? & ?).
  - apply Forall_map_if; [|done]. by intros p (? & ?).
  - unfold enrichmentSettled, applyEnhancement.
    destruct r as [[enh|]|]; simpl; try done.
    apply Forall_map_if; [|done]. by intros p (? & ?).
Qed.

Lemma run_identified (evs : list Event) (st : AppState) :
  Forall identified (places st) → Forall identified (places (run evs st)).
Proof.
  revert st. induction evs as [|ev evs IH]; intros st Hall; [done|].
  apply IH. by apply handle_identified.
Qed.

Lemma handle_notes (ev : Event) (st : AppState) :
  storesNote ev →
  Forall (λ p, notes p ≠ None) (places st) →
  Forall (λ p, notes p ≠ None) (places (handle ev st)).
Proof.
  intros Hev Hall. destruct ev; simpl; try done.
  - by destruct (proximityCheck_frame now st) as (-> & _).
  - unfold handleSearch. by destruct (outcome _).
  - by constructor.
  - unfold confirmDraft, handleConfirmDraft.
    destruct (draftLocation st); [|done]. simpl. by constructor.
  - by apply Forall_map_if.
  - by apply Forall_map_if.
  - unfold handleDeleteTask.
    destruct (bool_decide _); simpl; by apply Forall_filter_keep.
  - by apply Forall_map_if.
  - by apply Forall_map_if.
  - by apply Forall_map_if.
  - unfold enrichmentSettled, applyEnhancement.
    destruct r as [[enh|]|]; simpl; try done.
    apply Forall_map_if; [|done]. intros p _. simpl.
    simpl in Hev. destruct (initialNote e) as [|c t]; simpl; [|done].
    by destruct Hev.
Qed.

Lemma run_notes (evs : list Event) (st : AppState) :
  Forall storesNote evs →
  Forall (λ p, notes p ≠ None) (places st) →
  Forall (λ p, notes p ≠ None) (places (run evs st)).
Proof.
  revert st. induction evs as [|ev evs IH]; intros st Hevs Hall; [done|].
  apply Forall_cons in Hevs as [Hev Hevs].
  apply IH; [done|]. by apply handle_notes.
Qed.

Lemma enrichment_drops_note (e : Enrichment) (s : Suggestion) (st : AppState)
    (p : Place) :
  p ∈ places st → id p = enrichedId e → initialNote e = [] →
  suggestedNote s = None →
  ∃ p', p' ∈ places (enrichmentSettled e (Fulfilled (Some s)) st) ∧
    id p' = id p ∧ category p' = suggestedCategory s ∧ notes p' = None.
Proof.
  intros Hp Hid Hinit Hnote.
  exists (withCategoryAndNotes (suggestedCategory s) None p).
  split; [|done]. simpl.
  change (map ?f ?l) with (f <$> l). apply list_elem_of_fmap.
  exists p. split; [|done].
  by rewrite bool_decide_eq_true_2, Hinit, Hnote.
Qed.

End ShapeFacts.

(** X20.  The shape of the places.  Whatever the events, every place of
    the collection belongs to no list and carries as identifier the
    decimal form of a reading of the clock: the handlers create places in
    that shape and none of them takes a place out of it; in particular
    this holds in every state the application goes through from its
    initial state.  The notes of every place are present (possibly empty)
    as long as no enrichment stores the note of a suggestion that has
    none.  That condition is needed: the value of [JSON.parse] is used
    unchecked, so for a place created without notes a suggestion that
    lacks its note leaves the place with its notes absent. *)
Theorem X20_shape_of_places `{Platform} (evs : list Event) (st : AppState) :
  (Forall identified (places st) → Forall identified (places (run evs st))) ∧
  (∀ p, p ∈ places (run evs initialState) →
     listId p = None ∧ ∃ t, id p = numberToString t) ∧
  (Forall storesNote evs → Forall (λ p, notes p ≠ None) (places st) →
     Forall (λ p, notes p ≠ None) (places (run evs st))) ∧
  (∀ e s p, p ∈ places st → id p = enrichedId e → initialNote e = [] →
     suggestedNote s = None →
     ∃ p', p' ∈ places (handle (EvEnrichment e (Fulfilled (Some s))) st) ∧
       id p' = id p ∧ category p' = suggestedCategory s ∧ notes p' = None).
Proof.
  split; [apply run_identified|]. split; [|split].
  - intros p Hp.
    assert (Hall : Forall identified (places (run evs initialState))).
    { apply run_identified. constructor. }
    rewrite Forall_forall in Hall. exact (Hall p Hp).
  - apply run_notes.
  - intros e s p. apply enrichment_drops_note.
Qed.

(* ================================================================== *)
(** * Places with a negative radius *)
(* ================================================================== *)

Section RangeFacts.
Local Open Scope R_scope.

Lemma atan_nonneg (x : R) : 0 <= x -> 0 <= atan x.
Proof.
  intros [Hx| <-].
  - left. rewrite <- atan_0. by apply atan_increasing.
  - rewrite atan_0. lra.
Qed.

Lemma atan2_quadrant (y x : R) :
  0 <= y -> 0 <= x -> 0 <= atan2 y x <= PI / 2.
Proof.
  intros Hy Hx. unfold atan2. pose proof PI_RGT_0 as Hpi.
  destruct (Rlt_dec 0 x) as [Hpos|_].
  - split.
    + apply atan_nonneg. unfold Rdiv. apply Rmult_le_pos; [done|].
      left. by apply Rinv_0_lt_compat.
    + left. apply atan_bound.
  - destruct (Rlt_dec x 0) as [Hneg|_]; [lra|].
    destruct (Rlt_dec 0 y) as [_|_]; [lra|].
    destruct (Rlt_dec y 0) as [Hneg|_]; lra.
Qed.

Lemma calculateDistance_nonneg (c1 c2 : Coordinate) :
  0 <= calculateDistance c1 c2.
Proof.
  unfold calculateDistance. cbv zeta.
  match goal with |- context [atan2 ?y ?x] =>
    pose proof (atan2_quadrant y x (sqrt_pos _) (sqrt_pos _)) as [Hlo _]
  end.
  nra.
Qed.

Lemma isInside_radius (u : Coordinate) (p : Place) :
  isInside u p = true -> 0 <= radius p.
Proof.
  unfold isInside. pose proof (calculateDistance_nonneg u (location p)).
  destruct (Rle_dec _ _); [lra|done].
Qed.

End RangeFacts.

(** X21.  A negative radius silences a place.  The distance of two
    coordinates is never below 0 (shown here over the real numbers; in
    floating point the distance is not negative or is NaN, and a
    comparison with NaN is false, so the three facts are the same).  So
    a place whose radius is negative contains no location; every alert
    that a run of the effect creates is the alert of a place of the
    collection whose radius is not negative; and enlarging the radius of
    a place (the location unchanged) never puts outside a user who was
    inside. *)
Theorem X21_negative_radius_is_silent (now : Z) (st : AppState) (u : Coordinate)
    (p q : Place) :
  ((radius p < 0)%R → isInside u p = false) ∧
  (∀ a, a ∈ created now st →
     ∃ r, r ∈ places st ∧ placeId a = id r ∧ isCompleted r = false ∧
       (0 <= radius r)%R) ∧
  (location q = location p → (radius p <= radius q)%R →
     isInside u p = true → isInside u q = true).
Proof.
  split; [|split].
  - intros Hr. destruct (isInside u p) eqn:Hin; [|done].
    apply isInside_radius in Hin. lra.
  - intros a Ha. apply elem_of_created in Ha as (v & r & _ & Hr & -> & Hf).
    apply fires_spec in Hf as (Hc & Hin & _).
    exists r. split; [done|]. split; [done|]. split; [done|].
    by apply (isInside_radius v).
  - unfold isInside. intros -> Hr.
    destruct (Rle_dec _ (radius p)); [|done].
    intros _. destruct (Rle_dec _ (radius q)); [done|lra].
Qed.

(* ================================================================== *)
(** * The further properties at the session *)
(* ================================================================== *)

Import Session.

Section MoreSessionFacts.

Lemma alerted_flagged : id cafe ∈ alertedPlaceIds alerted.
Proof.
  destruct withCafe_armed as (Harmed & Hnone & _).
  apply (enter_state (H := platform) cafe withCafe origin 1700000005000%Z
           withCafe_unique withCafe_cafe eq_refl Harmed Hnone eq_refl
           cafe_inside_origin).
Qed.

Lemma atCafe_unique : NoDup (placeIds atCafe).
Proof. exact withCafe_unique. Qed.

Lemma printed_1 : doubleToString (Platform := printing) 1 = str "1".
Proof. simpl. destruct (Req_dec_T 1 1) as [_|Hne]; [reflexivity|lra]. Qed.

Lemma printed_2 : doubleToString (Platform := printing) 2 = str "2".
Proof.
  simpl. destruct (Req_dec_T 2 1) as [Heq|_]; [lra|].
  destruct (Req_dec_T 2 2) as [_|Hne]; [reflexivity|lra].
Qed.

Lemma cafeResult_built :
  mapFeature (H := printing) (1 / 2)%R cafeFeature = inr cafeResult.
Proof.
  unfold mapFeature, cafeFeature, cafeResult.
  cbn [properties coordinates lookup list_lookup osm_id].
  rewrite printed_1, printed_2. reflexivity.
Qed.

End MoreSessionFacts.

Lemma X1_witness :
  alertsFor (id cafe)
    (activeAlerts
       (run (H := platform) (evaluation (origin, 1700000006000%Z))
          (handleDismissAlert (id cafe) alerted))) = [].
Proof.
  apply (X1_dismiss_does_not_rearm (H := platform) (id cafe) alerted
           (evaluation (origin, 1700000006000%Z))).
  - exact alerted_flagged.
  - split; [exact I|]. split; [|exact I].
    intros u q Hu Hq _ _.
    change (Some origin = Some u) in Hu. injection Hu as <-.
    change (q ∈ places alerted) in Hq. rewrite alerted_places in Hq.
    apply list_elem_of_singleton in Hq as ->. exact cafe_inside_origin.
Defined.

Lemma X2_witness : alertOf 1%Z cafe ∈ created 1%Z atCafe.
Proof.
  apply (proj2 (X2_alert_iff_cause 1%Z atCafe (alertOf 1%Z cafe))).
  exists origin, cafe.
  split; [reflexivity|]. split; [exact withCafe_cafe|]. split; [reflexivity|].
  split; [reflexivity|]. split; [exact cafe_inside_origin|].
  split; [reflexivity|]. split; [apply not_elem_of_empty|reflexivity].
Defined.

Lemma X3_witness : proximityCheck 2 (proximityCheck 1 atCafe) = proximityCheck 1 atCafe.
Proof.
  apply (X3_effect_settles 1%Z 2%Z atCafe).
  - exact atCafe_unique.
  - intros p _. reflexivity.
Defined.

Lemma X4_witness :
  alertsFor (str "5")
    (created 9%Z
       (after (handleAddPlace (H := platform) 5 6 origin (str "Home") None
                 (Some (str "5")) (setUserLocation (Some origin) initialState))))
  = [{| placeId := str "5"; message := str "You are near Home!"; timestamp := 9 |}].
Proof.
  apply (X4_new_place_alerts (H := platform) 5 6 9 origin (str "Home") None
           (Some (str "5")) (setUserLocation (Some origin) initialState)).
  - reflexivity.
  - apply NoDup_nil_2.
  - apply not_elem_of_nil.
  - apply not_elem_of_empty.
  - reflexivity.
  - reflexivity.
Defined.

Lemma X5_witness :
  alertsFor (id cafe)
    (createdDuring (H := platform) (evaluation (origin, 1%Z))
       (handleToggleTask (id cafe) withCafe)) = [] ∧
  handleToggleTask (id cafe) (handleToggleTask (id cafe) withCafe) = withCafe.
Proof.
  destruct (X5_completed_is_skipped (H := platform) withCafe cafe (origin, 1%Z)
              withCafe_unique withCafe_cafe eq_refl) as (Hnone & _ & Hback).
  split; [exact Hnone|exact Hback].
Defined.

Lemma X6_witness :
  places (handlePlaceMove (str "42") degreeEast withCafe) = places withCafe ∧
  handleToggleTask (str "42") withCafe = withCafe ∧
  places (handleDeleteTask (str "42") withCafe) = places withCafe.
Proof.
  assert (Hnot : str "42" ∉ placeIds withCafe).
  { unfold placeIds. rewrite withCafe_places. simpl.
    intros Hin. apply list_elem_of_singleton in Hin. discriminate Hin. }
  destruct (X6_unknown_identifier (str "42") degreeEast noUpdates withCafe Hnot)
    as (Hmove & Htoggle & _ & Hdelete).
  split; [exact Hmove|]. split; [exact Htoggle|exact Hdelete].
Defined.

Lemma X7_witness :
  ∃ p', places (enrichmentSettled
                  {| enrichedName := str "Cafe"; enrichedId := id cafe;
                     initialNote := [] |}
                  (Fulfilled (Some {| suggestedCategory := Food;
                                      suggestedNote := Some (str "Try the espresso.") |}))
                  withCafe) !! 0%nat = Some p' ∧
        name p' = str "Cafe" ∧ location p' = origin.
Proof.
  destruct (X7_enrichment_frame
              {| enrichedName := str "Cafe"; enrichedId := id cafe; initialNote := [] |}
              (Fulfilled (Some {| suggestedCategory := Food;
                                  suggestedNote := Some (str "Try the espresso.") |}))
              withCafe) as (_ & _ & Hframe & _).
  destruct (Hframe 0%nat cafe) as (p' & Hp' & _ & Hname & Hloc & _).
  { rewrite withCafe_places. reflexivity. }
  exists p'. split; [exact Hp'|]. split; [exact Hname|exact Hloc].
Defined.

Lemma X8_witness :
  ∃ p, places (confirmDraft (H := platform) 1700000000000 1700000000001 drafting)
       = p :: places drafting ∧ name p ≠ [] ∧ category p = Generic.
Proof.
  destruct (X8_confirmed_place_is_clean (H := platform) 1700000000000 1700000000001
              origin drafting eq_refl)
    as (p & m & Hp & Hne & _ & _ & _ & _ & _ & Hc & _).
  exists p. split; [exact Hp|]. split; [exact Hne|exact Hc].
Defined.

Lemma X9_witness : cleanQuery (str "  Pizza Hut ") = trim (str "  Pizza Hut ").
Proof.
  apply (proj1 (X9_plain_query_is_trimmed (str "  Pizza Hut "))); reflexivity.
Defined.

Lemma X10_witness :
  ∃ rs, outcome (searchPlaces (H := platform)
                   (λ _, FetchResolves {| ok := true;
                                          json := JsonValue (Some [cafeFeature]) |})
                   (str "cafe near me") None) = Fulfilled rs ∧
        length rs = 1.
Proof.
  destruct (X10_results_follow_features (H := platform)
              (λ _, FetchResolves {| ok := true;
                                     json := JsonValue (Some [cafeFeature]) |})
              (str "cafe near me") None [cafeFeature]) as [Hall _].
  - discriminate.
  - discriminate.
  - reflexivity.
  - destruct Hall as (rs & Hrs & _ & Hlen & _).
    + apply Forall_cons. split; [simpl; lia|apply Forall_nil_2].
    + exists rs. split; [exact Hrs|exact Hlen].
Defined.

Lemma X11_witness :
  mainName cafeResult = str "Cafe" ∧
  (∃ p, places (after (handleSearchResultClick (H := printing) 7 8 cafeResult
                         initialState)) = [p] ∧
        name p = str "Cafe" ∧ location p = {| lat := 2; lng := 1 |}) ∧
  selectedPlaceId (after (handleSearchResultClick (H := printing) 7 8 cafeResult
                            initialState)) = Some (str "7").
Proof.
  destruct (X11_feature_to_place (H := printing) (1 / 2)%R cafeFeature cafeResult
              1%R 2%R [] 7 8 initialState) as (Hname & Hplace & Hsel & _).
  - exact cafeResult_built.
  - reflexivity.
  - repeat (apply Forall_cons; split; [discriminate|]). apply Forall_nil_2.
  - rewrite printed_1. reflexivity.
  - rewrite printed_2. reflexivity.
  - split; [exact Hname|]. split; [|exact Hsel].
    destruct Hplace as (p & Hp & Hn & Hl & _).
    exists p. split; [exact Hp|]. split; [exact Hn|exact Hl].
Defined.

Lemma X12_witness :
  snd (suggestCategoryAndNotes (λ _, inr None) (λ _, GenerateRejects AbortError)
         (str "Cafe")) = Fulfilled (Some fallback) ∧
  snd (optimizeItineraryRoute unit (λ _, inr None) (λ _, GenerateRejects AbortError)
         (str "Pune") [{| np_name := str "Cafe"; np_id := str "7" |}])
  = Fulfilled None.
Proof.
  destruct (X12_model_calls_never_reject unit (λ _, inr None) (λ _, inr None)
              (λ _, GenerateRejects AbortError) (str "Cafe") (str "Pune")
              [{| np_name := str "Cafe"; np_id := str "7" |}])
    as (_ & _ & Hs & Hr & _).
  split.
  - apply Hs. left. by exists AbortError.
  - apply Hr. left. by exists AbortError.
Defined.

Lemma X13_witness :
  AddressSearch.addr_outcome unit
    (AddressSearch.searchPlaces (H := platform) unit
       (λ _, AddressSearch.AddressRejects unit AbortError) (str "near me") None)
  = Fulfilled (AddressSearch.EmptyArray unit).
Proof.
  destruct (X13_address_search (H := platform) unit
              (λ _, AddressSearch.AddressRejects unit AbortError) (str "near me") None)
    as (_ & _ & Hfail & _).
  apply Hfail. intros url. exact I.
Defined.

Lemma X14_witness :
  LocationWatch.registered
    (LocationWatch.mounted true
       [LocationWatch.WatchError 0 3; LocationWatch.Unmount;
        LocationWatch.WatchPosition 1 origin]) = [].
Proof.
  destruct (X14_watch_subscriptions true
              [LocationWatch.WatchError 0 3; LocationWatch.Unmount;
               LocationWatch.WatchPosition 1 origin]) as (_ & _ & _ & Hun & _).
  apply Hun. right. left.
Defined.

Lemma X15_witness :
  LocationWatch.isLoadingLocation
    (LocationWatch.mounted false [LocationWatch.InitialFix None]) = true.
Proof.
  destruct (X15_loading_flag false [LocationWatch.InitialFix None] [])
    as (_ & _ & _ & Hskip).
  apply Hskip; [reflexivity|].
  intros Hin. apply list_elem_of_singleton in Hin. discriminate Hin.
Defined.

Lemma X16_witness :
  AlertSound.playAlertSound
    {| AlertSound.audio := AlertSound.AudioUsable;
       AlertSound.hasSpeechSynthesis := true;
       AlertSound.notification := Some AlertSound.PermissionGranted |}
    (str "You are near Cafe!")
    (AlertSound.utteranceStarts AlertSound.silent)
  = AlertSound.emit [AlertSound.Beep] (AlertSound.utteranceStarts AlertSound.silent).
Proof.
  destruct (X16_narration_guard
              {| AlertSound.audio := AlertSound.AudioUsable;
                 AlertSound.hasSpeechSynthesis := true;
                 AlertSound.notification := Some AlertSound.PermissionGranted |}
              (str "You are near Cafe!") []
              (AlertSound.utteranceStarts AlertSound.silent)) as (Hguard & _).
  apply Hguard; reflexivity.
Defined.

Lemma X17_witness :
  placeIds (handleToggleTask (id cafe) withCafe) = placeIds withCafe ∧
  S (length (activeTasks (places (handleToggleTask (id cafe) withCafe))))
  = length (activeTasks (places withCafe)).
Proof.
  destruct (X17_sidebar_lists withCafe cafe) as (_ & Htoggle).
  destruct (Htoggle withCafe_unique withCafe_cafe) as (_ & Hids & Hlen).
  split; [exact Hids|exact Hlen].
Defined.

Lemma X18_witness :
  draftPanelShown
    (confirmDraft (H := platform) 1700000000000 1700000000001 drafting) = false ∧
  detailsPanel (confirmDraft (H := platform) 1700000000000 1700000000001 drafting)
  = head (places (confirmDraft (H := platform) 1700000000000 1700000000001 drafting)).
Proof.
  destruct (X18_panels (H := platform) drafting) as (Hconfirm & _).
  destruct (Hconfirm 1700000000000%Z 1700000000001%Z origin eq_refl)
    as (Hdraft & Hdetails & _).
  split; [exact Hdraft|exact Hdetails].
Defined.

Lemma X19_witness :
  ∃ k, k ∈ twoCommits ∧ propsUser k = Some origin ∧ propsSelected k = None.
Proof.
  destruct (X19_centres_once twoCommits) as (_ & Hcentre & _).
  destruct (Hcentre origin 15%Z) as (_ & Hk).
  - left.
  - exact Hk.
Defined.

Lemma X20_witness :
  Forall identified (places withCafe) ∧
  Forall (λ p, notes p ≠ None) (places withCafe) ∧
  ∃ p', p' ∈ places (handle (H := platform)
                       (EvEnrichment
                          {| enrichedName := str "Cafe"; enrichedId := id cafe;
                             initialNote := [] |}
                          (Fulfilled (Some {| suggestedCategory := Food;
                                              suggestedNote := None |})))
                       withCafe) ∧
        id p' = id cafe ∧ notes p' = None.
Proof.
  destruct (X20_shape_of_places (H := platform) session initialState)
    as (Hid & _ & Hnotes & _).
  destruct (X20_shape_of_places (H := platform) [] withCafe) as (_ & _ & _ & Hdrop).
  split; [apply Hid; apply Forall_nil_2|]. split.
  - apply Hnotes; [|apply Forall_nil_2].
    repeat (apply Forall_cons; split; [exact I|]). apply Forall_nil_2.
  - destruct (Hdrop {| enrichedName := str "Cafe"; enrichedId := id cafe;
                       initialNote := [] |}
                    {| suggestedCategory := Food; suggestedNote := None |}
                    cafe withCafe_cafe eq_refl eq_refl eq_refl)
      as (p' & Hp' & Hi & _ & Hn).
    exists p'. split; [exact Hp'|]. split; [exact Hi|exact Hn].
Defined.

Lemma X21_witness :
  isInside degreeEast inverted = false ∧
  ∃ r, r ∈ places atCafe ∧ (0 <= radius r)%R.
Proof.
  destruct (X21_negative_radius_is_silent 1%Z atCafe degreeEast inverted inverted)
    as (Hneg & Halert & _).
  split.
  - apply Hneg. simpl. lra.
  - destruct (Halert (alertOf 1%Z cafe)) as (r & Hr & _ & _ & Hrad).
    + apply elem_of_created. exists origin, cafe.
      split; [reflexivity|]. split; [exact withCafe_cafe|]. split; [reflexivity|].
      apply fires_spec.
      split; [reflexivity|]. split; [exact cafe_inside_origin|].
      split; [reflexivity|]. split; [apply not_elem_of_empty|reflexivity].
    + exists r. split; [exact Hr|exact Hrad].
Defined.
